(** * Turbulent jet post-processing: the numeric core of [computeAll]

    A shallow embedding of the analysis pipeline of the jet-flow calculator
    ([services/calculator], the module that exports [computeAll], [cm2m]
    and [pretty]) together with the properties its specification states
    about it.

    JavaScript numbers are IEEE-754 binary64 values; they are modelled by
    Rocq's primitive [float], whose operations are specified against
    [SpecFloat] by the axioms of [FloatAxioms].  [Math.log] and [Math.exp]
    are "implementation-approximated" in ECMAScript, so the pipeline is
    parameterised by them. *)

From Stdlib Require Import Reals Lra.
From Stdlib Require Import ZArith Lia List Bool String Ascii Floats Sorted Permutation.
Import ListNotations.

Set Warnings "-inexact-float".
Local Open Scope float_scope.

(** ** The JavaScript built-ins the module uses *)

Module JS.

(** A JavaScript [number]. *)
Definition number := float.

(** Global [isFinite] on a number: neither NaN nor an infinity. *)
Definition isFinite (x : number) : bool := is_finite x.

(** [ToBoolean] on a number: NaN, [+0] and [-0] are falsy. *)
Definition truthy (x : number) : bool := negb (is_nan x || is_zero x).

(** [a || b] on numbers. *)
Definition or_else (a b : number) : number := if truthy a then a else b.

Definition Math_abs (x : number) : number := abs x.
Definition Math_sqrt (x : number) : number := sqrt x.

Definition is_pos_zero (x : number) : bool := is_zero x && negb (get_sign x).
Definition is_neg_zero (x : number) : bool := is_zero x && get_sign x.

(** [Math.max(a, b)]: NaN if either argument is NaN; otherwise the
    running maximum starting from [-Infinity], where [+0] beats [-0]. *)
Definition Math_max (a b : number) : number :=
  if is_nan a || is_nan b then nan
  else
    let step (highest n : number) :=
      if is_pos_zero n && is_neg_zero highest then zero
      else if highest <? n then n else highest in
    step (step neg_infinity a) b.

(** [Math.PI]. *)
Definition Math_PI : number := 3.141592653589793.

(** The number value of an array length or index. *)
Definition of_nat (n : nat) : number :=
  SF2Prim (binary_normalize prec emax (Z.of_nat n) 0 false).

(** *** [parseFloat]

    Strings are byte strings holding the UTF-8 form of the JavaScript
    string.  [parseFloat] skips leading white space and line terminators,
    then reads the longest prefix that is a [StrDecimalLiteral]; the result
    is NaN when there is none. *)

Definition byte (c : ascii) : nat := nat_of_ascii c.

(** White space at the head of a byte list: the number of bytes it takes,
    [0] when the head is not white space. *)
Definition white_space_width (s : list ascii) : nat :=
  match map byte s with
  | (9 | 10 | 11 | 12 | 13 | 32)%nat :: _ => 1
  | 194%nat :: 160%nat :: _ => 2                         (* U+00A0 *)
  | 225%nat :: 154%nat :: 128%nat :: _ => 3              (* U+1680 *)
  | 226%nat :: 128%nat :: b :: _ =>                      (* U+2000..200A, 2028, 2029, 202F *)
      if ((128 <=? b) && (b <=? 138) || (b =? 168) || (b =? 169) || (b =? 175))%nat
      then 3 else 0
  | 226%nat :: 129%nat :: 159%nat :: _ => 3              (* U+205F *)
  | 227%nat :: 128%nat :: 128%nat :: _ => 3              (* U+3000 *)
  | 239%nat :: 187%nat :: 191%nat :: _ => 3              (* U+FEFF *)
  | _ => 0
  end.

Fixpoint trim_start (fuel : nat) (s : list ascii) : list ascii :=
  match fuel with
  | O => s
  | S fuel' =>
      match white_space_width s with
      | O => s
      | w => trim_start fuel' (skipn w s)
      end
  end.

Definition is_digit (c : ascii) : bool := ((48 <=? byte c) && (byte c <=? 57))%nat.
Definition digit_val (c : ascii) : Z := Z.of_nat (byte c) - 48.

(** Reads a run of decimal digits: the accumulated value, the number of
    digits read, and the rest of the input. *)
Fixpoint digits_from (acc n : Z) (s : list ascii) : Z * Z * list ascii :=
  match s with
  | c :: s' =>
      if is_digit c then digits_from (10 * acc + digit_val c) (n + 1) s'
      else (acc, n, s)
  | [] => (acc, n, s)
  end.

(** An [ExponentPart], when one is present: [e] or [E], an optional sign
    and at least one digit.  Otherwise the exponent is [0]. *)
Definition parse_exponent (s : list ascii) : Z :=
  match s with
  | c :: s1 =>
      if ((byte c =? 101) || (byte c =? 69))%nat then
        let '(neg, s2) :=
          match s1 with
          | d :: t => if (byte d =? 43)%nat then (false, t)
                      else if (byte d =? 45)%nat then (true, t)
                      else (false, s1)
          | [] => (false, s1)
          end in
        let '(v, n, _) := digits_from 0 0 s2 in
        if (n =? 0)%Z then 0%Z else if neg then (- v)%Z else v
      else 0%Z
  | [] => 0%Z
  end.

(** An unsigned decimal literal as [m * 10^e]. *)
Definition parse_unsigned (s : list ascii) : option (Z * Z) :=
  let '(i, ni, s1) := digits_from 0 0 s in
  match s1 with
  | c :: s2 =>
      if (byte c =? 46)%nat then
        let '(m, nf, s3) := digits_from i 0 s2 in
        if (ni + nf =? 0)%Z then None else Some (m, (parse_exponent s3 - nf)%Z)
      else if (ni =? 0)%Z then None else Some (i, parse_exponent s1)
  | [] => if (ni =? 0)%Z then None else Some (i, 0%Z)
  end.

(** The binary64 value nearest to [(-1)^neg * m * 10^e] (ties to even). *)
Definition of_decimal (neg : bool) (m e : Z) : number :=
  SF2Prim
    match m with
    | Zpos _ =>
        if (0 <=? e)%Z
        then binary_normalize prec emax (cond_Zopp neg (m * 10 ^ e)) 0 false
        else
          let '(q, ez, l) := SFdiv_core_binary prec emax m 0 (10 ^ (- e)) 0 in
          binary_round_aux prec emax neg q ez l
    | _ => S754_zero neg
    end.

Fixpoint starts_with (p s : list ascii) : bool :=
  match p, s with
  | [], _ => true
  | a :: p', b :: s' => (byte a =? byte b)%nat && starts_with p' s'
  | _ :: _, [] => false
  end.

Definition parseFloat (str : string) : number :=
  let s0 := list_ascii_of_string str in
  let s := trim_start (List.length s0) s0 in
  let '(neg, s1) :=
    match s with
    | c :: t => if (byte c =? 43)%nat then (false, t)
                else if (byte c =? 45)%nat then (true, t)
                else (false, s)
    | [] => (false, s)
    end in
  if starts_with (list_ascii_of_string "Infinity") s1
  then (if neg then neg_infinity else infinity)
  else
    match parse_unsigned s1 with
    | Some (m, e) => of_decimal neg m e
    | None => nan
    end.

End JS.

Import JS.

(** ** Data model *)

(** One table row as typed: radius (mm) and differential pressure, as text. *)
Record RowData := {
  row_id : string;
  row_r : string;
  row_dp : string
}.

Record StationData := {
  st_id : string;
  st_xd : string;
  st_variac : string;
  st_port1 : string;
  st_rows : list RowData
}.

(** The pressure-unit mode, ['kpa' | 'pa']. *)
Inductive PUnits := kpa | pa.

Record GlobalSettings := {
  g_rho : string;
  g_Dcm : string;
  g_pUnits : PUnits;
  g_contraction : string;
  g_showSteps : bool
}.

(** A row once both fields have gone through [parseFloat]. *)
Record ParsedRow := {
  rmm : number;
  dpIn : number
}.

(** Radius in metres, pressure in pascals, velocity in m/s.  The per-row
    list of display steps ([psteps]) is text only and is left out. *)
Record ComputedRow := {
  cr_r : number;
  cr_dpPa : number;
  cr_u : number
}.

Record CollapsedPoint := {
  xr : number;
  ur : number
}.

(** The warnings a station's trace can receive.  Each constructor stands for
    one message of the source; the numbers are those the message prints.
    - [Duplicate_r r]: "Duplicate r at <r> m."
    - [Non_monotonic r u_prev u]: "Non-monotonic velocity profile detected
      near r=<r> m (u increases from <u_prev> to <u>)."
    - [Cannot_extrapolate_Uc]: "Cannot extrapolate Uc, not enough data
      points with r>0."
    - [No_crossing]: "Could not determine r1/2 (no crossing of Uc/2)."
    - [Tail_skipped]: "Tail correction for integrals skipped (Uc or r1/2
      not available)." *)
Inductive Warning :=
| Duplicate_r (r : number)
| Non_monotonic (r u_prev u : number)
| Cannot_extrapolate_Uc
| No_crossing
| Tail_skipped.

(** The trace of one station.  Its calculation steps and trapezoid segments
    are written for display and never read back by the computation; the
    model keeps the [warnings] channel. *)
Record Trace := {
  warnings : list Warning
}.

Record ComputedStation := {
  cs_id : string;
  cs_xd : number;
  cs_variac : number;
  cs_port1 : number;
  cs_D : number;
  cs_rho : number;
  cs_unitIsKPa : bool;
  cs_rows : list ComputedRow;
  cs_trace : Trace;
  cs_Uc : number;
  cs_rHalf : number;
  cs_mdot : number;
  cs_I : number;
  cs_collapse : list CollapsedPoint;
  cs_rmse : number
}.

Record ComputedResults := {
  globals : GlobalSettings;
  results : list ComputedStation
}.

(** ** Utility functions *)

Definition mm2m (v : number) : number := v / 1000.
Definition cm2m (v : number) : number := v / 100.
Definition kPa2Pa (v : number) : number := v * 1000.

Definition mkTrace : Trace := {| warnings := [] |}.

Definition pushWarn (T : Trace) (msg : Warning) : Trace :=
  {| warnings := warnings T ++ [msg] |}.

(** [a[i]] read as a number: an index past the end gives [undefined], which
    arithmetic converts to NaN and comparisons treat as NaN.  The arrays [r]
    and [u] of a station always have the same length. *)
Definition at_index (a : list number) (i : nat) : number := nth i a nan.

(** [a.map((x, i) => f x i)]. *)
Fixpoint mapi_from {A B : Type} (f : A -> nat -> B) (i : nat) (a : list A) : list B :=
  match a with
  | [] => []
  | x :: a' => f x i :: mapi_from f (S i) a'
  end.

Definition mapi {A B : Type} (f : A -> nat -> B) (a : list A) : list B :=
  mapi_from f 0 a.

(** [a.sort(cmp)]: the sort is stable, and an element moves in front of an
    earlier one only when the comparator says [cmp(earlier, later) > 0] (a
    NaN from the comparator counts as [0]).  For a consistent comparator,
    such as a difference of numbers, every stable sort returns the same
    array; it is written here as a stable insertion sort. *)
Section Sort.
Context {A : Type} (cmp : A -> A -> number).

Fixpoint insert (x : A) (l : list A) : list A :=
  match l with
  | [] => [x]
  | y :: l' => if 0 <? cmp x y then y :: insert x l' else x :: l
  end.

Definition sort (l : list A) : list A := fold_right insert [] l.
End Sort.

(** ** The pipeline *)

Section Pipeline.

(** [Math.log] and [Math.exp] of the host. *)
Variable Math_log : number -> number.
Variable Math_exp : number -> number.

(** *** Half-velocity radius *)

(** A point of the [ln(u)] against [r^2] plot. *)
Record LogPoint := {
  r2 : number;
  lnu : number
}.

Definition transform (r u : list number) : list LogPoint :=
  filter (fun p => isFinite (lnu p))
    (mapi (fun ri i =>
             {| r2 := ri * ri;
                lnu := if 0 <? at_index u i then Math_log (at_index u i)
                       else neg_infinity |}) r).

(** The first loop: [for (i = 0; i < transformed.length - 1; i++)], here
    on the list from position [i] on. *)
Fixpoint scan_log (transformed : list LogPoint) (target_lnu : number) : option number :=
  match transformed with
  | p1 :: ((p2 :: _) as rest) =>
      if (target_lnu <=? lnu p1) && (lnu p2 <=? target_lnu) then
        let t := (target_lnu - lnu p1) / (lnu p2 - lnu p1) in
        let r2_half := r2 p1 + t * (r2 p2 - r2 p1) in
        Some (Math_sqrt r2_half)
      else scan_log rest target_lnu
  | _ => None
  end.

(** The second loop: [for (i = 0; i < u.length - 1; i++)], with [n] the
    number of iterations left. *)
Fixpoint scan_lin (r u : list number) (target_u : number) (i n : nat) : option number :=
  match n with
  | O => None
  | S n' =>
      let u1 := at_index u i in
      let u2 := at_index u (S i) in
      if (target_u <=? u1) && (u2 <=? target_u) then
        let t := (target_u - u1) / (u2 - u1) in
        Some (at_index r i + t * (at_index r (S i) - at_index r i))
      else scan_lin r u target_u (S i) n'
  end.

(** The solver.  Its [trace] argument only receives display steps and is
    left out. *)
Definition interpolateRhalf (r u : list number) (Uc : number) : number :=
  if Uc <=? 0 then nan
  else
    let target_u := Uc / 2 in
    let transformed := transform r u in
    let target_lnu := Math_log target_u in
    match scan_log transformed target_lnu with
    | Some rHalf => rHalf
    | None =>
        match scan_lin r u target_u 0 (List.length u - 1) with
        | Some rHalf => rHalf
        | None => nan
        end
    end.

(** *** One station *)

(** Row-level velocity: pascals, then the pitot relation. *)
Definition computeRow (rho : number) (unitIsKPa : bool) (p : ParsedRow) : ComputedRow :=
  let dpPa := if unitIsKPa then kPa2Pa (dpIn p) else dpIn p in
  let u := Math_sqrt (Math_max 0 (2 * dpPa / rho)) in
  {| cr_r := mm2m (rmm p); cr_dpPa := dpPa; cr_u := u |}.

Definition parseRows (rows : list RowData) : list ParsedRow :=
  filter (fun r => isFinite (rmm r) && isFinite (dpIn r))
    (map (fun row => {| rmm := parseFloat (row_r row); dpIn := parseFloat (row_dp row) |}) rows).

(** The duplicate-radius and monotonicity checks,
    [for (i = 1; i < computedRows.length; i++)], on the list from position
    [i - 1] on. *)
Fixpoint checkRows (rows : list ComputedRow) (trace : Trace) : Trace :=
  match rows with
  | prev :: ((cur :: _) as rest) =>
      let trace := if cr_r cur =? cr_r prev
                   then pushWarn trace (Duplicate_r (cr_r cur)) else trace in
      let trace := if cr_u prev <? cr_u cur
                   then pushWarn trace (Non_monotonic (cr_r cur) (cr_u prev) (cr_u cur))
                   else trace in
      checkRows rest trace
  | _ => trace
  end.

(** Centerline velocity [Uc] from the innermost rows. *)
Definition centerline (r u : list number) (trace : Trace) : number * Trace :=
  if at_index r 0 =? 0 then (at_index u 0, trace)
  else if (2 <=? List.length r)%nat then
    let r1 := at_index r 0 in let u1 := at_index u 0 in
    let r2 := at_index r 1 in let u2 := at_index u 1 in
    let r1_sq := r1 * r1 in
    let r2_sq := r2 * r2 in
    if Math_abs (r1_sq - r2_sq) <? 1e-12 then
      (u1 + (u2 - u1) * (0 - r1) / (r2 - r1), trace)
    else
      let a := (u1 - u2) / (r1_sq - r2_sq) in
      (u1 - a * r1_sq, trace)
  else
    (or_else (at_index u 0) nan, pushWarn trace Cannot_extrapolate_Uc).

(** The trapezoid loop, [for (i = 0; i < r.length - 1; i++)], for one
    integrand [f]; [n] is the number of iterations left and [area] the
    running total. *)
Fixpoint trapz (r f : list number) (i n : nat) (area : number) : number :=
  match n with
  | O => area
  | S n' =>
      let dr := at_index r (S i) - at_index r i in
      let A := 0.5 * (at_index f i + at_index f (S i)) * dr in
      trapz r f (S i) n' (area + A)
  end.

Definition computeStation (rho D : number) (unitIsKPa : bool) (st : StationData)
  : option ComputedStation :=
  let xd := parseFloat (st_xd st) in
  if negb (isFinite xd) then None
  else
    let trace := mkTrace in
    let parsedRows := parseRows (st_rows st) in
    if (List.length parsedRows <? 2)%nat then None
    else
      let computedRows :=
        sort (fun a b => cr_r a - cr_r b) (map (computeRow rho unitIsKPa) parsedRows) in
      let trace := checkRows computedRows trace in
      let r := map cr_r computedRows in
      let u := map cr_u computedRows in
      (* Centerline Uc *)
      let '(Uc, trace) := centerline r u trace in
      (* r_half *)
      let rHalf0 := interpolateRhalf r u Uc in
      let '(rHalf, trace) :=
        if negb (isFinite rHalf0) then (nan, pushWarn trace No_crossing)
        else (rHalf0, trace) in
      (* Integrals *)
      let f := mapi (fun ri i => rho * at_index u i * ri) r in
      let g := mapi (fun ri i => rho * at_index u i * at_index u i * ri) r in
      let area_f := trapz r f 0 (List.length r - 1) 0 in
      let area_g := trapz r g 0 (List.length r - 1) 0 in
      let mdot_trapz := 2 * Math_PI * area_f in
      let I_trapz := 2 * Math_PI * area_g in
      (* Tail correction; [I_] is the source's [I] *)
      let '(mdot, I_, trace) :=
        if isFinite Uc && isFinite rHalf && (0 <? rHalf) && (0 <? List.length r)%nat then
          let B := Math_log 2 / (rHalf * rHalf) in
          let r_n := at_index r (List.length r - 1) in
          let tail_mdot := (Math_PI * rho * Uc / B) * Math_exp (- B * r_n * r_n) in
          let tail_I := (Math_PI * rho * Uc * Uc / (2 * B)) * Math_exp (-2 * B * r_n * r_n) in
          (mdot_trapz + tail_mdot, I_trapz + tail_I, trace)
        else (mdot_trapz, I_trapz, pushWarn trace Tail_skipped) in
      (* Collapse *)
      let collapse :=
        if isFinite rHalf && (0 <? rHalf)
        then mapi (fun ri i => {| xr := ri / rHalf; ur := at_index u i / Uc |}) r
        else [] in
      (* RMSE *)
      let rmse :=
        if (0 <? List.length collapse)%nat then
          let ln2 := Math_log 2 in
          let sumSqErr :=
            fold_left (fun sum p =>
                         let gaussian_ur := Math_exp (- ln2 * xr p * xr p) in
                         let err := ur p - gaussian_ur in
                         sum + err * err) collapse 0 in
          Math_sqrt (sumSqErr / of_nat (List.length collapse))
        else nan in
      Some {| cs_id := st_id st;
              cs_xd := xd;
              cs_variac := parseFloat (st_variac st);
              cs_port1 := parseFloat (st_port1 st);
              cs_D := D;
              cs_rho := rho;
              cs_unitIsKPa := unitIsKPa;
              cs_rows := computedRows;
              cs_trace := trace;
              cs_Uc := Uc;
              cs_rHalf := rHalf;
              cs_mdot := mdot;
              cs_I := I_;
              cs_collapse := collapse;
              cs_rmse := rmse |}.

(** *** The batch *)

(** [stations.map(...).filter(st => st !== null)]. *)
Fixpoint mapNotNull {A B : Type} (f : A -> option B) (l : list A) : list B :=
  match l with
  | [] => []
  | x :: l' =>
      match f x with
      | Some y => y :: mapNotNull f l'
      | None => mapNotNull f l'
      end
  end.

Definition settings_rho (g : GlobalSettings) : number :=
  or_else (parseFloat (g_rho g)) 1.204.

Definition settings_D (g : GlobalSettings) : number :=
  cm2m (or_else (parseFloat (g_Dcm g)) 2.54).

Definition settings_unitIsKPa (g : GlobalSettings) : bool :=
  match g_pUnits g with kpa => true | pa => false end.

Definition computeAll (stations : list StationData) (g : GlobalSettings) : ComputedResults :=
  let rho := settings_rho g in
  let D := settings_D g in
  let unitIsKPa := settings_unitIsKPa g in
  {| globals := g;
     results := mapNotNull (computeStation rho D unitIsKPa) stations |}.

End Pipeline.

(** ** A reference host

    One admissible choice of the implementation-approximated functions,
    used to run the pipeline on concrete inputs. *)

Module Host.

Definition of_Z (z : Z) : number := SF2Prim (binary_normalize prec emax z 0 false).

(** The integer part of a number (0 for NaN and the infinities). *)
Definition trunc (x : number) : Z :=
  match Prim2SF x with
  | S754_finite s m e =>
      cond_Zopp s (if (0 <=? e)%Z then Zpos m * 2 ^ e else Zpos m / 2 ^ (- e))%Z
  | _ => 0%Z
  end.

Definition LN2 : number := 0.6931471805599453.

Definition odd_upto_41 : list Z :=
  [1; 3; 5; 7; 9; 11; 13; 15; 17; 19; 21; 23; 25; 27; 29; 31; 33; 35; 37; 39; 41]%Z.

(** [ln x = e ln 2 + 2 atanh ((m - 1) / (m + 1))] for [x = m 2^e]. *)
Definition log (x : number) : number :=
  if is_nan x || (x <? 0) then nan
  else if x =? 0 then neg_infinity
  else if x =? infinity then infinity
  else if x =? 1 then 0
  else
    let '(m, e) := FloatOps.Z.frexp x in
    let s := (m - 1) / (m + 1) in
    let s2 := s * s in
    let series := fold_right (fun k acc => 1 / of_Z k + s2 * acc) 0 odd_upto_41 in
    of_Z e * LN2 + 2 * s * series.

Definition upto_24 : list Z :=
  [1; 2; 3; 4; 5; 6; 7; 8; 9; 10; 11; 12; 13; 14; 15; 16; 17; 18; 19; 20; 21; 22; 23; 24]%Z.

(** [exp x = 2^k exp (x - k ln 2)], the remainder by its Taylor series. *)
Definition exp (x : number) : number :=
  if is_nan x then nan
  else if x =? infinity then infinity
  else if x =? neg_infinity then 0
  else if 710 <? x then infinity
  else if x <? -746 then 0
  else
    let k := trunc (x / LN2) in
    let t := x - of_Z k * LN2 in
    let series := fold_right (fun n acc => 1 + t / of_Z n * acc) 1 upto_24 in
    FloatOps.Z.ldexp series k.

End Host.

(** ** Notions used to state the properties *)

(** *** Reading a binary64 value *)

(** The sign bit of a number, [None] for NaN. *)
Definition sign_of (x : spec_float) : option bool :=
  match x with
  | S754_nan => None
  | S754_zero s | S754_infinity s | S754_finite s _ _ => Some s
  end.

Definition is_zero_sf (x : spec_float) : bool :=
  match x with S754_zero _ => true | _ => false end.

Definition is_inf_sf (x : spec_float) : bool :=
  match x with S754_infinity _ => true | _ => false end.

Definition is_pos_sf (x : spec_float) : bool := SFltb (S754_zero false) x.

(** A finite number as an integer multiple of [2^emin]; the infinities sit
    beyond every finite number. *)
Definition sf_value (prec emax : Z) (x : spec_float) : Z :=
  match x with
  | S754_zero _ | S754_nan => 0
  | S754_infinity s => cond_Zopp s (2 ^ (emax - SpecFloat.emin prec emax))
  | S754_finite s m e => cond_Zopp s (Zpos m * 2 ^ (e - SpecFloat.emin prec emax))
  end%Z.

(** The sign bit of a number. *)
Definition sign (x : number) : option bool := sign_of (Prim2SF x).

(** The position of a number on the binary64 line. *)
Definition value (x : number) : Z := sf_value prec emax (Prim2SF x).

(** *** Lists *)

(** The consecutive pairs [(l[i], l[i+1])]. *)
Definition consecutive {A : Type} (l : list A) : list (A * A) := combine l (tl l).

(** *** Stations *)

(** A row counts when radius and pressure both parse to finite numbers. *)
Definition valid_row (row : RowData) : bool :=
  isFinite (parseFloat (row_r row)) && isFinite (parseFloat (row_dp row)).

(** A station survives when x/D parses to a finite number and at least two
    of its rows count. *)
Definition usable (st : StationData) : bool :=
  isFinite (parseFloat (st_xd st)) && (2 <=? List.length (filter valid_row (st_rows st)))%nat.

(** The rows of a station in the order the analysis uses them. *)
Definition station_rows (rho : number) (unitIsKPa : bool) (st : StationData)
  : list ComputedRow :=
  sort (fun a b => cr_r a - cr_r b) (map (computeRow rho unitIsKPa) (parseRows (st_rows st))).

(** The warnings of the duplicate-radius and monotonicity checks. *)
Definition profile_warning (w : Warning) : Prop :=
  match w with
  | Duplicate_r _ | Non_monotonic _ _ _ => True
  | _ => False
  end.

(** Ascending by radius. *)
Definition radius_le (a b : ComputedRow) : Prop := (cr_r a <=? cr_r b) = true.

(** *** Fluxes *)

(** The trapezoid total of an integrand over consecutive rows, summed from
    the innermost pair outwards. *)
Definition trapezoid (f : ComputedRow -> number) (rows : list ComputedRow) : number :=
  fold_left (fun area '(a, b) => area + 0.5 * (f a + f b) * (cr_r b - cr_r a))
    (consecutive rows) 0.

Definition mass_integrand (rho : number) (row : ComputedRow) : number :=
  rho * cr_u row * cr_r row.

Definition momentum_integrand (rho : number) (row : ComputedRow) : number :=
  rho * cr_u row * cr_u row * cr_r row.

(** The tail correction applies when [Uc] and [r½] are finite and [r½ > 0]. *)
Definition tail_applies (Uc rHalf : number) : bool :=
  isFinite Uc && isFinite rHalf && (0 <? rHalf).

(** *** Half-velocity radius, as described *)

(** [a >= target] and [b <= target]. *)
Definition brackets (target a b : number) : bool := (target <=? a) && (b <=? target).

(** The first consecutive pair of [l] whose keys bracket [target]. *)
Definition first_crossing {A : Type} (key : A -> number) (target : number) (l : list A)
  : option (A * A) :=
  find (fun ab => brackets target (key (fst ab)) (key (snd ab))) (consecutive l).

Section Described.
Variable Math_log : number -> number.

(** The rows kept by [keep], as points [(r^2, ln u)]. *)
Definition log_points (keep : ComputedRow -> bool) (rows : list ComputedRow)
  : list (number * number) :=
  map (fun row => (cr_r row * cr_r row, Math_log (cr_u row))) (filter keep rows).

(** The two scans in order: the first crossing of [ln (Uc/2)] among the log
    points, interpolated in [r^2] and square-rooted; failing that the first
    crossing of [Uc/2] among the rows, interpolated in [r]; failing that
    NaN. *)
Definition rhalf_by_scans (keep : ComputedRow -> bool) (rows : list ComputedRow)
  (Uc : number) : number :=
  let target_u := Uc / 2 in
  let target_lnu := Math_log target_u in
  match first_crossing snd target_lnu (log_points keep rows) with
  | Some (p1, p2) =>
      let t := (target_lnu - snd p1) / (snd p2 - snd p1) in
      Math_sqrt (fst p1 + t * (fst p2 - fst p1))
  | None =>
      match first_crossing cr_u target_u rows with
      | Some (a, b) =>
          let t := (target_u - cr_u a) / (cr_u b - cr_u a) in
          cr_r a + t * (cr_r b - cr_r a)
      | None => nan
      end
  end.

(** The filter of the description: rows with [u > 0]. *)
Definition positive_velocity (row : ComputedRow) : bool := 0 <? cr_u row.

(** The filter the code applies: rows with [u > 0] whose [ln u] is finite. *)
Definition finite_log_velocity (row : ComputedRow) : bool :=
  (0 <? cr_u row) && isFinite (Math_log (cr_u row)).

End Described.

(** *** Similarity collapse *)

Section Collapse.
Variables Math_log Math_exp : number -> number.

Definition collapse_point (Uc rHalf : number) (row : ComputedRow) : CollapsedPoint :=
  {| xr := cr_r row / rHalf; ur := cr_u row / Uc |}.

(** The squared deviation of a collapsed point from [exp (- ln 2 * xr^2)]. *)
Definition squared_error (p : CollapsedPoint) : number :=
  let err := ur p - Math_exp (- Math_log 2 * xr p * xr p) in err * err.

(** [sqrt (mean of the squared errors)], the sum taken in row order. *)
Definition rmse_of (points : list CollapsedPoint) : number :=
  Math_sqrt (fold_left (fun sum p => sum + squared_error p) points 0
             / of_nat (List.length points)).

End Collapse.

(** ** Worked inputs *)

Definition row (r dp : string) : RowData := {| row_id := "row"; row_r := r; row_dp := dp |}.

(** The sample station of the specification, x/D = 10, pressures in kPa. *)
Definition sample_station : StationData :=
  {| st_id := "s1"; st_xd := "10"; st_variac := "50"; st_port1 := "0.3";
     st_rows := [row "10" "0.124"; row "0" "0.278"; row "5" "0.244";
                 row "15" "0.035"; row "20" "0.020"; row "30" "0.002"] |}.

Definition sample_settings : GlobalSettings :=
  {| g_rho := "1.204"; g_Dcm := "2.54"; g_pUnits := kpa;
     g_contraction := "1"; g_showSteps := true |}.

(** A station whose centerline row reads no pressure: [Uc = 0]. *)
Definition still_center_station : StationData :=
  {| st_id := "s2"; st_xd := "5"; st_variac := "50"; st_port1 := "0.3";
     st_rows := [row "0" "0"; row "1" "25"; row "2" "0"] |}.

Definition pascal_settings : GlobalSettings :=
  {| g_rho := "2"; g_Dcm := "2.54"; g_pUnits := pa;
     g_contraction := "1"; g_showSteps := false |}.

(** A negative density and negative pressures. *)
Definition negative_settings : GlobalSettings :=
  {| g_rho := "-2"; g_Dcm := "2.54"; g_pUnits := kpa;
     g_contraction := "1"; g_showSteps := false |}.

Definition negative_station : StationData :=
  {| st_id := "s3"; st_xd := "5"; st_variac := "50"; st_port1 := "0.3";
     st_rows := [row "-5" "-1"; row "0" "-4"] |}.

(** A station measured off the axis on both sides. *)
Definition two_sided_station : StationData :=
  {| st_id := "s4"; st_xd := "5"; st_variac := "50"; st_port1 := "0.3";
     st_rows := [row "5" "0.1"; row "-5" "0.1"] |}.

(** A station with a single usable row: it is dropped. *)
Definition one_row_station : StationData :=
  {| st_id := "s5"; st_xd := "5"; st_variac := ""; st_port1 := "";
     st_rows := [row "0" "0.1"; row "5" ""] |}.

(** Placeholders for the head of an empty list. *)
Definition no_row : ComputedRow := {| cr_r := nan; cr_dpPa := nan; cr_u := nan |}.

Definition no_station : ComputedStation :=
  {| cs_id := ""; cs_xd := nan; cs_variac := nan; cs_port1 := nan; cs_D := nan;
     cs_rho := nan; cs_unitIsKPa := false; cs_rows := []; cs_trace := mkTrace;
     cs_Uc := nan; cs_rHalf := nan; cs_mdot := nan; cs_I := nan;
     cs_collapse := []; cs_rmse := nan |}.

(** The sample station and the still-center station, run on the reference
    host. *)
Definition sample_run : option ComputedStation :=
  computeStation Host.log Host.exp (settings_rho sample_settings)
    (settings_D sample_settings) (settings_unitIsKPa sample_settings) sample_station.

Definition still_run : option ComputedStation :=
  computeStation Host.log Host.exp (settings_rho pascal_settings)
    (settings_D pascal_settings) (settings_unitIsKPa pascal_settings) still_center_station.

(** The records they produce. *)
Definition sample_computed : ComputedStation :=
  Eval vm_compute in
    hd no_station (results (computeAll Host.log Host.exp [sample_station] sample_settings)).

Definition sample_row : ComputedRow :=
  Eval vm_compute in hd no_row (cs_rows sample_computed).

Definition still_computed : ComputedStation :=
  Eval vm_compute in
    hd no_station
      (results (computeAll Host.log Host.exp [still_center_station] pascal_settings)).

Definition negative_computed : ComputedStation :=
  Eval vm_compute in
    hd no_station (results (computeAll Host.log Host.exp [negative_station] negative_settings)).

Definition negative_row : ComputedRow :=
  Eval vm_compute in hd no_row (cs_rows negative_computed).

Definition two_sided_computed : ComputedStation :=
  Eval vm_compute in
    hd no_station (results (computeAll Host.log Host.exp [two_sided_station] sample_settings)).

Definition two_sided_row : ComputedRow :=
  Eval vm_compute in hd no_row (cs_rows two_sided_computed).

(** ** Further notions: the profile checks *)

(** What the duplicate-radius and monotonicity checks log for one pair of
    neighbouring rows. *)
Definition pair_warnings (prev cur : ComputedRow) : list Warning :=
  (if cr_r cur =? cr_r prev then [Duplicate_r (cr_r cur)] else [])
  ++ (if cr_u prev <? cr_u cur
      then [Non_monotonic (cr_r cur) (cr_u prev) (cr_u cur)] else []).

(** The warnings of the profile checks over a whole station. *)
Definition profile_warnings (rows : list ComputedRow) : list Warning :=
  flat_map (fun pc => pair_warnings (fst pc) (snd pc)) (consecutive rows).

(** Strictly ascending by radius. *)
Definition radius_lt (a b : ComputedRow) : Prop := (cr_r a <? cr_r b) = true.

(** ** The input panel

    The identifiers, [uuidv4()] in the source, are arguments here. *)

(** [{ ...station, rows }]. *)
Definition set_rows (station : StationData) (rows : list RowData) : StationData :=
  {| st_id := st_id station; st_xd := st_xd station; st_variac := st_variac station;
     st_port1 := st_port1 station; st_rows := rows |}.

Definition addRow (id : string) (station : StationData) : StationData :=
  set_rows station (st_rows station ++ [{| row_id := id; row_r := ""; row_dp := "" |}]).

(** [a.filter((x, index) => keep(x, index))], from position [i] on. *)
Fixpoint filteri_from {A : Type} (keep : A -> nat -> bool) (i : nat) (a : list A) : list A :=
  match a with
  | [] => []
  | x :: a' =>
      if keep x i then x :: filteri_from keep (S i) a' else filteri_from keep (S i) a'
  end.

Definition filteri {A : Type} (keep : A -> nat -> bool) (a : list A) : list A :=
  filteri_from keep 0 a.

Definition removeRow (rowIndex : nat) (station : StationData) : StationData :=
  set_rows station
    (filteri (fun _ index => negb (Nat.eqb index rowIndex)) (st_rows station)).

(** [handleStationChange(field, value)], for the three fields the card
    edits this way. *)
Inductive StationChange :=
  | Set_xd (value : string)
  | Set_variac (value : string)
  | Set_port1 (value : string).

Definition handleStationChange (change : StationChange) (station : StationData)
  : StationData :=
  match change with
  | Set_xd v =>
      {| st_id := st_id station; st_xd := v; st_variac := st_variac station;
         st_port1 := st_port1 station; st_rows := st_rows station |}
  | Set_variac v =>
      {| st_id := st_id station; st_xd := st_xd station; st_variac := v;
         st_port1 := st_port1 station; st_rows := st_rows station |}
  | Set_port1 v =>
      {| st_id := st_id station; st_xd := st_xd station; st_variac := st_variac station;
         st_port1 := v; st_rows := st_rows station |}
  end.

(** [handleGlobalChange(field, value)], the field with the value of its
    type. *)
Inductive GlobalChange :=
  | Set_rho (value : string)
  | Set_Dcm (value : string)
  | Set_pUnits (value : PUnits)
  | Set_contraction (value : string)
  | Set_showSteps (value : bool).

Definition handleGlobalChange (change : GlobalChange) (prev : GlobalSettings)
  : GlobalSettings :=
  match change with
  | Set_rho v =>
      {| g_rho := v; g_Dcm := g_Dcm prev; g_pUnits := g_pUnits prev;
         g_contraction := g_contraction prev; g_showSteps := g_showSteps prev |}
  | Set_Dcm v =>
      {| g_rho := g_rho prev; g_Dcm := v; g_pUnits := g_pUnits prev;
         g_contraction := g_contraction prev; g_showSteps := g_showSteps prev |}
  | Set_pUnits v =>
      {| g_rho := g_rho prev; g_Dcm := g_Dcm prev; g_pUnits := v;
         g_contraction := g_contraction prev; g_showSteps := g_showSteps prev |}
  | Set_contraction v =>
      {| g_rho := g_rho prev; g_Dcm := g_Dcm prev; g_pUnits := g_pUnits prev;
         g_contraction := v; g_showSteps := g_showSteps prev |}
  | Set_showSteps v =>
      {| g_rho := g_rho prev; g_Dcm := g_Dcm prev; g_pUnits := g_pUnits prev;
         g_contraction := g_contraction prev; g_showSteps := v |}
  end.

Section InputPanel.
(** [String(x)] of a number. *)
Variable String_ : number -> string.

Definition addStation (id row1 row2 : string) (xdVal : option number)
  (prev : list StationData) : list StationData :=
  let newStation :=
    {| st_id := id;
       st_xd := match xdVal with
                | Some x => if truthy x then String_ x else ""
                | None => ""
                end;
       st_variac := "";
       st_port1 := "";
       st_rows := [ {| row_id := row1; row_r := "0"; row_dp := "" |};
                    {| row_id := row2; row_r := ""; row_dp := "" |} ] |} in
  prev ++ [newStation].
End InputPanel.

Definition updateStation (id : string) (updatedStation : StationData)
  (prev : list StationData) : list StationData :=
  map (fun s => if String.eqb (st_id s) id then updatedStation else s) prev.

Definition removeStation (id : string) (prev : list StationData) : list StationData :=
  filter (fun s => negb (String.eqb (st_id s) id)) prev.

(** ** The application *)

Section App.
Variables Math_log Math_exp : number -> number.

(** The compute button, without the scrolling it schedules: the displayed
    results after the click, and whether the alert was raised. *)
Definition handleCompute (stations : list StationData) (globalSettings : GlobalSettings)
  (computedResults : option ComputedResults) : option ComputedResults * bool :=
  let results_ := computeAll Math_log Math_exp stations globalSettings in
  if Nat.eqb (List.length (results results_)) 0 then (computedResults, true)
  else (Some results_, false).
End App.

(** ** The output panel

    The chart data ([trendData], [allR], [profileData]) are computed when
    there are results to show, and are null otherwise; the definitions below
    are the computations on the results. *)

Record TrendPoint := {
  tp_xd : number;
  tp_Uc : number;
  tp_mdot : number;
  tp_I : number
}.

(** [st => ({ xd: st.xd, Uc: st.Uc, mdot: st.mdot, I: st.I })]. *)
Definition trendPoint (st : ComputedStation) : TrendPoint :=
  {| tp_xd := cs_xd st; tp_Uc := cs_Uc st; tp_mdot := cs_mdot st; tp_I := cs_I st |}.

Definition trendData (res : ComputedResults) : list TrendPoint :=
  sort (fun a b => tp_xd a - tp_xd b) (map trendPoint (results res)).

(** [b !== 0 ? 100 * (a - b) / b : NaN]. *)
Definition pct (a b : number) : number :=
  if negb (b =? 0) then 100 * (a - b) / b else nan.

Record Kpi := {
  dUc : number;
  dmd : number;
  dI : number
}.

Definition kpiData (shown : option ComputedResults) : option Kpi :=
  match shown with
  | None => None
  | Some res =>
      if (List.length (results res) <? 2)%nat then None
      else
        let sorted := sort (fun a b => cs_xd a - cs_xd b) (results res) in
        let first := nth 0 sorted no_station in
        let last_ := nth (List.length sorted - 1) sorted no_station in
        Some {| dUc := pct (cs_Uc last_) (cs_Uc first);
                dmd := pct (cs_mdot last_) (cs_mdot first);
                dI := pct (cs_I last_) (cs_I first) |}
  end.

(** Ascending by station position. *)
Definition xd_le (a b : ComputedStation) : Prop := (cs_xd a <=? cs_xd b) = true.

Definition trend_le (a b : TrendPoint) : Prop := (tp_xd a <=? tp_xd b) = true.

(** The diameter the report prints, [cm2m(parseFloat(globals.Dcm))]. *)
Definition report_D (res : ComputedResults) : number :=
  cm2m (parseFloat (g_Dcm (globals res))).

(** *** The profile plot *)

(** [SameValueZero], the equality of a [Set]: as [===], and NaN equals
    NaN. *)
Definition same_value_zero (a b : number) : bool :=
  (a =? b) || (is_nan a && is_nan b).

(** [set.add(v)] on the list of the members in insertion order; [-0] is
    stored as [+0]. *)
Definition Set_add (members : list number) (v : number) : list number :=
  let v := if is_zero v then 0 else v in
  if existsb (same_value_zero v) members then members else members ++ [v].

(** [[...new Set(a)]]. *)
Definition Set_of (a : list number) : list number := fold_left Set_add a [].

Definition allR (res : ComputedResults) : list number :=
  sort (fun a b => a - b)
    (Set_of (flat_map (fun s => map cr_r (cs_rows s)) (results res))).

(** An object as the list of its own properties, in creation order:
    [o[key] = v] and [o[key]]. *)
Fixpoint set_property {V : Type} (key : string) (v : V) (o : list (string * V))
  : list (string * V) :=
  match o with
  | [] => [(key, v)]
  | (k, w) :: o' =>
      if String.eqb k key then (k, v) :: o' else (k, w) :: set_property key v o'
  end.

Fixpoint get_property {V : Type} (key : string) (o : list (string * V)) : option V :=
  match o with
  | [] => None
  | (k, w) :: o' => if String.eqb k key then Some w else get_property key o'
  end.

Section ProfilePlot.
(** [String(x)] of a number, as the template literal applies it. *)
Variable String_ : number -> string.

(** The property of a station in a point of the profile plot,
    [`u_${st.xd}`]. *)
Definition station_key (st : ComputedStation) : string :=
  ("u_" ++ String_ (cs_xd st))%string.

(** [st.rows.find(p => p.r === rVal)?.u]; [None] is [undefined]. *)
Definition velocity_at (st : ComputedStation) (rVal : number) : option number :=
  option_map cr_u (find (fun p => cr_r p =? rVal) (cs_rows st)).

Definition profilePoint (res : ComputedResults) (rVal : number)
  : list (string * option number) :=
  fold_left (fun point st => set_property (station_key st) (velocity_at st rVal) point)
    (results res) [("r"%string, Some rVal)].

Definition profileData (res : ComputedResults) : list (list (string * option number)) :=
  map (profilePoint res) (allR res).
End ProfilePlot.

(** *** Pasting two columns *)

(** [s.split('\n')], on the bytes of [s]. *)
Fixpoint split_lines (s : list ascii) : list (list ascii) :=
  match s with
  | [] => [[]]
  | c :: s' =>
      if (byte c =? 10)%nat then [] :: split_lines s'
      else match split_lines s' with
           | line :: lines => (c :: line) :: lines
           | [] => [[c]]
           end
  end.

(** [line.trim() !== '']: some character of the line is not white space. *)
Definition not_blank (line : list ascii) : bool :=
  match trim_start (List.length line) line with
  | [] => false
  | _ :: _ => true
  end.

(** [line.split(/\s+/)]: the pieces between the maximal runs of white
    space, an empty piece before a leading run and after a trailing one.
    [fuel] bounds the number of bytes read. *)
Fixpoint split_spaces (fuel : nat) (s : list ascii) : list (list ascii) :=
  match fuel with
  | O => [[]]
  | S fuel' =>
      match s with
      | [] => [[]]
      | c :: s' =>
          match white_space_width s with
          | O => match split_spaces fuel' s' with
                 | piece :: pieces => (c :: piece) :: pieces
                 | [] => [[c]]
                 end
          | S _ => [] :: split_spaces fuel' (trim_start (List.length s) s)
          end
      end
  end.

(** [const [r, dp] = line.split(/\s+/); { id, r: r || '', dp: dp || '' }]. *)
Definition pasted_row (id : string) (line : list ascii) : RowData :=
  let pieces := split_spaces (List.length line) line in
  {| row_id := id;
     row_r := string_of_list_ascii (nth 0 pieces []);
     row_dp := string_of_list_ascii (nth 1 pieces []) |}.

(** The paste handler of a station card; [ids i] is the identifier drawn
    for the row of the [i]-th kept line. *)
Definition handlePaste (ids : nat -> string) (pasteData : string) (station : StationData)
  : StationData :=
  let lines := filter not_blank (split_lines (list_ascii_of_string pasteData)) in
  let pastedRows := mapi (fun line i => pasted_row (ids i) line) lines in
  if (0 <? List.length pastedRows)%nat then set_rows station pastedRows else station.

(** A byte of a printable ASCII character other than the space. *)
Definition graphic (c : ascii) : bool := ((33 <=? byte c) && (byte c <=? 126))%nat.

(** A cell of a table: one printable ASCII character or more. *)
Definition cell (s : list ascii) : Prop := s <> [] /\ forallb graphic s = true.

(** Two cells as a line of a spreadsheet: tab between, newline after. *)
Definition table_line (cells : list ascii * list ascii) : list ascii :=
  fst cells ++ ascii_of_nat 9 :: snd cells ++ [ascii_of_nat 10].

(** ** Computed stations that differ in one recorded input *)

Definition with_xd (xd : number) (cs : ComputedStation) : ComputedStation :=
  {| cs_id := cs_id cs; cs_xd := xd; cs_variac := cs_variac cs; cs_port1 := cs_port1 cs;
     cs_D := cs_D cs; cs_rho := cs_rho cs; cs_unitIsKPa := cs_unitIsKPa cs;
     cs_rows := cs_rows cs; cs_trace := cs_trace cs; cs_Uc := cs_Uc cs;
     cs_rHalf := cs_rHalf cs; cs_mdot := cs_mdot cs; cs_I := cs_I cs;
     cs_collapse := cs_collapse cs; cs_rmse := cs_rmse cs |}.

Definition with_variac (variac : number) (cs : ComputedStation) : ComputedStation :=
  {| cs_id := cs_id cs; cs_xd := cs_xd cs; cs_variac := variac; cs_port1 := cs_port1 cs;
     cs_D := cs_D cs; cs_rho := cs_rho cs; cs_unitIsKPa := cs_unitIsKPa cs;
     cs_rows := cs_rows cs; cs_trace := cs_trace cs; cs_Uc := cs_Uc cs;
     cs_rHalf := cs_rHalf cs; cs_mdot := cs_mdot cs; cs_I := cs_I cs;
     cs_collapse := cs_collapse cs; cs_rmse := cs_rmse cs |}.

Definition with_port1 (port1 : number) (cs : ComputedStation) : ComputedStation :=
  {| cs_id := cs_id cs; cs_xd := cs_xd cs; cs_variac := cs_variac cs; cs_port1 := port1;
     cs_D := cs_D cs; cs_rho := cs_rho cs; cs_unitIsKPa := cs_unitIsKPa cs;
     cs_rows := cs_rows cs; cs_trace := cs_trace cs; cs_Uc := cs_Uc cs;
     cs_rHalf := cs_rHalf cs; cs_mdot := cs_mdot cs; cs_I := cs_I cs;
     cs_collapse := cs_collapse cs; cs_rmse := cs_rmse cs |}.

Definition with_D (D : number) (cs : ComputedStation) : ComputedStation :=
  {| cs_id := cs_id cs; cs_xd := cs_xd cs; cs_variac := cs_variac cs;
     cs_port1 := cs_port1 cs; cs_D := D; cs_rho := cs_rho cs;
     cs_unitIsKPa := cs_unitIsKPa cs;
     cs_rows := cs_rows cs; cs_trace := cs_trace cs; cs_Uc := cs_Uc cs;
     cs_rHalf := cs_rHalf cs; cs_mdot := cs_mdot cs; cs_I := cs_I cs;
     cs_collapse := cs_collapse cs; cs_rmse := cs_rmse cs |}.

(** ** Further worked inputs *)

(** A station whose two innermost rows share the radius 5 mm. *)
Definition repeated_station : StationData :=
  {| st_id := "s6"; st_xd := "5"; st_variac := "50"; st_port1 := "0.3";
     st_rows := [row "5" "0.2"; row "5" "0.1"; row "10" "0.05"] |}.

Definition repeated_run : option ComputedStation :=
  computeStation Host.log Host.exp (settings_rho sample_settings)
    (settings_D sample_settings) (settings_unitIsKPa sample_settings) repeated_station.

Definition repeated_computed : ComputedStation :=
  Eval vm_compute in
    hd no_station (results (computeAll Host.log Host.exp [repeated_station] sample_settings)).

(** A table of two columns, as copied from a spreadsheet. *)
Definition sample_table : list (list ascii * list ascii) :=
  map (fun cells => (list_ascii_of_string (fst cells), list_ascii_of_string (snd cells)))
    [("0", "0.278"); ("5", "0.244"); ("10", "0.124")]%string.

(** ** Numbers as real numbers *)

(** The real number a finite binary64 value stands for; [0] for the
    infinities and NaN. *)
Definition SF2R (x : spec_float) : R :=
  match x with
  | S754_finite s m e => (IZR (cond_Zopp s (Zpos m)) * powerRZ 2 e)%R
  | _ => 0%R
  end.

Definition real (x : number) : R := SF2R (Prim2SF x).

(** A normal number: finite, of magnitude at least [2^-1022], the least
    number with a full mantissa. *)
Definition normal (x : number) : bool :=
  isFinite x && (0x1p-1022 <=? Math_abs x).

(** Two non-negative real numbers, each at most [1 + eps] times the
    other. *)
Definition agree (eps x y : R) : Prop :=
  (x <= (1 + eps) * y /\ y <= (1 + eps) * x)%R.

(** A finite number other than zero, of sign [s] ([true] for negative). *)
Definition finite_signed (s : bool) (x : number) : Prop :=
  exists m e, Prim2SF x = S754_finite s m e.

(** The relative error of one operation whose result is normal: two units
    in the last place, [2^-51]. *)
Definition eta : R := (/ 2 ^ 51)%R.

(** Two real numbers, each at most [(1 + eta)^n] times the other: what [n]
    roundings can separate. *)
Definition within (n : nat) (x y : R) : Prop :=
  (x <= y * (1 + eta) ^ n /\ y <= x * (1 + eta) ^ n)%R.

(** The results of the velocity derivation of a row are all normal: the
    pressure in pascals, its double, the quotient by the density and the
    velocity. *)
Definition all_normal (rho : number) (unitIsKPa : bool) (p : ParsedRow) : bool :=
  let row := computeRow rho unitIsKPa p in
  normal (cr_dpPa row) && normal (2 * cr_dpPa row)
  && normal (2 * cr_dpPa row / rho) && normal (cr_u row).

(** ** Facts about binary64 arithmetic *)

Module SF.
Local Open Scope Z_scope.





(** *** Right shifts keep a mantissa non-negative *)

Lemma shr_1_m mrs : 0 <= shr_m mrs -> shr_m (shr_1 mrs) = Z.div2 (shr_m mrs).
Proof.
  destruct mrs as [m r s]; simpl. intros Hm.
  destruct m as [|[p|p|]|p]; simpl; try reflexivity; lia.
Qed.

Lemma iter_shr_m p : forall mrs, 0 <= shr_m mrs ->
  shr_m (iter_pos shr_1 p mrs) = Z.shiftr (shr_m mrs) (Zpos p).
Proof.
  induction p as [p IH|p IH|]; intros mrs Hm; simpl iter_pos.
  - assert (H1 : 0 <= shr_m (shr_1 mrs)).
    { rewrite shr_1_m by assumption. rewrite Z.div2_spec. now apply Z.shiftr_nonneg. }
    assert (H2 : 0 <= shr_m (iter_pos shr_1 p (shr_1 mrs))).
    { rewrite IH by assumption. now apply Z.shiftr_nonneg. }
    rewrite IH, IH, shr_1_m, Z.div2_spec by assumption.
    rewrite !Z.shiftr_shiftr by lia. f_equal; lia.
  - assert (H2 : 0 <= shr_m (iter_pos shr_1 p mrs)).
    { rewrite IH by assumption. now apply Z.shiftr_nonneg. }
    rewrite IH, IH by assumption.
    rewrite !Z.shiftr_shiftr by lia. f_equal; lia.
  - rewrite shr_1_m, Z.div2_spec by assumption. reflexivity.
Qed.

Lemma shr_m_shr mrs e n : 0 <= shr_m mrs ->
  shr_m (fst (shr mrs e n)) = Z.shiftr (shr_m mrs) (Z.max 0 n)
  /\ snd (shr mrs e n) = e + Z.max 0 n.
Proof.
  intros Hm. destruct n as [|p|p]; simpl.
  - rewrite Z.shiftr_0_r. split; [reflexivity | lia].
  - rewrite iter_shr_m by assumption. split; reflexivity.
  - rewrite Z.shiftr_0_r. split; [reflexivity | lia].
Qed.

Lemma shr_m_of_loc m l : shr_m (shr_record_of_loc m l) = m.
Proof. destruct l as [|[]]; reflexivity. Qed.

Lemma shr_fexp_spec prec emax m e l : 0 <= m ->
  let n := Z.max 0 (fexp prec emax (Zdigits2 m + e) - e) in
  shr_m (fst (shr_fexp prec emax m e l)) = Z.shiftr m n
  /\ snd (shr_fexp prec emax m e l) = e + n.
Proof.
  intros Hm n. unfold shr_fexp.
  destruct (shr_m_shr (shr_record_of_loc m l) e (fexp prec emax (Zdigits2 m + e) - e)) as [H1 H2].
  { now rewrite shr_m_of_loc. }
  rewrite shr_m_of_loc in H1. split; assumption.
Qed.

Lemma round_nearest_even_bounds m l :
  m <= round_nearest_even m l <= m + 1.
Proof.
  destruct l as [|[]]; simpl; try lia. destruct (Z.even m); lia.
Qed.

(** Rounding a non-negative mantissa never produces NaN and keeps the sign. *)
Lemma binary_round_aux_sign prec emax s m e l : 0 <= m ->
  sign_of (binary_round_aux prec emax s m e l) = Some s.
Proof.
  intros Hm. unfold binary_round_aux.
  destruct (shr_fexp_spec prec emax m e l Hm) as [H1 _].
  destruct (shr_fexp prec emax m e l) as [mrs' e'] eqn:E1. simpl in H1.
  pose proof (round_nearest_even_bounds (shr_m mrs') (loc_of_shr_record mrs')) as Hr.
  assert (H0 : 0 <= shr_m mrs') by (rewrite H1; now apply Z.shiftr_nonneg).
  set (m1 := round_nearest_even (shr_m mrs') (loc_of_shr_record mrs')) in *.
  assert (Hm1 : 0 <= m1) by lia.
  destruct (shr_fexp_spec prec emax m1 e' loc_Exact Hm1) as [H2 _].
  destruct (shr_fexp prec emax m1 e' loc_Exact) as [mrs'' e''] eqn:E2. simpl in H2.
  assert (H3 : 0 <= shr_m mrs'') by (rewrite H2; now apply Z.shiftr_nonneg).
  destruct (shr_m mrs'') as [|p|p]; try reflexivity.
  - destruct (e'' <=? emax - prec); reflexivity.
  - lia.
Qed.


(** *** Signs of products, quotients and square roots *)


Lemma SFmul_sign prec emax x y sx sy :
  sign_of x = Some sx -> sign_of y = Some sy ->
  sign_of (SFmul prec emax x y) =
    if (is_zero_sf x && is_inf_sf y) || (is_inf_sf x && is_zero_sf y) then None
    else Some (xorb sx sy).
Proof.
  destruct x, y; simpl; intros Hx Hy; try discriminate;
    injection Hx as <-; injection Hy as <-; try reflexivity.
  apply binary_round_aux_sign. lia.
Qed.

Lemma SFdiv_sign prec emax x y sx sy :
  sign_of x = Some sx -> sign_of y = Some sy ->
  sign_of (SFdiv prec emax x y) =
    if (is_zero_sf x && is_zero_sf y) || (is_inf_sf x && is_inf_sf y) then None
    else Some (xorb sx sy).
Proof.
  destruct x as [| | |s1 m1 e1], y as [| | |s2 m2 e2]; simpl; intros Hx Hy; try discriminate;
    injection Hx as <-; injection Hy as <-; try reflexivity.
  unfold SFdiv_core_binary.
  set (e' := Z.min _ _). set (m' := match (e1 - e2 - e')%Z with Z0 => _ | Zpos _ => _ | Zneg _ => _ end).
  assert (Hm' : 0 <= m').
  { unfold m'. destruct (e1 - e2 - e'); try lia. apply Z.shiftl_nonneg. lia. }
  pose proof (Z.div_pos m' (Zpos m2) Hm' ltac:(lia)) as Hq.
  unfold Z.div in Hq. destruct (Z.div_eucl m' (Zpos m2)) as [q r].
  now apply binary_round_aux_sign.
Qed.

Lemma SFsqrt_sign prec emax x :
  sign_of x = Some false -> sign_of (SFsqrt prec emax x) = Some false.
Proof.
  destruct x as [[]|[]| |[] m e]; simpl; intros Hx; try discriminate; try reflexivity.
  unfold SFsqrt_core_binary.
  set (e' := Z.min _ _). set (m' := match (e - 2 * e')%Z with Z0 => _ | Zpos _ => _ | Zneg _ => _ end).
  pose proof (Z.sqrtrem_sqrt m') as Hs. pose proof (Z.sqrt_nonneg m') as Hn.
  destruct (Z.sqrtrem m') as [q r]. simpl in Hs. subst q.
  now apply binary_round_aux_sign.
Qed.

(** *** The binary64 order as an order on integers *)

Section Order.
Variables prec emax : Z.
Hypothesis Hprec : 0 < prec.

Hypothesis Hmax : prec < emax.

Let emin := SpecFloat.emin prec emax.
Let Zval := sf_value prec emax.

Lemma digits2_bounds m :
  2 ^ (Zpos (digits2_pos m) - 1) <= Zpos m < 2 ^ Zpos (digits2_pos m).
Proof.
  induction m as [m IH|m IH|]; simpl digits2_pos.
  - rewrite Pos2Z.inj_succ.
    replace (Z.succ (Zpos (digits2_pos m)) - 1) with (Z.succ (Zpos (digits2_pos m) - 1))
      by lia.
    rewrite !Z.pow_succ_r by lia. lia.
  - rewrite Pos2Z.inj_succ.
    replace (Z.succ (Zpos (digits2_pos m)) - 1) with (Z.succ (Zpos (digits2_pos m) - 1))
      by lia.
    rewrite !Z.pow_succ_r by lia. lia.
  - simpl. lia.
Qed.


Lemma canonical_inv m e :
  SpecFloat.valid_binary prec emax (S754_finite false m e) = true ->
  emin <= e /\ e <= emax - prec /\ Zpos (digits2_pos m) <= prec
  /\ (emin < e -> Zpos (digits2_pos m) = prec).
Proof.
  unfold SpecFloat.valid_binary, bounded, canonical_mantissa, SpecFloat.fexp; fold emin.
  rewrite andb_true_iff, Z.eqb_eq, Z.leb_le. lia.
Qed.

Lemma finite_lt_exp m1 e1 m2 e2 :
  SpecFloat.valid_binary prec emax (S754_finite false m1 e1) = true ->
  SpecFloat.valid_binary prec emax (S754_finite false m2 e2) = true ->
  e1 < e2 ->
  Zpos m1 * 2 ^ (e1 - emin) < Zpos m2 * 2 ^ (e2 - emin).
Proof.
  intros V1 V2 Hlt.
  apply canonical_inv in V1, V2.
  destruct V1 as (A1 & B1 & C1 & D1), V2 as (A2 & B2 & C2 & D2).
  specialize (D2 ltac:(lia)).
  pose proof (digits2_bounds m1) as [_ U1].
  pose proof (digits2_bounds m2) as [L2 _].
  rewrite D2 in L2.
  assert (U1' : Zpos m1 < 2 ^ prec).
  { eapply Z.lt_le_trans; [exact U1|]. apply Z.pow_le_mono_r; lia. }
  assert (P1 : 0 < 2 ^ (e1 - emin)) by (apply Z.pow_pos_nonneg; lia).
  assert (E : 2 ^ (e2 - emin) = 2 ^ (e2 - e1 - 1) * (2 * 2 ^ (e1 - emin))).
  { rewrite <- Z.pow_succ_r by lia. rewrite <- Z.pow_add_r by lia. f_equal; lia. }
  assert (P2 : 0 < 2 ^ (e2 - e1 - 1)) by (apply Z.pow_pos_nonneg; lia).
  assert (E2 : 2 ^ prec = 2 * 2 ^ (prec - 1)).
  { rewrite <- Z.pow_succ_r by lia. f_equal; lia. }
  rewrite E. nia.
Qed.

Lemma finite_lt_inf m e :
  SpecFloat.valid_binary prec emax (S754_finite false m e) = true ->
  Zpos m * 2 ^ (e - emin) < 2 ^ (emax - emin).
Proof.
  intros V. apply canonical_inv in V. destruct V as (A & B & C & _).
  pose proof (digits2_bounds m) as [_ U].
  assert (U' : Zpos m < 2 ^ prec).
  { eapply Z.lt_le_trans; [exact U|]. apply Z.pow_le_mono_r; lia. }
  assert (P : 0 < 2 ^ (e - emin)) by (apply Z.pow_pos_nonneg; lia).
  assert (E : 2 ^ prec * 2 ^ (e - emin) <= 2 ^ (emax - emin)).
  { rewrite <- Z.pow_add_r by lia. apply Z.pow_le_mono_r; lia. }
  nia.
Qed.

Lemma valid_sign s m e :
  SpecFloat.valid_binary prec emax (S754_finite s m e)
  = SpecFloat.valid_binary prec emax (S754_finite false m e).
Proof. reflexivity. Qed.

Lemma pos_val_pos m e : emin <= e -> 0 < Zpos m * 2 ^ (e - emin).
Proof. intros H. assert (0 < 2 ^ (e - emin)) by (apply Z.pow_pos_nonneg; lia). nia. Qed.

Lemma compare_cont_scaled m1 m2 k : 0 < k ->
  Pos.compare_cont Eq m1 m2 = (Zpos m1 * k ?= Zpos m2 * k).
Proof.
  intros Hk. rewrite Pos.compare_cont_spec. unfold Pos.switch_Eq.
  destruct (Pos.compare_spec m1 m2) as [E|E|E]; symmetry.
  - subst. apply Z.compare_refl.
  - apply Z.compare_lt_iff. nia.
  - apply Z.compare_gt_iff. nia.
Qed.

(** On valid numbers [SFcompare] is the comparison of these integers. *)
Lemma SFcompare_Zval x y :
  SpecFloat.valid_binary prec emax x = true -> SpecFloat.valid_binary prec emax y = true ->
  x <> S754_nan -> y <> S754_nan ->
  SFcompare x y = Some (Zval x ?= Zval y).
Proof.
  intros Vx Vy Nx Ny.
  assert (Pinf : 0 < 2 ^ (emax - emin)).
  { apply Z.pow_pos_nonneg; [lia|]. unfold emin, SpecFloat.emin. lia. }
  destruct x as [s1|s1| |s1 m1 e1]; try congruence;
    destruct y as [s2|s2| |s2 m2 e2]; try congruence; unfold Zval; cbn [SFcompare sf_value]; fold emin.
  - reflexivity.
  - destruct s2; cbn [cond_Zopp]; f_equal; symmetry; [apply Z.compare_gt_iff | apply Z.compare_lt_iff]; lia.
  - rewrite valid_sign in Vy. apply canonical_inv in Vy. destruct Vy as (A & _).
    pose proof (pos_val_pos m2 e2 A).
    destruct s2; cbn [cond_Zopp]; f_equal; symmetry; [apply Z.compare_gt_iff | apply Z.compare_lt_iff]; lia.
  - destruct s1; cbn [cond_Zopp]; f_equal; symmetry; [apply Z.compare_lt_iff | apply Z.compare_gt_iff]; lia.
  - destruct s1, s2; cbn [cond_Zopp]; f_equal; symmetry;
      first [apply Z.compare_eq_iff | apply Z.compare_lt_iff | apply Z.compare_gt_iff]; lia.
  - rewrite valid_sign in Vy. pose proof (finite_lt_inf m2 e2 Vy).
    apply canonical_inv in Vy. destruct Vy as (A & _).
    pose proof (pos_val_pos m2 e2 A).
    destruct s1, s2; cbn [cond_Zopp]; f_equal; symmetry;
      first [apply Z.compare_lt_iff | apply Z.compare_gt_iff]; lia.
  - rewrite valid_sign in Vx. apply canonical_inv in Vx. destruct Vx as (A & _).
    pose proof (pos_val_pos m1 e1 A).
    destruct s1; cbn [cond_Zopp]; f_equal; symmetry; [apply Z.compare_lt_iff | apply Z.compare_gt_iff]; lia.
  - rewrite valid_sign in Vx. pose proof (finite_lt_inf m1 e1 Vx).
    apply canonical_inv in Vx. destruct Vx as (A & _).
    pose proof (pos_val_pos m1 e1 A).
    destruct s1, s2; cbn [cond_Zopp]; f_equal; symmetry;
      first [apply Z.compare_lt_iff | apply Z.compare_gt_iff]; lia.
  - rewrite valid_sign in Vx, Vy.
    pose proof (finite_lt_exp m1 e1 m2 e2 Vx Vy) as H12.
    pose proof (finite_lt_exp m2 e2 m1 e1 Vy Vx) as H21.
    apply canonical_inv in Vx, Vy. destruct Vx as (A1 & _), Vy as (A2 & _).
    pose proof (pos_val_pos m1 e1 A1). pose proof (pos_val_pos m2 e2 A2).
    assert (P1 : 0 < 2 ^ (e1 - emin)) by (apply Z.pow_pos_nonneg; lia).
    f_equal.
    destruct s1, s2; cbn [cond_Zopp].
    + rewrite Z.compare_opp.
      destruct (Z.compare_spec e1 e2) as [E|E|E].
      * subst e2. rewrite (compare_cont_scaled m1 m2 _ P1). symmetry. apply Z.compare_antisym.
      * symmetry. apply Z.compare_gt_iff. auto.
      * symmetry. apply Z.compare_lt_iff. auto.
    + symmetry. apply Z.compare_lt_iff. lia.
    + symmetry. apply Z.compare_gt_iff. lia.
    + destruct (Z.compare_spec e1 e2) as [E|E|E].
      * subst e2. apply compare_cont_scaled. assumption.
      * symmetry. apply Z.compare_lt_iff. auto.
      * symmetry. apply Z.compare_gt_iff. auto.
Qed.

(** *** Rounding does not flush a non-zero number to zero *)

Lemma shiftr_fexp_pos m e : 0 < m -> emin <= e ->
  0 < Z.shiftr m (Z.max 0 (SpecFloat.fexp prec emax (Zdigits2 m + e) - e)).
Proof.
  intros Hm He.
  destruct m as [|p|p]; try lia. cbn [Zdigits2].
  pose proof (digits2_bounds p) as [L _].
  set (d := Zpos (digits2_pos p)) in *.
  unfold SpecFloat.fexp; fold emin.
  set (n := Z.max 0 _).
  assert (Hn : 0 <= n <= d - 1) by (unfold n; lia).
  rewrite Z.shiftr_div_pow2 by lia.
  apply Z.div_str_pos. split; [apply Z.pow_pos_nonneg; lia|].
  eapply Z.le_trans; [|exact L]. apply Z.pow_le_mono_r; lia.
Qed.

Lemma fexp_ge_emin k : emin <= SpecFloat.fexp prec emax k.
Proof. unfold SpecFloat.fexp; fold emin. lia. Qed.

Lemma binary_round_aux_nonzero s m e l : 0 < m -> emin <= e ->
  is_zero_sf (binary_round_aux prec emax s m e l) = false.
Proof.
  intros Hm He. unfold binary_round_aux.
  destruct (shr_fexp_spec prec emax m e l ltac:(lia)) as [H1 H1e].
  pose proof (shiftr_fexp_pos m e Hm He) as P1.
  destruct (shr_fexp prec emax m e l) as [mrs' e'] eqn:E1. simpl in H1, H1e.
  pose proof (round_nearest_even_bounds (shr_m mrs') (loc_of_shr_record mrs')) as Hr.
  set (m1 := round_nearest_even (shr_m mrs') (loc_of_shr_record mrs')) in *.
  assert (Hm1 : 0 < m1) by lia.
  assert (He' : emin <= e') by lia.
  destruct (shr_fexp_spec prec emax m1 e' loc_Exact ltac:(lia)) as [H2 _].
  pose proof (shiftr_fexp_pos m1 e' Hm1 He') as P2.
  destruct (shr_fexp prec emax m1 e' loc_Exact) as [mrs'' e''] eqn:E2. simpl in H2.
  rewrite <- H2 in P2.
  destruct (shr_m mrs'') as [|p|p]; try lia.
  destruct (e'' <=? emax - prec); reflexivity.
Qed.

Lemma shl_align_fst m e e' : e' <= e ->
  Zpos (fst (shl_align m e e')) = Zpos m * 2 ^ (e - e')
  /\ snd (shl_align m e e') = e'.
Proof.
  intros H. unfold shl_align.
  destruct (e' - e) as [|d|d] eqn:E; try lia; cbn [fst snd].
  - replace (e - e') with 0 by lia. split; lia.
  - change (Pos.iter xO m d) with (shift_pos d m).
    rewrite shift_pos_correct, Z.pow_pos_fold.
    replace (e - e') with (Zpos d) by lia. split; lia.
Qed.

Lemma shl_align_snd_ge m e e' : emin <= e -> emin <= e' ->
  emin <= snd (shl_align m e e').
Proof.
  intros H H'. unfold shl_align. destruct (e' - e); cbn [snd]; lia.
Qed.

Lemma binary_round_nonzero s m e : emin <= e ->
  is_zero_sf (binary_round prec emax s m e) = false
  /\ sign_of (binary_round prec emax s m e) = Some s.
Proof.
  intros He. unfold binary_round.
  pose proof (shl_align_snd_ge m e (SpecFloat.fexp prec emax (Zpos (digits2_pos m) + e))
                He (fexp_ge_emin _)) as Hs.
  destruct (shl_align m e _) as [mz ez]. cbn [snd] in Hs. split.
  - apply binary_round_aux_nonzero; [lia | assumption].
  - apply binary_round_aux_sign. lia.
Qed.

(** *** The sign of a difference *)


Lemma is_pos_sf_alt x :
  is_pos_sf x = match sign_of x with
                | Some false => negb (is_zero_sf x)
                | _ => false
                end.
Proof. destruct x as [[]|[]| |[] m e]; reflexivity. Qed.

Lemma aligned_Zval s m e ez : emin <= ez -> ez <= e ->
  cond_Zopp s (Zpos m * 2 ^ (e - emin))
  = cond_Zopp s (Zpos (fst (shl_align m e ez))) * 2 ^ (ez - emin).
Proof.
  intros H1 H2. destruct (shl_align_fst m e ez H2) as [-> _].
  replace (e - emin) with ((e - ez) + (ez - emin)) by lia.
  rewrite Z.pow_add_r by lia. destruct s; cbn [cond_Zopp]; lia.
Qed.

Lemma SFsub_pos x y :
  SpecFloat.valid_binary prec emax x = true -> SpecFloat.valid_binary prec emax y = true ->
  is_pos_sf (SFsub prec emax x y) = SFltb y x.
Proof.
  intros Vx Vy.
  destruct x as [s1|s1| |s1 m1 e1]; destruct y as [s2|s2| |s2 m2 e2];
    try reflexivity;
    try (destruct s1; reflexivity); try (destruct s2; reflexivity);
    try (destruct s1, s2; reflexivity).
  unfold SFltb. rewrite (SFcompare_Zval _ _ Vy Vx) by discriminate.
  unfold Zval; cbn [SFsub sf_value]; fold emin.
  rewrite valid_sign in Vx, Vy. apply canonical_inv in Vx, Vy.
  destruct Vx as (A1 & _), Vy as (A2 & _).
  set (ez := Z.min e1 e2).
  assert (Hez : emin <= ez) by (unfold ez; lia).
  rewrite (aligned_Zval s1 m1 e1 ez), (aligned_Zval s2 m2 e2 ez) by (unfold ez; lia).
  set (X := cond_Zopp s1 _). set (Y := cond_Zopp s2 _).
  assert (P : 0 < 2 ^ (ez - emin)) by (apply Z.pow_pos_nonneg; lia).
  unfold binary_normalize.
  destruct (X - Y) as [|p|p] eqn:D.
  - replace (Y * 2 ^ (ez - emin) ?= X * 2 ^ (ez - emin)) with Eq; [reflexivity|].
    symmetry. apply Z.compare_eq_iff. nia.
  - destruct (binary_round_nonzero false p ez Hez) as [Hz Hs].
    rewrite is_pos_sf_alt, Hs, Hz.
    replace (Y * 2 ^ (ez - emin) ?= X * 2 ^ (ez - emin)) with Lt; [reflexivity|].
    symmetry. apply Z.compare_lt_iff. nia.
  - destruct (binary_round_nonzero true p ez Hez) as [Hz Hs].
    rewrite is_pos_sf_alt, Hs.
    replace (Y * 2 ^ (ez - emin) ?= X * 2 ^ (ez - emin)) with Gt; [reflexivity|].
    symmetry. apply Z.compare_gt_iff. nia.
Qed.
End Order.


End SF.

(** ** Facts about numbers *)

Lemma prec_pos : (0 < prec)%Z.
Proof. reflexivity. Qed.

Lemma prec_lt_emax : (prec < emax)%Z.
Proof. reflexivity. Qed.

Lemma SFcompare_refl x : x <> S754_nan -> SFcompare x x = Some Eq.
Proof.
  destruct x as [s|[]| |[] m e]; intros H; try congruence; try reflexivity; simpl.
  - now rewrite Z.compare_refl, Pos.compare_cont_refl.
  - now rewrite Z.compare_refl, Pos.compare_cont_refl.
Qed.

Lemma is_nan_spec x :
  is_nan x = match Prim2SF x with S754_nan => true | _ => false end.
Proof.
  unfold is_nan. rewrite eqb_spec. unfold SFeqb.
  destruct (Prim2SF x) eqn:E; try (rewrite SFcompare_refl by discriminate); reflexivity.
Qed.

Lemma is_zero_spec x : is_zero x = is_zero_sf (Prim2SF x).
Proof.
  unfold is_zero. rewrite eqb_spec. change (Prim2SF zero) with (S754_zero false).
  destruct (Prim2SF x) as [s|[]| |[] m e]; reflexivity.
Qed.

Lemma isFinite_spec x :
  isFinite x = match Prim2SF x with
               | S754_zero _ | S754_finite _ _ _ => true
               | _ => false
               end.
Proof.
  unfold isFinite, is_finite, is_infinity. rewrite is_nan_spec, eqb_spec, abs_spec.
  change (Prim2SF infinity) with (S754_infinity false).
  destruct (Prim2SF x) as [s|[]| |[] m e]; reflexivity.
Qed.

(** The sign test of a difference is the comparison of its operands, for
    all numbers. *)
Lemma sub_pos x y : (0 <? x - y) = (y <? x).
Proof.
  rewrite !ltb_spec, sub_spec. change (Prim2SF 0) with (S754_zero false).
  apply (SF.SFsub_pos prec emax prec_pos prec_lt_emax); apply Prim2SF_valid.
Qed.

Lemma compare_value x y :
  is_nan x = false -> is_nan y = false ->
  SFcompare (Prim2SF x) (Prim2SF y) = Some (value x ?= value y)%Z.
Proof.
  rewrite !is_nan_spec. intros Hx Hy.
  apply (SF.SFcompare_Zval prec emax prec_pos prec_lt_emax); try apply Prim2SF_valid.
  - intros E; rewrite E in Hx; discriminate.
  - intros E; rewrite E in Hy; discriminate.
Qed.

Lemma leb_value x y :
  is_nan x = false -> is_nan y = false -> (x <=? y) = (value x <=? value y)%Z.
Proof.
  intros Hx Hy. rewrite leb_spec. unfold SFleb. rewrite (compare_value x y Hx Hy).
  unfold Z.leb. destruct (value x ?= value y)%Z; reflexivity.
Qed.

Lemma ltb_value x y :
  is_nan x = false -> is_nan y = false -> (x <? y) = (value x <? value y)%Z.
Proof.
  intros Hx Hy. rewrite ltb_spec. unfold SFltb. rewrite (compare_value x y Hx Hy).
  unfold Z.ltb. destruct (value x ?= value y)%Z; reflexivity.
Qed.

Lemma leb_not_nan x y : (x <=? y) = true -> is_nan x = false /\ is_nan y = false.
Proof.
  rewrite leb_spec, !is_nan_spec.
  destruct (Prim2SF x), (Prim2SF y); simpl; intros H; try discriminate; auto.
Qed.

(** [Math.max(0, x)]. *)
Lemma Math_max_zero x :
  Math_max 0 x = if is_nan x then nan else if 0 <? x then x else 0.
Proof.
  unfold Math_max.
  change (is_nan 0) with false. cbn [orb].
  destruct (is_nan x); [reflexivity|].
  change (is_pos_zero 0 && is_neg_zero neg_infinity) with false. cbv iota.
  change (neg_infinity <? 0) with true. cbv iota.
  change (is_neg_zero 0) with false. rewrite andb_false_r. reflexivity.
Qed.

(** *** Signs through the pitot relation *)

Lemma leb_zero_spec x :
  (0 <=? x) = match Prim2SF x with
              | S754_zero _ | S754_infinity false | S754_finite false _ _ => true
              | _ => false
              end.
Proof.
  rewrite leb_spec. change (Prim2SF 0) with (S754_zero false).
  destruct (Prim2SF x) as [s|[]| |[] m e]; reflexivity.
Qed.

Lemma ltb_zero_spec x :
  (0 <? x) = match Prim2SF x with
             | S754_infinity false | S754_finite false _ _ => true
             | _ => false
             end.
Proof.
  rewrite ltb_spec. change (Prim2SF 0) with (S754_zero false).
  destruct (Prim2SF x) as [s|[]| |[] m e]; reflexivity.
Qed.

Lemma zero_ltb_spec x :
  (x <? 0) = match Prim2SF x with
             | S754_infinity true | S754_finite true _ _ => true
             | _ => false
             end.
Proof.
  rewrite ltb_spec. change (Prim2SF 0) with (S754_zero false).
  destruct (Prim2SF x) as [s|[]| |[] m e]; reflexivity.
Qed.

Lemma sign_not_nan x s : sign x = Some s -> is_nan x = false.
Proof. unfold sign. rewrite is_nan_spec. destruct (Prim2SF x); simpl; congruence. Qed.

Lemma not_nan_sign x : is_nan x = false -> exists s, sign x = Some s.
Proof.
  unfold sign. rewrite is_nan_spec.
  destruct (Prim2SF x) as [s|s| |s m e]; simpl; try discriminate; eauto.
Qed.

Lemma mul_sign x y sx sy :
  sign x = Some sx -> sign y = Some sy ->
  sign (x * y) =
    if (is_zero_sf (Prim2SF x) && is_inf_sf (Prim2SF y))
       || (is_inf_sf (Prim2SF x) && is_zero_sf (Prim2SF y))
    then None else Some (xorb sx sy).
Proof. unfold sign. rewrite mul_spec. apply SF.SFmul_sign. Qed.

Lemma div_sign x y sx sy :
  sign x = Some sx -> sign y = Some sy ->
  sign (x / y) =
    if (is_zero_sf (Prim2SF x) && is_zero_sf (Prim2SF y))
       || (is_inf_sf (Prim2SF x) && is_inf_sf (Prim2SF y))
    then None else Some (xorb sx sy).
Proof. unfold sign. rewrite div_spec. apply SF.SFdiv_sign. Qed.

Lemma sqrt_sign x : sign x = Some false -> sign (Math_sqrt x) = Some false.
Proof. unfold sign, Math_sqrt. rewrite sqrt_spec. apply SF.SFsqrt_sign. Qed.

Lemma sign_false_nonneg x : sign x = Some false -> (0 <=? x) = true.
Proof.
  unfold sign. rewrite leb_zero_spec.
  destruct (Prim2SF x) as [s|[]| |[] m e]; simpl; congruence.
Qed.

Lemma eqb_refl x : is_nan x = false -> (x =? x) = true.
Proof. unfold is_nan. now rewrite negb_false_iff. Qed.

(** A finite non-zero divisor: dividing a number by it gives a number. *)
Lemma div_finite_sign x y sx :
  sign x = Some sx -> isFinite y = true -> is_zero y = false ->
  exists sy, sign y = Some sy /\ sign (x / y) = Some (xorb sx sy).
Proof.
  intros Hx Hf Hz. rewrite isFinite_spec in Hf. rewrite is_zero_spec in Hz.
  assert (exists sy, sign y = Some sy) as [sy Hy].
  { unfold sign. destruct (Prim2SF y); simpl; try discriminate; eauto. }
  exists sy. split; [assumption|].
  rewrite (div_sign x y sx sy Hx Hy).
  destruct (Prim2SF x), (Prim2SF y); simpl in *; try discriminate; reflexivity.
Qed.

(** A finite non-zero factor: multiplying a number by it gives a number. *)
Lemma mul_finite_sign x y sx :
  sign x = Some sx -> isFinite y = true -> is_zero y = false ->
  exists sy, sign y = Some sy /\ sign (x * y) = Some (xorb sx sy)
             /\ sign (y * x) = Some (xorb sy sx).
Proof.
  intros Hx Hf Hz. rewrite isFinite_spec in Hf. rewrite is_zero_spec in Hz.
  assert (exists sy, sign y = Some sy) as [sy Hy].
  { unfold sign. destruct (Prim2SF y); simpl; try discriminate; eauto. }
  exists sy. split; [assumption|].
  rewrite (mul_sign x y sx sy Hx Hy), (mul_sign y x sy sx Hy Hx).
  destruct (Prim2SF x), (Prim2SF y); simpl in *; try discriminate; auto.
Qed.

Lemma finite_1000 : isFinite 1000 = true /\ is_zero 1000 = false /\ sign 1000 = Some false.
Proof. repeat split. Qed.

Lemma finite_2 : isFinite 2 = true /\ is_zero 2 = false /\ sign 2 = Some false.
Proof. repeat split. Qed.

(** [sqrt (max 0 x)] against [sqrt x]. *)
Lemma sqrt_max_nonneg x :
  (0 <=? x) = true -> (Math_sqrt (Math_max 0 x) =? Math_sqrt x) = true.
Proof.
  intros H. rewrite Math_max_zero.
  assert (Hn : is_nan x = false).
  { rewrite is_nan_spec. rewrite leb_zero_spec in H. destruct (Prim2SF x); congruence. }
  rewrite Hn. destruct (0 <? x) eqn:Hp.
  - apply eqb_refl. apply (sign_not_nan _ false). apply sqrt_sign.
    unfold sign. rewrite ltb_zero_spec in Hp.
    destruct (Prim2SF x) as [s|[]| |[] m e]; simpl; congruence.
  - unfold Math_sqrt. rewrite eqb_spec, !sqrt_spec.
    rewrite leb_zero_spec in H. rewrite ltb_zero_spec in Hp.
    change (Prim2SF 0) with (S754_zero false).
    destruct (Prim2SF x) as [s|[]| |[] m e]; try discriminate; reflexivity.
Qed.

Lemma sqrt_max_neg x : sign x = Some true -> Math_sqrt (Math_max 0 x) = 0.
Proof.
  intros H. rewrite Math_max_zero, (sign_not_nan x true H).
  assert (Hp : (0 <? x) = false).
  { rewrite ltb_zero_spec. unfold sign in H.
    destruct (Prim2SF x) as [s|[]| |[] m e]; simpl in H; congruence. }
  rewrite Hp. reflexivity.
Qed.

Lemma sqrt_max_not_nan x :
  is_nan x = false -> (0 <=? Math_sqrt (Math_max 0 x)) = true.
Proof.
  intros Hn. rewrite Math_max_zero, Hn. destruct (0 <? x) eqn:Hp.
  - apply sign_false_nonneg, sqrt_sign. unfold sign. rewrite ltb_zero_spec in Hp.
    destruct (Prim2SF x) as [s|[]| |[] m e]; simpl; congruence.
  - reflexivity.
Qed.

(** The argument of the square root, [2 * dpPa / rho]. *)
Lemma pitot_sign dpPa rho sd :
  sign dpPa = Some sd -> isFinite rho = true -> is_zero rho = false ->
  exists sr, sign rho = Some sr /\ sign (2 * dpPa / rho) = Some (xorb sd sr).
Proof.
  intros Hd Hf Hz.
  destruct finite_2 as (F2 & Z2 & _).
  destruct (mul_finite_sign dpPa 2 sd Hd F2 Z2) as (s2 & H2 & _ & Hm).
  destruct finite_2 as (_ & _ & S2). rewrite S2 in H2. injection H2 as <-.
  cbn [xorb] in Hm.
  destruct (div_finite_sign (2 * dpPa) rho sd Hm Hf Hz) as (sr & Hr & Hq).
  exists sr. split; assumption.
Qed.

Lemma pitot_nonneg dpPa rho :
  (0 <=? dpPa) = true -> isFinite rho = true -> (0 <? rho) = true ->
  (0 <=? 2 * dpPa / rho) = true.
Proof.
  intros Hd Hf Hp.
  rewrite leb_zero_spec in *. rewrite ltb_zero_spec in Hp. rewrite isFinite_spec in Hf.
  rewrite div_spec, mul_spec. change (Prim2SF 2) with (S754_finite false 4503599627370496 (-51)).
  destruct (Prim2SF rho) as [s|[]| |[] m e]; try discriminate.
  destruct (Prim2SF dpPa) as [s'|[]| |[] m' e']; try discriminate; try reflexivity.
  set (B := SF64mul _ _).
  assert (HB : sign_of B = Some false) by (apply SF.binary_round_aux_sign; lia).
  pose proof (SF.SFdiv_sign prec emax B (S754_finite false m e) false false HB eq_refl) as HX.
  fold SF64div in HX.
  cbn [is_zero_sf is_inf_sf] in HX. rewrite !andb_false_r in HX. cbn [orb xorb] in HX.
  destruct (SF64div B _) as [s|[]| |[] m1 e1]; simpl in HX; try discriminate; reflexivity.
Qed.

Lemma pitot_sign_neg dpPa rho :
  sign dpPa = Some true -> isFinite rho = true -> (0 <? rho) = true ->
  sign (2 * dpPa / rho) = Some true.
Proof.
  intros Hs Hf Hp.
  assert (Hz : is_zero rho = false).
  { rewrite is_zero_spec. rewrite ltb_zero_spec in Hp. destruct (Prim2SF rho); simpl in *; congruence. }
  destruct (pitot_sign dpPa rho true Hs Hf Hz) as (sr & Hr & Hq).
  assert (sr = false).
  { unfold sign in Hr. rewrite ltb_zero_spec in Hp.
    destruct (Prim2SF rho) as [s|[]| |[] m e]; simpl in Hr; congruence. }
  subst sr. exact Hq.
Qed.

Lemma ltb_zero_sign x : (x <? 0) = true -> sign x = Some true.
Proof.
  intros Hd. unfold sign. rewrite zero_ltb_spec in Hd.
  destruct (Prim2SF x) as [s|[]| |[] m e]; simpl; congruence.
Qed.

Lemma pitot_neg dpPa rho :
  (dpPa <? 0) = true -> isFinite rho = true -> (0 <? rho) = true ->
  sign (2 * dpPa / rho) = Some true.
Proof.
  intros Hd Hf Hp. apply pitot_sign_neg; auto. now apply ltb_zero_sign.
Qed.

(** ** Facts about the list operations *)

(** *** The sort *)

Section SortFacts.
Context {A : Type} (cmp : A -> A -> number).

Lemma insert_perm x l : Permutation (x :: l) (insert cmp x l).
Proof.
  induction l as [|y l IH]; simpl.
  - apply Permutation_refl.
  - destruct (0 <? cmp x y).
    + eapply perm_trans; [apply perm_swap|]. now apply perm_skip.
    + apply Permutation_refl.
Qed.

Lemma sort_perm l : Permutation l (sort cmp l).
Proof.
  induction l as [|x l IH]; simpl.
  - apply perm_nil.
  - eapply perm_trans; [apply perm_skip, IH | apply insert_perm].
Qed.

Lemma sort_length l : List.length (sort cmp l) = List.length l.
Proof. symmetry. apply Permutation_length, sort_perm. Qed.

Lemma sort_In x l : In x (sort cmp l) <-> In x l.
Proof.
  split; intros H.
  - eapply Permutation_in; [apply Permutation_sym, sort_perm | exact H].
  - eapply Permutation_in; [apply sort_perm | exact H].
Qed.

Lemma sort_Forall (P : A -> Prop) l : Forall P l -> Forall P (sort cmp l).
Proof.
  rewrite !Forall_forall. intros H x Hx. apply H. now apply sort_In.
Qed.

(** When the comparator is the sign of a difference of integer keys, on the
    elements satisfying [P], the result is ordered by key. *)
Variable key : A -> Z.
Variable P : A -> Prop.
Hypothesis cmp_key :
  forall a b, P a -> P b -> (0 <? cmp a b) = (key b <? key a)%Z.

Let key_le (a b : A) : Prop := (key a <= key b)%Z.

Lemma insert_key_sorted x l :
  P x -> Forall P l -> StronglySorted key_le l ->
  StronglySorted key_le (insert cmp x l).
Proof.
  intros Px. induction l as [|y l IH]; intros Pl Hs; simpl.
  - constructor; constructor.
  - apply Forall_cons_iff in Pl. destruct Pl as [Py Pl].
    apply StronglySorted_inv in Hs. destruct Hs as [Hs Hy].
    rewrite (cmp_key x y Px Py).
    destruct (key y <? key x)%Z eqn:E.
    + apply Z.ltb_lt in E. constructor; [now apply IH|].
      rewrite Forall_forall. intros z Hz.
      apply (Permutation_in z (Permutation_sym (insert_perm x l))) in Hz.
      destruct Hz as [<-|Hz].
      * unfold key_le. lia.
      * rewrite Forall_forall in Hy. now apply Hy.
    + apply Z.ltb_ge in E. constructor; [now constructor|].
      constructor; [exact E|].
      rewrite Forall_forall in *. intros z Hz. specialize (Hy z Hz).
      unfold key_le in *. lia.
Qed.

Lemma sort_key_sorted l : Forall P l -> StronglySorted key_le (sort cmp l).
Proof.
  induction l as [|x l IH]; intros Pl; simpl.
  - constructor.
  - apply Forall_cons_iff in Pl. destruct Pl as [Px Pl].
    apply insert_key_sorted; auto. now apply sort_Forall.
Qed.

End SortFacts.

Lemma StronglySorted_impl {A : Type} (R R' : A -> A -> Prop) (P : A -> Prop) l :
  (forall a b, P a -> P b -> R a b -> R' a b) ->
  Forall P l -> StronglySorted R l -> StronglySorted R' l.
Proof.
  intros HR. induction l as [|x l IH]; intros Pl Hs.
  - constructor.
  - apply Forall_cons_iff in Pl. destruct Pl as [Px Pl].
    apply StronglySorted_inv in Hs. destruct Hs as [Hs Hx].
    constructor; [now apply IH|].
    rewrite Forall_forall in *. intros z Hz. apply HR; auto.
Qed.

(** *** Indexed reads *)

Lemma at_index_map {A : Type} (q : A -> number) l i e :
  nth_error l i = Some e -> at_index (map q l) i = q e.
Proof.
  intros H. unfold at_index. apply nth_error_nth. now apply map_nth_error.
Qed.

Lemma nth_error_middle {A : Type} (pre : list A) x l :
  nth_error (pre ++ x :: l) (List.length pre) = Some x.
Proof. induction pre; simpl; auto. Qed.

Lemma mapi_from_map {A B : Type} (p : A -> number) (f : number -> nat -> B) (g : A -> B) l :
  forall i,
    (forall j e, nth_error l j = Some e -> f (p e) (i + j)%nat = g e) ->
    mapi_from f i (map p l) = map g l.
Proof.
  induction l as [|x l IH]; intros i H; simpl; [reflexivity|].
  f_equal.
  - rewrite <- (H 0%nat x eq_refl). f_equal. lia.
  - apply IH. intros j e Hj. rewrite <- (H (S j) e Hj). f_equal. lia.
Qed.

(** [r.map((ri, i) => F(ri, u[i]))] is a map over the rows. *)
Lemma mapi_rows {A B : Type} (p q : A -> number) (F : number -> number -> B) l :
  mapi (fun ri i => F ri (at_index (map q l) i)) (map p l) = map (fun e => F (p e) (q e)) l.
Proof.
  unfold mapi. apply mapi_from_map. intros j e Hj. simpl.
  now rewrite (at_index_map q l j e Hj).
Qed.

Lemma consecutive_cons {A : Type} (a b : A) l :
  consecutive (a :: b :: l) = (a, b) :: consecutive (b :: l).
Proof. reflexivity. Qed.

Lemma at_index_last (l : list number) :
  at_index l (List.length l - 1) = last l nan.
Proof.
  unfold at_index. induction l as [|x [|y l] IH]; try reflexivity.
  simpl List.length in *. replace (S (S (List.length l)) - 1)%nat with (S (List.length l)) by lia.
  replace (S (List.length l) - 1)%nat with (List.length l) in IH by lia.
  exact IH.
Qed.

(** *** The trapezoid loop *)

Lemma trapz_from (pf : ComputedRow -> number) rows :
  forall pre area,
    trapz (map cr_r (pre ++ rows)) (map pf (pre ++ rows))
      (List.length pre) (List.length rows - 1) area
    = fold_left (fun area '(a, b) => area + 0.5 * (pf a + pf b) * (cr_r b - cr_r a))
        (consecutive rows) area.
Proof.
  induction rows as [|a [|b rest] IH]; intros pre area; try reflexivity.
  rewrite consecutive_cons.
  replace (List.length (a :: b :: rest) - 1)%nat with (S (List.length (b :: rest) - 1))
    by (simpl; lia).
  cbn [trapz fold_left].
  rewrite !(at_index_map _ _ _ a (nth_error_middle pre a (b :: rest))).
  assert (Hb : nth_error (pre ++ a :: b :: rest) (S (List.length pre)) = Some b).
  { replace (pre ++ a :: b :: rest) with ((pre ++ [a]) ++ b :: rest)
      by (rewrite <- app_assoc; reflexivity).
    replace (S (List.length pre)) with (List.length (pre ++ [a]))
      by (rewrite length_app; simpl; lia).
    apply nth_error_middle. }
  rewrite !(at_index_map _ _ _ b Hb).
  specialize (IH (pre ++ [a])).
  rewrite <- app_assoc in IH. simpl app in IH.
  rewrite length_app in IH. simpl List.length in IH.
  replace (List.length pre + 1)%nat with (S (List.length pre)) in IH by lia.
  apply IH.
Qed.

Lemma trapz_rows (pf : ComputedRow -> number) rows :
  trapz (map cr_r rows) (map pf rows) 0 (List.length (map cr_r rows) - 1) 0
  = trapezoid pf rows.
Proof. rewrite length_map. exact (trapz_from pf rows [] 0). Qed.

(** *** The two scans of the half-radius solver *)

Section ScanFacts.
Variable Math_log : number -> number.

Lemma scan_lin_from rows target :
  forall pre,
    scan_lin (map cr_r (pre ++ rows)) (map cr_u (pre ++ rows)) target
      (List.length pre) (List.length rows - 1)
    = match first_crossing cr_u target rows with
      | Some (a, b) =>
          Some (cr_r a + (target - cr_u a) / (cr_u b - cr_u a) * (cr_r b - cr_r a))
      | None => None
      end.
Proof.
  unfold first_crossing.
  induction rows as [|a [|b rest] IH]; intros pre; try reflexivity.
  rewrite consecutive_cons.
  replace (List.length (a :: b :: rest) - 1)%nat with (S (List.length (b :: rest) - 1))
    by (simpl; lia).
  cbn [scan_lin find fst snd].
  rewrite !(at_index_map _ _ _ a (nth_error_middle pre a (b :: rest))).
  assert (Hb : nth_error (pre ++ a :: b :: rest) (S (List.length pre)) = Some b).
  { replace (pre ++ a :: b :: rest) with ((pre ++ [a]) ++ b :: rest)
      by (rewrite <- app_assoc; reflexivity).
    replace (S (List.length pre)) with (List.length (pre ++ [a]))
      by (rewrite length_app; simpl; lia).
    apply nth_error_middle. }
  rewrite !(at_index_map _ _ _ b Hb).
  unfold brackets at 1.
  destruct ((target <=? cr_u a) && (cr_u b <=? target)); [reflexivity|].
  specialize (IH (pre ++ [a])).
  rewrite <- app_assoc in IH. simpl app in IH.
  rewrite length_app in IH. simpl List.length in IH.
  replace (List.length pre + 1)%nat with (S (List.length pre)) in IH by lia.
  apply IH.
Qed.

Lemma scan_lin_rows rows target :
  scan_lin (map cr_r rows) (map cr_u rows) target 0 (List.length (map cr_u rows) - 1)
  = match first_crossing cr_u target rows with
    | Some (a, b) =>
        Some (cr_r a + (target - cr_u a) / (cr_u b - cr_u a) * (cr_r b - cr_r a))
    | None => None
    end.
Proof. rewrite length_map. exact (scan_lin_from rows target []). Qed.

Lemma filter_map_swap {A B : Type} (g : A -> B) (keep : B -> bool) l :
  filter keep (map g l) = map g (filter (fun x => keep (g x)) l).
Proof.
  induction l as [|x l IH]; simpl; [reflexivity|].
  destruct (keep (g x)); simpl; now rewrite IH.
Qed.

Lemma map_filter_ext {A B : Type} (g g' : A -> B) (keep keep' : A -> bool) l :
  (forall x, keep x = keep' x) ->
  (forall x, keep' x = true -> g x = g' x) ->
  map g (filter keep l) = map g' (filter keep' l).
Proof.
  intros Hk Hg. induction l as [|x l IH]; simpl; [reflexivity|].
  rewrite Hk. destruct (keep' x) eqn:E; simpl; [|exact IH].
  now rewrite IH, (Hg x E).
Qed.

(** The points of the [ln u] against [r^2] plot are the rows with [u > 0]
    and a finite [ln u]. *)
Lemma transform_rows rows :
  transform Math_log (map cr_r rows) (map cr_u rows)
  = map (fun row => {| r2 := cr_r row * cr_r row; lnu := Math_log (cr_u row) |})
      (filter (finite_log_velocity Math_log) rows).
Proof.
  unfold transform.
  rewrite (mapi_rows cr_r cr_u
             (fun ri ui => {| r2 := ri * ri;
                              lnu := if 0 <? ui then Math_log ui else neg_infinity |})).
  rewrite filter_map_swap.
  apply map_filter_ext; intros row; unfold finite_log_velocity; cbn [lnu].
  - destruct (0 <? cr_u row); reflexivity.
  - intros H. apply andb_true_iff in H. destruct H as [H _]. now rewrite H.
Qed.

Lemma scan_log_points (l : list ComputedRow) target :
  scan_log (map (fun row => {| r2 := cr_r row * cr_r row; lnu := Math_log (cr_u row) |}) l)
    target
  = match first_crossing snd target
            (map (fun row => (cr_r row * cr_r row, Math_log (cr_u row))) l) with
    | Some (p1, p2) =>
        Some (Math_sqrt (fst p1 + (target - snd p1) / (snd p2 - snd p1) * (fst p2 - fst p1)))
    | None => None
    end.
Proof.
  unfold first_crossing.
  induction l as [|a [|b rest] IH]; try reflexivity.
  cbn [map]. rewrite consecutive_cons.
  cbn [scan_log find fst snd lnu r2]. unfold brackets at 1.
  destruct ((target <=? Math_log (cr_u a)) && (Math_log (cr_u b) <=? target));
    [reflexivity|].
  exact IH.
Qed.

(** The solver on the rows of a station, guard included. *)
Lemma interpolateRhalf_rows rows Uc :
  interpolateRhalf Math_log (map cr_r rows) (map cr_u rows) Uc
  = if Uc <=? 0 then nan
    else rhalf_by_scans Math_log (finite_log_velocity Math_log) rows Uc.
Proof.
  unfold interpolateRhalf, rhalf_by_scans, log_points.
  destruct (Uc <=? 0); [reflexivity|].
  rewrite transform_rows, scan_log_points, scan_lin_rows.
  destruct (first_crossing snd _ _) as [[p1 p2]|]; [reflexivity|].
  destruct (first_crossing cr_u _ rows) as [[a b]|]; reflexivity.
Qed.

End ScanFacts.

(** ** The station record, field by field *)

Section StationFacts.
Variables Math_log Math_exp : number -> number.

Lemma parseRows_length rows :
  List.length (parseRows rows) = List.length (filter valid_row rows).
Proof.
  unfold parseRows. rewrite filter_map_swap, length_map. reflexivity.
Qed.

Lemma parseRows_finite rows p :
  In p (parseRows rows) -> isFinite (rmm p) = true /\ isFinite (dpIn p) = true.
Proof.
  unfold parseRows. rewrite filter_In. intros [_ H]. now apply andb_true_iff in H.
Qed.

Lemma station_rows_length rho k st :
  List.length (station_rows rho k st) = List.length (parseRows (st_rows st)).
Proof. unfold station_rows. now rewrite sort_length, length_map. Qed.

Lemma station_rows_In rho k st row :
  In row (station_rows rho k st) ->
  exists p, In p (parseRows (st_rows st)) /\ row = computeRow rho k p.
Proof.
  unfold station_rows. rewrite sort_In, in_map_iff.
  intros (p & <- & Hp). eauto.
Qed.

(** With two rows or more the centerline estimate logs no warning. *)
Lemma centerline_two r1 r2 r u1 u2 u trace :
  centerline (r1 :: r2 :: r) (u1 :: u2 :: u) trace
  = (if r1 =? 0 then u1
     else if Math_abs (r1 * r1 - r2 * r2) <? 1e-12
          then u1 + (u2 - u1) * (0 - r1) / (r2 - r1)
          else u1 - (u1 - u2) / (r1 * r1 - r2 * r2) * (r1 * r1),
     trace).
Proof.
  unfold centerline. cbn [at_index nth List.length Nat.leb].
  destruct (r1 =? 0); [reflexivity|].
  destruct (Math_abs (r1 * r1 - r2 * r2) <? 1e-12); reflexivity.
Qed.

Lemma computeStation_Some rho D k st cs :
  computeStation Math_log Math_exp rho D k st = Some cs ->
  let rows := station_rows rho k st in
  let r := map cr_r rows in
  let u := map cr_u rows in
  let tr1 := checkRows rows mkTrace in
  let Uc := fst (centerline r u tr1) in
  let tr2 := snd (centerline r u tr1) in
  let v := interpolateRhalf Math_log r u Uc in
  let rHalf := if isFinite v then v else nan in
  let tr3 := if isFinite v then tr2 else pushWarn tr2 No_crossing in
  let B := Math_log 2 / (rHalf * rHalf) in
  let r_n := last r nan in
  let mdot_trapz := 2 * Math_PI * trapezoid (mass_integrand rho) rows in
  let I_trapz := 2 * Math_PI * trapezoid (momentum_integrand rho) rows in
  let resolved := isFinite rHalf && (0 <? rHalf) in
  isFinite (parseFloat (st_xd st)) = true
  /\ (2 <= List.length (parseRows (st_rows st)))%nat
  /\ cs_id cs = st_id st
  /\ cs_xd cs = parseFloat (st_xd st)
  /\ cs_rho cs = rho
  /\ cs_unitIsKPa cs = k
  /\ cs_rows cs = rows
  /\ cs_Uc cs = Uc
  /\ cs_rHalf cs = rHalf
  /\ cs_mdot cs =
       (if tail_applies Uc rHalf
        then mdot_trapz + (Math_PI * rho * Uc / B) * Math_exp (- B * r_n * r_n)
        else mdot_trapz)
  /\ cs_I cs =
       (if tail_applies Uc rHalf
        then I_trapz + (Math_PI * rho * Uc * Uc / (2 * B)) * Math_exp (-2 * B * r_n * r_n)
        else I_trapz)
  /\ cs_trace cs = (if tail_applies Uc rHalf then tr3 else pushWarn tr3 Tail_skipped)
  /\ cs_collapse cs = (if resolved then map (collapse_point Uc rHalf) rows else [])
  /\ cs_rmse cs =
       (if resolved
        then rmse_of Math_log Math_exp (map (collapse_point Uc rHalf) rows)
        else nan).
Proof.
  unfold computeStation. fold (station_rows rho k st).
  destruct (isFinite (parseFloat (st_xd st))) eqn:Hxd; cbn [negb]; [|discriminate].
  destruct (List.length (parseRows (st_rows st)) <? 2)%nat eqn:Hlen; [discriminate|].
  apply Nat.ltb_ge in Hlen.
  pose proof (station_rows_length rho k st) as Hrl.
  cbv zeta.
  set (rows := station_rows rho k st) in *.
  assert (Hpos : (0 <? List.length (map cr_r rows))%nat = true).
  { rewrite length_map. apply Nat.ltb_lt. lia. }
  rewrite Hpos.
  rewrite (mapi_rows cr_r cr_u (fun ri ui => rho * ui * ri)).
  rewrite (mapi_rows cr_r cr_u (fun ri ui => rho * ui * ui * ri)).
  fold (mass_integrand rho). fold (momentum_integrand rho).
  rewrite !trapz_rows, at_index_last.
  destruct (centerline (map cr_r rows) (map cr_u rows) (checkRows rows mkTrace))
    as [Uc tr2] eqn:HUc.
  cbn [fst snd].
  set (v := interpolateRhalf Math_log (map cr_r rows) (map cr_u rows) Uc).
  assert (Hcol : forall rHalf,
             mapi (fun ri i => {| xr := ri / rHalf; ur := at_index (map cr_u rows) i / Uc |})
               (map cr_r rows)
             = map (collapse_point Uc rHalf) rows).
  { intros rHalf.
    exact (mapi_rows cr_r cr_u (fun ri ui => {| xr := ri / rHalf; ur := ui / Uc |}) rows). }
  assert (Hlen' : forall Uc' rHalf,
             (0 <? List.length (map (collapse_point Uc' rHalf) rows))%nat = true).
  { intros. rewrite length_map. apply Nat.ltb_lt. lia. }
  unfold tail_applies.
  destruct (isFinite v) eqn:Hv; cbn [negb]; cbv iota; rewrite ?andb_true_r.
  - destruct (isFinite Uc && isFinite v && (0 <? v)) eqn:Ht;
      destruct (isFinite v && (0 <? v)) eqn:Hr;
      intros H; injection H as <-;
      cbn [cs_id cs_xd cs_rho cs_unitIsKPa cs_rows cs_Uc cs_rHalf cs_mdot cs_I cs_trace
           cs_collapse cs_rmse];
      rewrite ?Hcol, ?Hlen'; repeat split; auto.
  - destruct (isFinite Uc && isFinite nan && (0 <? nan)) eqn:Ht;
      destruct (isFinite nan && (0 <? nan)) eqn:Hr;
      intros H; injection H as <-;
      cbn [cs_id cs_xd cs_rho cs_unitIsKPa cs_rows cs_Uc cs_rHalf cs_mdot cs_I cs_trace
           cs_collapse cs_rmse];
      rewrite ?Hcol, ?Hlen'; repeat split; auto.
Qed.

End StationFacts.

(** ** Rows, order and warnings of a station *)

Section RowFacts.
Variables Math_log Math_exp : number -> number.

Lemma finite_sign x : isFinite x = true -> exists s, sign x = Some s.
Proof.
  rewrite isFinite_spec. unfold sign.
  destruct (Prim2SF x) as [s|s| |s m e]; simpl; try discriminate; eauto.
Qed.

(** Dividing a finite number by 1000 gives a number. *)
Lemma mm2m_not_nan x : isFinite x = true -> is_nan (mm2m x) = false.
Proof.
  intros H. destruct (finite_sign x H) as [s Hs].
  destruct finite_1000 as (F & Z & _).
  destruct (div_finite_sign x 1000 s Hs F Z) as (sy & _ & Hq).
  exact (sign_not_nan _ _ Hq).
Qed.

Lemma station_rows_radius rho k st :
  Forall (fun row => is_nan (cr_r row) = false) (station_rows rho k st).
Proof.
  rewrite Forall_forall. intros row Hrow.
  destruct (station_rows_In rho k st row Hrow) as (p & Hp & ->).
  apply parseRows_finite in Hp. destruct Hp as [Hr _].
  cbn [computeRow cr_r]. now apply mm2m_not_nan.
Qed.

(** The rows of a station are in ascending order of radius. *)
Lemma station_rows_sorted rho k st :
  StronglySorted radius_le (station_rows rho k st).
Proof.
  pose proof (station_rows_radius rho k st) as Hn.
  unfold station_rows in *.
  set (P := fun row : ComputedRow => is_nan (cr_r row) = false) in *.
  set (l := map (computeRow rho k) (parseRows (st_rows st))) in *.
  assert (Hl : Forall P l).
  { rewrite Forall_forall in *. intros row Hrow. apply Hn. now apply sort_In. }
  pose proof (sort_key_sorted (fun a b => cr_r a - cr_r b)
                (fun row => value (cr_r row)) P) as Hs.
  cbv zeta in Hs.
  apply (StronglySorted_impl (fun a b => (value (cr_r a) <= value (cr_r b))%Z) radius_le P).
  - intros a b Pa Pb Hab. unfold radius_le. rewrite (leb_value _ _ Pa Pb).
    now apply Z.leb_le.
  - exact Hn.
  - apply Hs; [|exact Hl].
    intros a b Pa Pb. rewrite sub_pos. apply (ltb_value _ _ Pb Pa).
Qed.

(** The last row of a station has the largest radius. *)
Lemma sorted_last_max rows :
  StronglySorted radius_le rows ->
  Forall (fun row => is_nan (cr_r row) = false) rows ->
  Forall (fun row => (cr_r row <=? last (map cr_r rows) nan) = true) rows.
Proof.
  induction rows as [|a [|b rest] IH]; intros Hs Hn.
  - constructor.
  - constructor; [|constructor]. cbn [map last].
    apply Forall_inv in Hn. rewrite (leb_value _ _ Hn Hn). apply Z.leb_refl.
  - apply StronglySorted_inv in Hs. destruct Hs as [Hs Ha].
    pose proof (Forall_inv_tail Hn) as Hn'.
    specialize (IH Hs Hn').
    change (last (map cr_r (a :: b :: rest)) nan) with (last (map cr_r (b :: rest)) nan).
    constructor; [|exact IH].
    pose proof (Forall_inv Ha) as Hab. pose proof (Forall_inv IH) as Hb.
    pose proof (Forall_inv Hn) as Na. pose proof (Forall_inv Hn') as Nb.
    unfold radius_le in Hab. cbv beta in Hb, Na, Nb.
    assert (Nl : is_nan (last (map cr_r (b :: rest)) nan) = false).
    { exact (proj2 (leb_not_nan _ _ Hb)). }
    rewrite (leb_value _ _ Na Nb) in Hab. rewrite (leb_value _ _ Nb Nl) in Hb.
    rewrite (leb_value _ _ Na Nl). apply Z.leb_le in Hab, Hb. apply Z.leb_le. lia.
Qed.

Lemma checkRows_step prev cur rest trace :
  checkRows (prev :: cur :: rest) trace
  = checkRows (cur :: rest)
      (let t1 := if cr_r cur =? cr_r prev
                 then pushWarn trace (Duplicate_r (cr_r cur)) else trace in
       if cr_u prev <? cr_u cur
       then pushWarn t1 (Non_monotonic (cr_r cur) (cr_u prev) (cr_u cur)) else t1).
Proof. reflexivity. Qed.

Lemma checkRows_warnings rows :
  forall trace, exists ws,
    Forall profile_warning ws
    /\ warnings (checkRows rows trace) = warnings trace ++ ws.
Proof.
  induction rows as [|prev [|cur rest] IH]; intros trace.
  - exists []. split; [constructor | now rewrite app_nil_r].
  - exists []. split; [constructor | now rewrite app_nil_r].
  - rewrite checkRows_step. cbv zeta.
    set (t1 := if cr_r cur =? cr_r prev then _ else trace).
    set (t2 := if cr_u prev <? cr_u cur then _ else t1).
    destruct (IH t2) as (ws & Hws & E).
    assert (H1 : exists w1, Forall profile_warning w1 /\ warnings t1 = warnings trace ++ w1).
    { unfold t1. destruct (cr_r cur =? cr_r prev).
      - eexists [_]. split; [|reflexivity]. repeat constructor.
      - exists []. split; [constructor | now rewrite app_nil_r]. }
    destruct H1 as (w1 & Hw1 & E1).
    assert (H2 : exists w2, Forall profile_warning w2 /\ warnings t2 = warnings t1 ++ w2).
    { unfold t2. destruct (cr_u prev <? cr_u cur).
      - eexists [_]. split; [|reflexivity]. repeat constructor.
      - exists []. split; [constructor | now rewrite app_nil_r]. }
    destruct H2 as (w2 & Hw2 & E2).
    exists (w1 ++ w2 ++ ws). split.
    + repeat (apply Forall_app; split); assumption.
    + rewrite E, E2, E1, <- !app_assoc. reflexivity.
Qed.

(** Every warning of a computed station: the profile checks first, then the
    unresolved half-radius, then the skipped tail correction. *)
Lemma station_warnings rho D k st cs :
  computeStation Math_log Math_exp rho D k st = Some cs ->
  let rows := cs_rows cs in
  let v := interpolateRhalf Math_log (map cr_r rows) (map cr_u rows) (cs_Uc cs) in
  exists ws,
    Forall profile_warning ws
    /\ warnings (cs_trace cs)
       = ws ++ (if isFinite v then [] else [No_crossing])
            ++ (if tail_applies (cs_Uc cs) (cs_rHalf cs) then [] else [Tail_skipped]).
Proof.
  intros H. apply computeStation_Some in H. cbv zeta in H.
  destruct H as (_ & Hlen & _ & _ & _ & _ & Hrows & HUc & HrH & _ & _ & Htr & _).
  cbv zeta. rewrite Hrows, HUc, HrH, Htr.
  pose proof (station_rows_length rho k st) as Hl.
  set (rows := station_rows rho k st) in *.
  destruct rows as [|row1 [|row2 rest]]; simpl in Hl; try lia.
  cbn [map]. rewrite centerline_two. cbn [fst snd].
  destruct (checkRows_warnings (row1 :: row2 :: rest) mkTrace) as (ws & Hws & E).
  exists ws. split; [assumption|].
  set (Uc := if cr_r row1 =? 0 then _ else _).
  set (v := interpolateRhalf _ _ _ _).
  destruct (isFinite v); destruct (tail_applies Uc _);
    cbn [pushWarn warnings]; rewrite E; cbn [mkTrace warnings app];
    rewrite ?app_nil_r, <- ?app_assoc; reflexivity.
Qed.

Lemma computeStation_None rho D k st :
  computeStation Math_log Math_exp rho D k st = None <-> usable st = false.
Proof.
  unfold usable. rewrite <- parseRows_length.
  split.
  - intros H.
    destruct (isFinite (parseFloat (st_xd st))) eqn:Hxd; [|reflexivity].
    destruct (2 <=? List.length (parseRows (st_rows st)))%nat eqn:Hlen; [|reflexivity].
    exfalso. apply Nat.leb_le in Hlen.
    revert H. unfold computeStation. rewrite Hxd. cbn [negb].
    replace (List.length (parseRows (st_rows st)) <? 2)%nat with false
      by (symmetry; apply Nat.ltb_ge; lia).
    cbv zeta.
    destruct (centerline _ _ _) as [Uc tr2].
    destruct (negb _); destruct (_ && _ && _ && _); discriminate.
  - intros H. unfold computeStation.
    destruct (isFinite (parseFloat (st_xd st))); cbn [negb]; [|reflexivity].
    cbn [andb] in H. apply Nat.leb_gt in H.
    replace (List.length (parseRows (st_rows st)) <? 2)%nat with true
      by (symmetry; apply Nat.ltb_lt; lia).
    reflexivity.
Qed.

Lemma mapNotNull_filter {A B : Type} (f : A -> option B) (keep : A -> bool) l :
  (forall x, f x = None <-> keep x = false) ->
  Forall2 (fun x y => f x = Some y) (filter keep l) (mapNotNull f l).
Proof.
  intros H. induction l as [|x l IH]; simpl; [constructor|].
  destruct (f x) as [y|] eqn:E.
  - destruct (keep x) eqn:K.
    + constructor; assumption.
    + apply H in K. congruence.
  - apply H in E. rewrite E. exact IH.
Qed.

Lemma mapNotNull_In {A B : Type} (f : A -> option B) l y :
  In y (mapNotNull f l) -> exists x, In x l /\ f x = Some y.
Proof.
  induction l as [|x l IH]; simpl; [tauto|].
  destruct (f x) as [y'|] eqn:E.
  - intros [<-|H]; [eauto|]. destruct (IH H) as (x' & Hx & Hf). eauto.
  - intros H. destruct (IH H) as (x' & Hx & Hf). eauto.
Qed.

End RowFacts.

(** ** Rounding, read over the real numbers *)

Module Rounding.
Local Open Scope R_scope.

(** [2^e] for an integer [e]. *)
Local Abbreviation bpow := (powerRZ 2).

Lemma bpow_pos e : 0 < bpow e.
Proof. apply powerRZ_lt. lra. Qed.

Lemma bpow_add a b : bpow (a + b) = bpow a * bpow b.
Proof. apply powerRZ_add. lra. Qed.

Lemma bpow_nonneg_IZR n : (0 <= n)%Z -> bpow n = IZR (2 ^ n).
Proof.
  intros Hn. destruct n as [|p|p]; [reflexivity | | lia].
  symmetry. exact (Zpower_pos_powerRZ 2 p).
Qed.

Lemma bpow_ge_1 n : (0 <= n)%Z -> 1 <= bpow n.
Proof.
  intros Hn. rewrite (bpow_nonneg_IZR n Hn). apply IZR_le.
  pose proof (Z.pow_pos_nonneg 2 n ltac:(lia) Hn). lia.
Qed.

Lemma bpow_le a b : (a <= b)%Z -> bpow a <= bpow b.
Proof.
  intros H. replace b with (a + (b - a))%Z by lia. rewrite bpow_add.
  pose proof (bpow_pos a). pose proof (bpow_ge_1 (b - a) ltac:(lia)). nra.
Qed.

(** A right shift by [n] binary places, on reals. *)
Lemma shiftr_real m n :
  (0 <= m)%Z -> (0 <= n)%Z ->
  IZR (Z.shiftr m n) * bpow n <= IZR m
  /\ IZR m + 1 <= (IZR (Z.shiftr m n) + 1) * bpow n.
Proof.
  intros Hm Hn. rewrite Z.shiftr_div_pow2 by assumption.
  rewrite (bpow_nonneg_IZR n Hn).
  pose proof (Z.pow_pos_nonneg 2 n ltac:(lia) Hn) as Hp.
  pose proof (Z.mul_div_le m (2 ^ n) Hp) as H1.
  pose proof (Z.mul_succ_div_gt m (2 ^ n) Hp) as H2.
  rewrite <- !(plus_IZR _ 1), <- !mult_IZR. split; apply IZR_le; lia.
Qed.

Section Faithful.
Variables prec emax : Z.

(** The result of rounding is within two units in its last place of any
    real number that the mantissa and its successor enclose. *)
Lemma binary_round_aux_close s m e l s' m' e' (v : R) :
  (0 <= m)%Z ->
  IZR m * bpow e <= v <= (IZR m + 1) * bpow e ->
  binary_round_aux prec emax s m e l = S754_finite s' m' e' ->
  s' = s /\ Rabs (IZR (Zpos m') * bpow e' - v) <= 2 * bpow e'.
Proof.
  intros Hm Hv. unfold binary_round_aux.
  destruct (SF.shr_fexp_spec prec emax m e l Hm) as [H1 E1].
  destruct (shr_fexp prec emax m e l) as [mrs1 e1]. cbn [fst snd] in H1, E1.
  set (n := Z.max 0 (fexp prec emax (Zdigits2 m + e) - e)) in *.
  pose proof (SF.round_nearest_even_bounds (shr_m mrs1) (loc_of_shr_record mrs1)) as Hr.
  set (m2 := round_nearest_even (shr_m mrs1) (loc_of_shr_record mrs1)) in *.
  rewrite H1 in Hr.
  assert (Hm1 : (0 <= Z.shiftr m n)%Z) by (now apply Z.shiftr_nonneg).
  assert (Hm2 : (0 <= m2)%Z) by lia.
  destruct (SF.shr_fexp_spec prec emax m2 e1 loc_Exact Hm2) as [H2 E2].
  destruct (shr_fexp prec emax m2 e1 loc_Exact) as [mrs3 e3]. cbn [fst snd] in H2, E2.
  set (n2 := Z.max 0 (fexp prec emax (Zdigits2 m2 + e1) - e1)) in *.
  destruct (shr_m mrs3) as [|m3|m3] eqn:E3; try discriminate.
  destruct (e3 <=? emax - prec)%Z; [|discriminate].
  intros E. injection E as <- <- <-. split; [reflexivity|].
  pose proof (shiftr_real m n Hm ltac:(lia)) as [Ha Hb].
  pose proof (shiftr_real m2 n2 Hm2 ltac:(lia)) as [Hc Hd].
  rewrite <- H2 in Hc, Hd.
  assert (Hr1 : IZR (Z.shiftr m n) <= IZR m2 <= IZR (Z.shiftr m n) + 1).
  { rewrite <- (plus_IZR _ 1). split; apply IZR_le; lia. }
  rewrite E2, E1, !bpow_add.
  pose proof (bpow_pos e) as Pe.
  pose proof (bpow_ge_1 n ltac:(lia)) as Pn.
  pose proof (bpow_ge_1 n2 ltac:(lia)) as Pn2.
  set (A := bpow e) in *. set (N := bpow n) in *. set (N2 := bpow n2) in *.
  set (x1 := IZR (Z.shiftr m n)) in *. set (x2 := IZR m2) in *.
  set (x3 := IZR (Z.pos m3)) in *. set (x := IZR m) in *.
  assert (Hv1 : x1 * (A * N) <= v).
  { apply Rle_trans with (x * A); [|lra].
    replace (x1 * (A * N)) with (x1 * N * A) by ring.
    apply Rmult_le_compat_r; lra. }
  assert (Hv2 : v <= (x1 + 1) * (A * N)).
  { apply Rle_trans with ((x + 1) * A); [lra|].
    replace ((x1 + 1) * (A * N)) with ((x1 + 1) * N * A) by ring.
    apply Rmult_le_compat_r; lra. }
  assert (HAN : 0 < A * N) by (apply Rmult_lt_0_compat; lra).
  assert (Hx3 : x3 * (A * N * N2) <= x2 * (A * N)).
  { replace (x3 * (A * N * N2)) with (x3 * N2 * (A * N)) by ring.
    apply Rmult_le_compat_r; lra. }
  assert (Hx4 : x2 * (A * N) <= (x3 + 1) * (A * N * N2)).
  { replace ((x3 + 1) * (A * N * N2)) with ((x3 + 1) * N2 * (A * N)) by ring.
    apply Rmult_le_compat_r; lra. }
  assert (HN2 : A * N <= A * N * N2).
  { replace (A * N) with (A * N * 1) at 1 by ring.
    apply Rmult_le_compat_l; lra. }
  assert (Hx12 : x1 * (A * N) <= x2 * (A * N) <= (x1 + 1) * (A * N)).
  { split; apply Rmult_le_compat_r; lra. }
  apply Rabs_le. split; lra.
Qed.

(** *** Products, quotients and square roots *)

Lemma SFmul_close sx mx ex sy my ey s' m' e' :
  SFmul prec emax (S754_finite sx mx ex) (S754_finite sy my ey)
  = S754_finite s' m' e' ->
  s' = xorb sx sy
  /\ Rabs (IZR (Zpos m') * bpow e' - (IZR (Zpos mx) * bpow ex) * (IZR (Zpos my) * bpow ey))
     <= 2 * bpow e'.
Proof.
  cbn [SFmul]. apply binary_round_aux_close; [lia|].
  rewrite Pos2Z.inj_mul, mult_IZR, bpow_add.
  pose proof (bpow_pos ex). pose proof (bpow_pos ey).
  assert (0 < bpow ex * bpow ey) by (apply Rmult_lt_0_compat; lra).
  split; [right; ring|]. nra.
Qed.

Lemma SFdiv_close sx mx ex sy my ey s' m' e' :
  SFdiv prec emax (S754_finite sx mx ex) (S754_finite sy my ey)
  = S754_finite s' m' e' ->
  s' = xorb sx sy
  /\ Rabs (IZR (Zpos m') * bpow e' - (IZR (Zpos mx) * bpow ex) / (IZR (Zpos my) * bpow ey))
     <= 2 * bpow e'.
Proof.
  cbn [SFdiv]. unfold SFdiv_core_binary.
  set (e0 := Z.min _ _).
  assert (Hs : (0 <= ex - ey - e0)%Z) by (unfold e0; lia).
  set (m0 := match (ex - ey - e0)%Z with Z0 => _ | Zpos _ => _ | Zneg _ => _ end).
  assert (Hm0 : m0 = (Zpos mx * 2 ^ (ex - ey - e0))%Z).
  { unfold m0. destruct (ex - ey - e0)%Z as [|p|p] eqn:E; [lia | | lia].
    now rewrite Z.shiftl_mul_pow2 by lia. }
  pose proof (Z_div_mod m0 (Zpos my) ltac:(lia)) as Hdm.
  destruct (Z.div_eucl m0 (Zpos my)) as [q r]. destruct Hdm as [Hq Hr].
  assert (Hp : (0 < 2 ^ (ex - ey - e0))%Z) by (apply Z.pow_pos_nonneg; lia).
  assert (Hq0 : (0 <= q)%Z) by nia.
  apply binary_round_aux_close; [exact Hq0|].
  assert (Em : IZR m0 = IZR (Zpos mx) * bpow (ex - ey - e0)).
  { rewrite Hm0, mult_IZR, (bpow_nonneg_IZR _ Hs). reflexivity. }
  assert (Ex : bpow ex = bpow (ex - ey - e0) * bpow e0 * bpow ey).
  { rewrite <- !bpow_add. f_equal. lia. }
  pose proof (bpow_pos e0) as P0. pose proof (bpow_pos ey) as Py.
  assert (Hy : 0 < IZR (Zpos my)) by (apply IZR_lt; lia).
  assert (Ev : IZR (Zpos mx) * bpow ex / (IZR (Zpos my) * bpow ey)
               = IZR m0 / IZR (Zpos my) * bpow e0).
  { rewrite Em, Ex. field. split; lra. }
  rewrite Ev.
  assert (Hq1 : IZR q * IZR (Zpos my) <= IZR m0).
  { rewrite <- mult_IZR. apply IZR_le. nia. }
  assert (Hq2 : IZR m0 <= (IZR q + 1) * IZR (Zpos my)).
  { rewrite <- (plus_IZR _ 1), <- mult_IZR. apply IZR_le. nia. }
  assert (Hq3 : IZR q <= IZR m0 / IZR (Zpos my)).
  { apply Rmult_le_reg_r with (IZR (Zpos my)); [exact Hy|].
    unfold Rdiv. rewrite Rmult_assoc, Rinv_l by lra. lra. }
  assert (Hq4 : IZR m0 / IZR (Zpos my) <= IZR q + 1).
  { apply Rmult_le_reg_r with (IZR (Zpos my)); [exact Hy|].
    unfold Rdiv. rewrite Rmult_assoc, Rinv_l by lra. lra. }
  split; apply Rmult_le_compat_r; lra.
Qed.

Lemma SFsqrt_close mx ex s' m' e' :
  SFsqrt prec emax (S754_finite false mx ex) = S754_finite s' m' e' ->
  s' = false
  /\ Rabs (IZR (Zpos m') * bpow e' - R_sqrt.sqrt (IZR (Zpos mx) * bpow ex)) <= 2 * bpow e'.
Proof.
  cbn [SFsqrt]. unfold SFsqrt_core_binary.
  set (e0 := Z.min _ _).
  assert (Hs : (0 <= ex - 2 * e0)%Z).
  { assert (e0 <= Z.div2 ex)%Z by (unfold e0; lia).
    pose proof (Z.div2_odd ex). destruct (Z.odd ex); cbn [Z.b2z] in *; lia. }
  set (m0 := match (ex - 2 * e0)%Z with Z0 => _ | Zpos _ => _ | Zneg _ => _ end).
  assert (Hm0 : m0 = (Zpos mx * 2 ^ (ex - 2 * e0))%Z).
  { unfold m0. destruct (ex - 2 * e0)%Z as [|p|p] eqn:E; [lia | | lia].
    now rewrite Z.shiftl_mul_pow2 by lia. }
  assert (Hp : (0 < 2 ^ (ex - 2 * e0))%Z) by (apply Z.pow_pos_nonneg; lia).
  assert (Hm0p : (0 <= m0)%Z) by nia.
  pose proof (Z.sqrtrem_sqrt m0) as Hq. pose proof (Z.sqrt_spec m0 Hm0p) as Hspec.
  pose proof (Z.sqrt_nonneg m0) as Hq0.
  destruct (Z.sqrtrem m0) as [q r]. cbn [fst] in Hq. subst q.
  set (q := Z.sqrt m0) in *.
  apply binary_round_aux_close; [exact Hq0|].
  assert (Em : IZR m0 = IZR (Zpos mx) * bpow (ex - 2 * e0)).
  { rewrite Hm0, mult_IZR, (bpow_nonneg_IZR _ Hs). reflexivity. }
  assert (Ex : bpow ex = bpow (ex - 2 * e0) * (bpow e0 * bpow e0)).
  { rewrite <- !bpow_add. f_equal. lia. }
  pose proof (bpow_pos e0) as P0.
  assert (Ev : R_sqrt.sqrt (IZR (Zpos mx) * bpow ex) = R_sqrt.sqrt (IZR m0) * bpow e0).
  { replace (IZR (Zpos mx) * bpow ex) with (IZR m0 * (bpow e0 * bpow e0))
      by (rewrite Em, Ex; ring).
    rewrite sqrt_mult_alt by (apply IZR_le; lia).
    rewrite sqrt_square by lra. reflexivity. }
  rewrite Ev.
  assert (Hq1 : IZR q <= R_sqrt.sqrt (IZR m0)).
  { rewrite <- (sqrt_square (IZR q)) by (apply IZR_le; lia).
    apply sqrt_le_1_alt. rewrite <- mult_IZR. apply IZR_le. unfold Z.succ in Hspec. lia. }
  assert (Hq2 : R_sqrt.sqrt (IZR m0) <= IZR q + 1).
  { rewrite <- (sqrt_square (IZR q + 1))
      by (pose proof (IZR_le _ _ Hq0); lra).
    apply sqrt_le_1_alt. rewrite <- (plus_IZR _ 1), <- mult_IZR. apply IZR_le.
    unfold Z.succ in Hspec. lia. }
  split; apply Rmult_le_compat_r; lra.
Qed.

End Faithful.
End Rounding.
(** ** Accumulated rounding errors *)

Section RealFacts.
Local Open Scope R_scope.

Lemma eta_bounds : 0 < eta < / 1000.
Proof.
  unfold eta. split.
  - apply Rinv_0_lt_compat. apply pow_lt. lra.
  - apply Rinv_lt_contravar; [|].
    + apply Rmult_lt_0_compat; [lra | apply pow_lt; lra].
    + replace 51%nat with (10 + 41)%nat by reflexivity. rewrite pow_add.
      assert (1 <= 2 ^ 41) by (apply pow_R1_Rle; lra).
      assert (2 ^ 10 = 1024) by (simpl; lra). nra.
Qed.

Lemma bound_small : / 2 ^ 47 < / 1000.
Proof.
  apply Rinv_lt_contravar.
  - apply Rmult_lt_0_compat; [lra | apply pow_lt; lra].
  - replace 47%nat with (10 + 37)%nat by reflexivity. rewrite pow_add.
    assert (1 <= 2 ^ 37) by (apply pow_R1_Rle; lra).
    assert (2 ^ 10 = 1024) by (simpl; lra). nra.
Qed.

Lemma sqrt_1000_lower : 31 <= R_sqrt.sqrt 1000.
Proof.
  rewrite <- (sqrt_square 31) by lra. apply sqrt_le_1_alt. lra.
Qed.

Lemma within_refl x : within 0 x x.
Proof. unfold within. simpl. lra. Qed.

Lemma pow_eta_ge_1 n : 1 <= (1 + eta) ^ n.
Proof. apply pow_R1_Rle. pose proof eta_bounds. lra. Qed.

Lemma within_trans n m x y z :
  within n x y -> within m y z -> within (n + m) x z.
Proof.
  unfold within. intros [H1 H2] [H3 H4]. rewrite pow_add.
  pose proof (pow_eta_ge_1 n) as Pn. pose proof (pow_eta_ge_1 m) as Pm.
  set (a := (1 + eta) ^ n) in *. set (b := (1 + eta) ^ m) in *.
  split.
  - apply Rle_trans with (y * a); [exact H1|].
    replace (z * (a * b)) with (z * b * a) by ring.
    apply Rmult_le_compat_r; lra.
  - apply Rle_trans with (y * b); [exact H4|].
    replace (x * (a * b)) with (x * a * b) by ring.
    apply Rmult_le_compat_r; lra.
Qed.

Lemma within_scale c n x y : 0 <= c -> within n x y -> within n (c * x) (c * y).
Proof.
  unfold within. intros Hc [H1 H2]. split.
  - replace (c * y * (1 + eta) ^ n) with (c * (y * (1 + eta) ^ n)) by ring.
    now apply Rmult_le_compat_l.
  - replace (c * x * (1 + eta) ^ n) with (c * (x * (1 + eta) ^ n)) by ring.
    now apply Rmult_le_compat_l.
Qed.

Lemma within_sqrt n x y :
  0 <= x -> 0 <= y -> within n x y -> within n (R_sqrt.sqrt x) (R_sqrt.sqrt y).
Proof.
  unfold within. intros Hx Hy [H1 H2].
  pose proof (pow_eta_ge_1 n) as Pn. set (a := (1 + eta) ^ n) in *.
  assert (Ha : R_sqrt.sqrt a <= a).
  { rewrite <- (sqrt_square a) at 2 by lra. apply sqrt_le_1_alt. nra. }
  pose proof (sqrt_pos x) as Sx. pose proof (sqrt_pos y) as Sy.
  split.
  - apply Rle_trans with (R_sqrt.sqrt (y * a)); [now apply sqrt_le_1_alt|].
    rewrite sqrt_mult_alt by lra. apply Rmult_le_compat_l; lra.
  - apply Rle_trans with (R_sqrt.sqrt (x * a)); [now apply sqrt_le_1_alt|].
    rewrite sqrt_mult_alt by lra. apply Rmult_le_compat_l; lra.
Qed.

(** A result within [eta] of its own magnitude from the exact value. *)
Lemma within_rounding r v : 0 <= r -> Rabs (r - v) <= eta * r -> within 2 r v.
Proof.
  intros Hr Hv. pose proof eta_bounds as He.
  pose proof (RRle_abs (r - v)) as Ha.
  pose proof (RRle_abs (- (r - v))) as Hb. rewrite Rabs_Ropp in Hb.
  unfold within. replace ((1 + eta) ^ 2) with ((1 + eta) * (1 + eta)) by (simpl; ring).
  assert (H1 : r * (1 - eta) <= v) by lra.
  assert (H2 : v <= r * (1 + eta)) by lra.
  assert (H3 : 1 <= (1 - eta) * ((1 + eta) * (1 + eta))) by nra.
  assert (H4 : 0 <= (1 + eta) * (1 + eta)) by nra.
  split.
  - apply Rle_trans with (r * (1 - eta) * ((1 + eta) * (1 + eta))).
    + replace (r * (1 - eta) * ((1 + eta) * (1 + eta)))
        with (r * ((1 - eta) * ((1 + eta) * (1 + eta)))) by ring.
      replace r with (r * 1) at 1 by ring. apply Rmult_le_compat_l; lra.
    + apply Rmult_le_compat_r; lra.
  - apply Rle_trans with (r * (1 + eta)); [exact H2|].
    replace (r * ((1 + eta) * (1 + eta))) with (r * (1 + eta) * (1 + eta)) by ring.
    replace (r * (1 + eta)) with (r * (1 + eta) * 1) at 1 by ring.
    apply Rmult_le_compat_l; [|lra].
    apply Rmult_le_pos; lra.
Qed.

(** [(1 + t)^n] stays under [1 / (1 - n t)]. *)
Lemma pow_bound t n : 0 <= t -> (1 + t) ^ n * (1 - INR n * t) <= 1.
Proof.
  intros Ht. induction n as [|n IH].
  - simpl. lra.
  - rewrite S_INR. simpl pow.
    pose proof (pow_le (1 + t) n ltac:(lra)) as Hp.
    set (a := (1 + t) ^ n) in *. pose proof (pos_INR n) as Hn.
    assert (Hq : 0 <= a * ((INR n + 1) * (t * t))).
    { apply Rmult_le_pos; [exact Hp|]. apply Rmult_le_pos; [lra|].
      apply Rmult_le_pos; lra. }
    replace ((1 + t) * a * (1 - (INR n + 1) * t))
      with (a * (1 - INR n * t) - a * ((INR n + 1) * (t * t))) by ring.
    lra.
Qed.

Lemma within_agree n x y :
  (n <= 14)%nat -> 0 <= x -> 0 <= y -> within n x y -> agree (/ 2 ^ 47) x y.
Proof.
  intros Hn Hx Hy [H1 H2].
  assert (Hp : (1 + eta) ^ n <= 1 + / 2 ^ 47).
  { apply Rle_trans with ((1 + eta) ^ 14).
    - apply Rle_pow; [pose proof eta_bounds; lra | exact Hn].
    - pose proof (pow_bound eta 14 ltac:(pose proof eta_bounds; lra)) as Hb.
      pose proof (pow_eta_ge_1 14) as H14.
      assert (E : / 2 ^ 47 = 16 * eta).
      { unfold eta. replace 51%nat with (4 + 47)%nat by reflexivity.
        rewrite pow_add. assert (0 < 2 ^ 47) by (apply pow_lt; lra).
        replace (2 ^ 4) with 16 by (simpl; lra). field; lra. }
      rewrite E. pose proof eta_bounds as He.
      replace (INR 14) with 14 in Hb by (simpl; lra).
      set (a := (1 + eta) ^ 14) in *. nra. }
  unfold agree. split.
  - apply Rle_trans with (y * (1 + eta) ^ n); [exact H1|].
    rewrite Rmult_comm. apply Rmult_le_compat_r; lra.
  - apply Rle_trans with (x * (1 + eta) ^ n); [exact H2|].
    rewrite Rmult_comm. apply Rmult_le_compat_r; lra.
Qed.

End RealFacts.
(** ** The operations of the velocity derivation, read over the real numbers *)

Section RoundedOps.
Local Open Scope R_scope.

Local Abbreviation bpow := (powerRZ 2).

Lemma finite_signed_pos x :
  isFinite x = true -> (0 <? x)%float = true -> finite_signed false x.
Proof.
  rewrite isFinite_spec, ltb_zero_spec. unfold finite_signed.
  destruct (Prim2SF x) as [s|s| |[] m e]; cbn; intros F H; try discriminate; eauto.
Qed.

Lemma finite_signed_neg x :
  isFinite x = true -> (x <? 0)%float = true -> finite_signed true x.
Proof.
  rewrite isFinite_spec, zero_ltb_spec. unfold finite_signed.
  destruct (Prim2SF x) as [s|s| |[] m e]; cbn; intros F H; try discriminate; eauto.
Qed.

Lemma finite_signed_tests x :
  finite_signed false x ->
  is_nan x = false /\ (0 <? x)%float = true /\ isFinite x = true.
Proof.
  intros (m & e & H). rewrite is_nan_spec, isFinite_spec, ltb_zero_spec, H. auto.
Qed.

Lemma magnitude x s m e :
  Prim2SF x = S754_finite s m e ->
  Rabs (real x) = IZR (Zpos m) * bpow e
  /\ real x = (if s then - Rabs (real x) else Rabs (real x)).
Proof.
  intros H. unfold real. rewrite H. cbn [SF2R].
  assert (P : 0 < IZR (Zpos m) * bpow e).
  { apply Rmult_lt_0_compat; [apply IZR_lt; lia | apply Rounding.bpow_pos]. }
  destruct s; cbn [cond_Zopp].
  - change (Z.opp (Zpos m)) with (Zneg m).
    replace (IZR (Zneg m) * bpow e) with (- (IZR (Zpos m) * bpow e))
      by (change (Zneg m) with (- Zpos m)%Z; rewrite opp_IZR; ring).
    rewrite Rabs_Ropp, Rabs_pos_eq by lra. split; reflexivity.
  - rewrite Rabs_pos_eq by lra. split; reflexivity.
Qed.

Lemma finite_signed_real s x :
  finite_signed s x ->
  0 < Rabs (real x) /\ real x = (if s then - Rabs (real x) else Rabs (real x)).
Proof.
  intros (m & e & H). destruct (magnitude x s m e H) as [A B]. split; [|exact B].
  rewrite A. apply Rmult_lt_0_compat; [apply IZR_lt; lia | apply Rounding.bpow_pos].
Qed.

(** A normal number has a full mantissa. *)
Lemma normal_spec x :
  normal x = true ->
  exists s m e, Prim2SF x = S754_finite s m e /\ (2 ^ 52 <= Zpos m)%Z.
Proof.
  unfold normal, Math_abs. rewrite andb_true_iff, isFinite_spec, leb_spec, abs_spec.
  change (Prim2SF 0x1p-1022%float) with (S754_finite false 4503599627370496 (-1074)).
  pose proof (Prim2SF_valid x) as V.
  destruct (Prim2SF x) as [s|s| |s m e]; intros [F H]; try discriminate.
  exists s, m, e. split; [reflexivity|].
  change (SpecFloat.valid_binary prec emax (S754_finite false m e) = true) in V.
  apply (SF.canonical_inv prec emax) in V. destruct V as (A & _ & _ & D).
  change (SpecFloat.emin prec emax) with (-1074)%Z in A, D.
  cbn [SFabs] in H. unfold SFleb in H. cbn [SFcompare] in H.
  destruct (Z.compare_spec (-1074) e) as [E|E|E].
  - destruct (Pos.compare_cont Eq 4503599627370496 m) eqn:C; try discriminate.
    + apply Pos.compare_eq in C. subst m. reflexivity.
    + pose proof (proj1 (Pos.compare_lt_iff _ _) C) as Hlt.
      change (2 ^ 52)%Z with 4503599627370496%Z. lia.
  - specialize (D E). pose proof (SF.digits2_bounds prec emax m) as [L _].
    rewrite D in L. exact L.
  - discriminate.
Qed.

Lemma ulp_eta m e :
  (2 ^ 52 <= Zpos m)%Z -> 2 * bpow e <= eta * (IZR (Zpos m) * bpow e).
Proof.
  intros Hm. apply IZR_le in Hm.
  pose proof (powerRZ_lt 2 e ltac:(lra)) as Pe.
  assert (E : IZR (2 ^ 52) = 2 * 2 ^ 51).
  { change (2 ^ 52)%Z with (2 * 2 ^ Z.of_nat 51)%Z. rewrite mult_IZR, <- pow_IZR.
    reflexivity. }
  rewrite E in Hm.
  assert (P : 0 < 2 ^ 51) by (apply pow_lt; lra).
  assert (H : 2 <= eta * IZR (Zpos m)).
  { unfold eta. apply Rmult_le_reg_l with (2 ^ 51); [exact P|].
    rewrite <- Rmult_assoc, Rinv_r by lra. lra. }
  replace (eta * (IZR (Zpos m) * bpow e)) with (eta * IZR (Zpos m) * bpow e) by ring.
  apply Rmult_le_compat_r; lra.
Qed.

(** A rounded result that is normal is within two roundings' worth of the
    exact value. *)
Lemma rounded_within m e v :
  (2 ^ 52 <= Zpos m)%Z ->
  Rabs (IZR (Zpos m) * bpow e - v) <= 2 * bpow e ->
  within 2 (IZR (Zpos m) * bpow e) v.
Proof.
  intros Hm Hv. apply within_rounding.
  - apply Rmult_le_pos; [apply IZR_le; lia | apply powerRZ_le; lra].
  - eapply Rle_trans; [exact Hv | now apply ulp_eta].
Qed.

Lemma mul_within sx sy x y :
  finite_signed sx x -> finite_signed sy y -> normal (x * y)%float = true ->
  finite_signed (xorb sx sy) (x * y)%float
  /\ within 2 (Rabs (real (x * y)%float)) (Rabs (real x) * Rabs (real y)).
Proof.
  intros (mx & ex & Hx) (my & ey & Hy) Hn.
  destruct (normal_spec _ Hn) as (s & m & e & Hr & Hm).
  pose proof (mul_spec x y) as H. rewrite Hx, Hy, Hr in H. symmetry in H.
  destruct (Rounding.SFmul_close prec emax _ _ _ _ _ _ _ _ _ H) as [-> Hc].
  split; [now exists m, e|].
  rewrite (proj1 (magnitude _ _ _ _ Hx)), (proj1 (magnitude _ _ _ _ Hy)),
    (proj1 (magnitude _ _ _ _ Hr)).
  now apply rounded_within.
Qed.

Lemma div_within sx sy x y :
  finite_signed sx x -> finite_signed sy y -> normal (x / y)%float = true ->
  finite_signed (xorb sx sy) (x / y)%float
  /\ within 2 (Rabs (real (x / y)%float)) (Rabs (real x) / Rabs (real y)).
Proof.
  intros (mx & ex & Hx) (my & ey & Hy) Hn.
  destruct (normal_spec _ Hn) as (s & m & e & Hr & Hm).
  pose proof (div_spec x y) as H. rewrite Hx, Hy, Hr in H. symmetry in H.
  destruct (Rounding.SFdiv_close prec emax _ _ _ _ _ _ _ _ _ H) as [-> Hc].
  split; [now exists m, e|].
  rewrite (proj1 (magnitude _ _ _ _ Hx)), (proj1 (magnitude _ _ _ _ Hy)),
    (proj1 (magnitude _ _ _ _ Hr)).
  now apply rounded_within.
Qed.

Lemma sqrt_within x :
  finite_signed false x -> normal (Math_sqrt x) = true ->
  finite_signed false (Math_sqrt x)
  /\ within 2 (real (Math_sqrt x)) (R_sqrt.sqrt (real x)).
Proof.
  intros (mx & ex & Hx) Hn.
  destruct (normal_spec _ Hn) as (s & m & e & Hr & Hm).
  pose proof (sqrt_spec x) as H. unfold Math_sqrt in Hr. rewrite Hx, Hr in H. symmetry in H.
  destruct (Rounding.SFsqrt_close prec emax _ _ _ _ _ H) as [-> Hc].
  split; [now exists m, e|]. unfold real, Math_sqrt. rewrite Hx, Hr. cbn [SF2R cond_Zopp].
  now apply rounded_within.
Qed.

Lemma real_2 : finite_signed false 2%float /\ Rabs (real 2%float) = 2.
Proof.
  split; [now exists 4503599627370496%positive, (-51)%Z|].
  rewrite (proj1 (magnitude 2%float false 4503599627370496 (-51) eq_refl)).
  change (Zpos 4503599627370496) with (2 ^ 52)%Z.
  rewrite <- (Rounding.bpow_nonneg_IZR 52) by lia.
  rewrite <- Rounding.bpow_add. simpl. lra.
Qed.

Lemma real_1000 : finite_signed false 1000%float /\ Rabs (real 1000%float) = 1000.
Proof.
  split; [now exists 8796093022208000%positive, (-43)%Z|].
  rewrite (proj1 (magnitude 1000%float false 8796093022208000 (-43) eq_refl)).
  change (Zpos 8796093022208000) with (1000 * 2 ^ 43)%Z.
  rewrite mult_IZR, <- (Rounding.bpow_nonneg_IZR 43) by lia.
  rewrite Rmult_assoc, <- Rounding.bpow_add. simpl. lra.
Qed.

Lemma max_zero_positive x : finite_signed false x -> Math_max 0%float x = x.
Proof.
  intros H. destruct (finite_signed_tests x H) as (Hn & Hp & _).
  now rewrite Math_max_zero, Hn, Hp.
Qed.

(** The velocity of a row against the pitot relation over the reals:
    within eight roundings in 'kpa' mode and six in 'pa' mode, when the
    density and the pressure are finite with the same sign and every result
    is normal. *)
Lemma velocity_within s rho k p :
  finite_signed s rho -> finite_signed s (dpIn p) -> all_normal rho k p = true ->
  finite_signed false (cr_u (computeRow rho k p))
  /\ 0 <= 2 * real (dpIn p) / real rho
  /\ within (if k then 8 else 6)
       (real (cr_u (computeRow rho k p)))
       (R_sqrt.sqrt (2 * (if k then 1000 * real (dpIn p) else real (dpIn p)) / real rho)).
Proof.
  intros Hrho Hdp Hn. unfold all_normal in Hn. cbv zeta in Hn.
  cbn [computeRow cr_dpPa cr_u] in Hn |- *.
  apply andb_prop in Hn. destruct Hn as [Hn Nu].
  apply andb_prop in Hn. destruct Hn as [Hn Nc].
  apply andb_prop in Hn. destruct Hn as [Na Nb].
  destruct real_2 as [P2 R2]. destruct real_1000 as [P1000 R1000].
  destruct (finite_signed_real s rho Hrho) as [Prho Erho].
  destruct (finite_signed_real s _ Hdp) as [Pdp Edp].
  set (dpPa := if k then kPa2Pa (dpIn p) else dpIn p) in *.
  set (ar := Rabs (real rho)) in *. set (ad := Rabs (real (dpIn p))) in *.
  set (dR := if k then 1000 * ad else ad).
  assert (PdR : 0 < dR) by (unfold dR; destruct k; lra).
  assert (Ha : finite_signed s dpPa /\ within (if k then 2 else 0) (Rabs (real dpPa)) dR).
  { unfold dpPa, dR in *. destruct k.
    - unfold kPa2Pa in *.
      destruct (mul_within s false _ _ Hdp P1000 Na) as [A B].
      rewrite xorb_false_r in A. split; [exact A|].
      rewrite R1000 in B. fold ad in B. now rewrite Rmult_comm.
    - split; [exact Hdp | apply within_refl]. }
  destruct Ha as [Pa Wa].
  destruct (mul_within false s 2%float dpPa P2 Pa Nb) as [Pb Wb].
  rewrite R2 in Wb. cbn [xorb] in Pb.
  destruct (div_within s s (2 * dpPa)%float rho Pb Hrho Nc) as [Pc Wc].
  rewrite xorb_nilpotent in Pc. fold ar in Wc.
  rewrite (max_zero_positive _ Pc) in Nu |- *.
  destruct (sqrt_within _ Pc Nu) as [Pu Wu].
  destruct (finite_signed_real false _ Pc) as [Pq Eq].
  assert (Wb' : within (2 + (if k then 2 else 0)) (Rabs (real (2 * dpPa)%float)) (2 * dR)).
  { eapply within_trans; [exact Wb|]. apply within_scale; [lra | exact Wa]. }
  assert (Wc' : within (2 + (2 + (if k then 2 else 0)))
                  (real (2 * dpPa / rho)%float) (2 * dR / ar)).
  { rewrite Eq. eapply within_trans; [exact Wc|].
    unfold Rdiv. rewrite !(Rmult_comm _ (/ ar)).
    apply within_scale; [|exact Wb']. left. now apply Rinv_0_lt_compat. }
  assert (Pi : 0 < / ar) by now apply Rinv_0_lt_compat.
  assert (E : 2 * (if k then 1000 * real (dpIn p) else real (dpIn p)) / real rho
              = 2 * dR / ar).
  { rewrite Erho, Edp. unfold dR. destruct s, k; field; lra. }
  assert (E0 : 2 * real (dpIn p) / real rho = 2 * ad / ar).
  { rewrite Erho, Edp. destruct s; field; lra. }
  split; [exact Pu|]. split.
  { rewrite E0. apply Rmult_le_pos; lra. }
  rewrite E.
  replace (if k then 8 else 6)%nat with (2 + (2 + (2 + (if k then 2 else 0))))%nat
    by (now destruct k).
  eapply within_trans; [exact Wu|].
  apply within_sqrt; [lra | | exact Wc'].
  apply Rmult_le_pos; lra.
Qed.

Lemma within_sym n x y : within n x y -> within n y x.
Proof. unfold within. tauto. Qed.

(** The two unit modes: the 'kpa' velocity against [sqrt 1000] times the
    'pa' velocity, at most fourteen roundings apart. *)
Lemma unit_modes_within s rho p :
  finite_signed s rho -> finite_signed s (dpIn p) ->
  all_normal rho true p = true -> all_normal rho false p = true ->
  within 14 (real (cr_u (computeRow rho true p)))
    (R_sqrt.sqrt 1000 * real (cr_u (computeRow rho false p))).
Proof.
  intros Hrho Hdp Nk Np.
  destruct (velocity_within s rho true p Hrho Hdp Nk) as (_ & Hq & Wk).
  destruct (velocity_within s rho false p Hrho Hdp Np) as (_ & _ & Wp).
  cbv iota in Wk, Wp.
  replace (2 * (1000 * real (dpIn p)) / real rho)
    with (1000 * (2 * real (dpIn p) / real rho)) in Wk by (unfold Rdiv; ring).
  rewrite sqrt_mult in Wk by lra.
  change 14%nat with (8 + 6)%nat.
  eapply within_trans; [exact Wk|]. apply within_sym.
  apply within_scale; [apply sqrt_pos | exact Wp].
Qed.

End RoundedOps.
(** ** The velocity of a row: zero, or close to the pitot relation *)

Lemma Math_max_zero_is_zero x : is_zero x = true -> Math_max 0 x = 0.
Proof.
  intros H. rewrite Math_max_zero.
  assert (Hn : is_nan x = false).
  { rewrite is_nan_spec. rewrite is_zero_spec in H. destruct (Prim2SF x); simpl in *; congruence. }
  assert (Hp : (0 <? x) = false).
  { rewrite ltb_zero_spec. rewrite is_zero_spec in H.
    destruct (Prim2SF x); simpl in *; congruence. }
  now rewrite Hn, Hp.
Qed.

(** A zero times a finite number, and a zero over a finite number other
    than zero, are zero. *)
Lemma mul_zero_l x y :
  is_zero x = true -> isFinite y = true -> is_zero (x * y) = true.
Proof.
  rewrite !is_zero_spec, isFinite_spec, mul_spec.
  destruct (Prim2SF x); try discriminate.
  destruct (Prim2SF y); try discriminate; reflexivity.
Qed.

Lemma mul_zero_r x y :
  isFinite x = true -> is_zero y = true -> is_zero (x * y) = true.
Proof.
  rewrite !is_zero_spec, isFinite_spec, mul_spec.
  destruct (Prim2SF y); try discriminate.
  destruct (Prim2SF x); try discriminate; reflexivity.
Qed.

Lemma div_zero_l x y :
  is_zero x = true -> isFinite y = true -> is_zero y = false -> is_zero (x / y) = true.
Proof.
  rewrite !is_zero_spec, isFinite_spec, div_spec.
  destruct (Prim2SF x); try discriminate.
  destruct (Prim2SF y); try discriminate; reflexivity.
Qed.

(** A pressure of zero gives the velocity zero. *)
Lemma velocity_zero_pressure rho k p :
  is_zero (dpIn p) = true -> isFinite rho = true -> is_zero rho = false ->
  cr_u (computeRow rho k p) = 0.
Proof.
  intros Hz Hf Hr. cbn [computeRow cr_u].
  assert (Ha : is_zero (if k then kPa2Pa (dpIn p) else dpIn p) = true).
  { destruct k; [|exact Hz]. unfold kPa2Pa. now apply mul_zero_l. }
  rewrite Math_max_zero_is_zero; [reflexivity|].
  apply div_zero_l; [|exact Hf|exact Hr]. now apply mul_zero_r.
Qed.

(** A pressure and a density of opposite signs give the velocity zero. *)
Lemma velocity_opposite_signs rho k p sd :
  sign (dpIn p) = Some sd -> sign rho = Some (negb sd) ->
  isFinite rho = true -> is_zero rho = false ->
  cr_u (computeRow rho k p) = 0.
Proof.
  intros Hd Hs Hf Hz. cbn [computeRow cr_u].
  assert (Ha : sign (if k then kPa2Pa (dpIn p) else dpIn p) = Some sd).
  { destruct k; [|exact Hd]. unfold kPa2Pa.
    destruct finite_1000 as (F & Z & S).
    destruct (mul_finite_sign (dpIn p) 1000 sd Hd F Z) as (sy & Hy & Hm & _).
    rewrite S in Hy. injection Hy as <-. now rewrite xorb_false_r in Hm. }
  destruct (pitot_sign _ rho sd Ha Hf Hz) as (sr & Hr & Hq).
  rewrite Hs in Hr. injection Hr as <-.
  replace (xorb sd (negb sd)) with true in Hq by (now destruct sd).
  now apply sqrt_max_neg.
Qed.

Lemma ltb_zero_pos_sign x : (0 <? x) = true -> sign x = Some false.
Proof.
  intros Hd. unfold sign. rewrite ltb_zero_spec in Hd.
  destruct (Prim2SF x) as [s|[]| |[] m e]; simpl; congruence.
Qed.

Lemma ltb_not_zero x : (0 <? x) = true \/ (x <? 0) = true -> is_zero x = false.
Proof.
  rewrite is_zero_spec, ltb_zero_spec, zero_ltb_spec.
  destruct (Prim2SF x) as [s|[]| |[] m e]; simpl; intuition congruence.
Qed.

Lemma normal_finite_signed x : normal x = true -> exists s, finite_signed s x.
Proof.
  intros H. destruct (normal_spec x H) as (s & m & e & E & _).
  exists s, m, e. exact E.
Qed.

Lemma finite_signed_sign s x :
  finite_signed s x -> sign x = Some s /\ isFinite x = true /\ is_zero x = false.
Proof.
  intros (m & e & H). unfold sign. rewrite isFinite_spec, is_zero_spec, H. auto.
Qed.

(** A finite product other than zero has finite factors other than zero. *)
Lemma mul_finite_signed_inv s x y :
  finite_signed s (x * y) -> exists sx sy, finite_signed sx x /\ finite_signed sy y.
Proof.
  intros (m & e & H). rewrite mul_spec in H. unfold finite_signed.
  destruct (Prim2SF x) as [sx|sx| |sx mx ex]; destruct (Prim2SF y) as [sy|sy| |sy my ey];
    try discriminate H.
  exists sx, sy. split; eauto.
Qed.

(** A finite quotient other than zero of a finite number has a finite
    divisor other than zero. *)
Lemma div_finite_signed_inv s sx x y :
  finite_signed sx x -> finite_signed s (x / y) -> exists sy, finite_signed sy y.
Proof.
  intros (mx & ex & Hx) (m & e & H). rewrite div_spec, Hx in H. unfold finite_signed.
  destruct (Prim2SF y) as [sy|sy| |sy my ey]; try discriminate H. eauto.
Qed.

(** When every result of the derivation is normal, the density and the
    pressure are finite, not zero and of the same sign. *)
Lemma all_normal_signs rho k p :
  all_normal rho k p = true ->
  exists s, finite_signed s rho /\ finite_signed s (dpIn p).
Proof.
  intros Hn. pose proof Hn as Hn'. unfold all_normal in Hn. cbv zeta in Hn.
  apply andb_prop in Hn. destruct Hn as [Hn Nu].
  apply andb_prop in Hn. destruct Hn as [Hn Nc].
  apply andb_prop in Hn. destruct Hn as [Na Nb].
  cbn [computeRow cr_dpPa] in Na, Nb, Nc.
  destruct (normal_finite_signed _ Na) as [sa Fa].
  destruct (normal_finite_signed _ Nb) as [sb Fb].
  destruct (normal_finite_signed _ Nc) as [sc Fc].
  destruct (div_finite_signed_inv _ _ _ _ Fb Fc) as [sr Fr].
  assert (Fd : exists sd, finite_signed sd (dpIn p)).
  { destruct k; [|eauto]. unfold kPa2Pa in Fa.
    destruct (mul_finite_signed_inv _ _ _ Fa) as (sd & ? & ? & _). eauto. }
  destruct Fd as [sd Fd].
  destruct (finite_signed_sign _ _ Fr) as (Sr & Hf & Hz).
  destruct (finite_signed_sign _ _ Fd) as (Sd & _ & _).
  destruct (Bool.bool_dec sr sd) as [->|Hne]; [eauto|].
  exfalso.
  assert (E : sr = negb sd) by (destruct sr, sd; simpl; congruence).
  rewrite E in Sr.
  rewrite (velocity_opposite_signs rho k p sd Sd Sr Hf Hz) in Nu.
  discriminate Nu.
Qed.

(** The velocity of a row agrees with the pitot relation over the reals
    when every result of the derivation is normal. *)
Lemma velocity_agree rho k p :
  all_normal rho k p = true ->
  agree (/ 2 ^ 47)
    (real (cr_u (computeRow rho k p)))
    (R_sqrt.sqrt (2 * (if k then 1000 * real (dpIn p) else real (dpIn p)) / real rho)).
Proof.
  intros Hn. destruct (all_normal_signs rho k p Hn) as (s & Hr & Hd).
  destruct (velocity_within s rho k p Hr Hd Hn) as (Hu & _ & W).
  apply (within_agree (if k then 8 else 6)%nat); [destruct k; lia | | apply sqrt_pos | exact W].
  destruct (finite_signed_real false _ Hu) as [P E]. rewrite E. lra.
Qed.

(** The 'kpa' velocity agrees with [sqrt 1000] times the 'pa' velocity when
    every result of both derivations is normal. *)
Lemma unit_modes_agree rho p :
  all_normal rho true p = true -> all_normal rho false p = true ->
  agree (/ 2 ^ 47)
    (real (cr_u (computeRow rho true p)))
    (R_sqrt.sqrt 1000 * real (cr_u (computeRow rho false p))).
Proof.
  intros Nk Np. destruct (all_normal_signs rho true p Nk) as (s & Hr & Hd).
  destruct (velocity_within s rho true p Hr Hd Nk) as (Hk & _ & _).
  destruct (velocity_within s rho false p Hr Hd Np) as (Hp & _ & _).
  destruct (finite_signed_real false _ Hk) as [Pk Ek].
  destruct (finite_signed_real false _ Hp) as [Pp Ep].
  apply (within_agree 14%nat); [lia | rewrite Ek; lra | |
                                now apply (unit_modes_within s)].
  apply Rmult_le_pos; [apply sqrt_pos | rewrite Ep; lra].
Qed.

(** ** The properties of the specification *)

Section Properties.
Variables Math_log Math_exp : number -> number.

Local Abbreviation computeAll := (computeAll Math_log Math_exp).
Local Abbreviation computeStation := (computeStation Math_log Math_exp).

Lemma results_In stations g cs :
  In cs (results (computeAll stations g)) ->
  exists st, In st stations
             /\ computeStation (settings_rho g) (settings_D g) (settings_unitIsKPa g) st
                = Some cs.
Proof. apply mapNotNull_In. Qed.

(** The rows of a processed station are the computed rows of the valid
    input rows of the station: every row comes from one, and every valid
    input row gives one. *)
Lemma station_rows_origin rho k st r :
  In r (station_rows rho k st)
  <-> exists row,
        In row (st_rows st)
        /\ isFinite (parseFloat (row_r row)) = true
        /\ isFinite (parseFloat (row_dp row)) = true
        /\ r = computeRow rho k
                 {| rmm := parseFloat (row_r row); dpIn := parseFloat (row_dp row) |}.
Proof.
  unfold station_rows, parseRows. rewrite sort_In, in_map_iff. split.
  - intros (p & <- & Hp). apply filter_In in Hp. destruct Hp as [Hp Hf].
    apply in_map_iff in Hp. destruct Hp as (row & <- & Hrow).
    cbn [rmm dpIn] in Hf. apply andb_true_iff in Hf. destruct Hf as [Fr Fd].
    exists row. auto.
  - intros (row & Hrow & Fr & Fd & ->).
    exists {| rmm := parseFloat (row_r row); dpIn := parseFloat (row_dp row) |}.
    split; [reflexivity|]. apply filter_In. split.
    + apply in_map_iff. exists row. auto.
    + cbn [rmm dpIn]. now rewrite Fr, Fd.
Qed.

(** C1, under a finite positive density: every station of the results is
    the outcome of one of the input stations; each valid input row of that
    station (radius and pressure both parse to finite numbers) gives a
    computed row, and each computed row comes from such an input row, with
    the radius equal to the parsed radius divided by 1000 and the pressure
    in pascals equal to the parsed pressure times 1000 in 'kpa' mode and to
    the parsed pressure itself in 'pa' mode; and, provided the density in
    use is finite and positive, the velocity of every computed row equals
    sqrt(2 dpPa / rho) (as numbers, so it is not NaN) when dpPa >= 0 and is
    exactly 0 when dpPa < 0. *)
Theorem C1_velocity_formula stations g cs :
  In cs (results (computeAll stations g)) ->
  let rho := settings_rho g in
  let pascals := fun dp : number => match g_pUnits g with kpa => dp * 1000 | pa => dp end in
  exists st,
    In st stations
    /\ computeStation rho (settings_D g) (settings_unitIsKPa g) st = Some cs
    /\ (forall row,
          In row (st_rows st) ->
          isFinite (parseFloat (row_r row)) = true ->
          isFinite (parseFloat (row_dp row)) = true ->
          exists r, In r (cs_rows cs)
                    /\ cr_r r = parseFloat (row_r row) / 1000
                    /\ cr_dpPa r = pascals (parseFloat (row_dp row)))
    /\ (forall r,
          In r (cs_rows cs) ->
          (exists row, In row (st_rows st)
                       /\ isFinite (parseFloat (row_r row)) = true
                       /\ isFinite (parseFloat (row_dp row)) = true
                       /\ cr_r r = parseFloat (row_r row) / 1000
                       /\ cr_dpPa r = pascals (parseFloat (row_dp row)))
          /\ (isFinite rho = true -> (0 <? rho) = true ->
              ((0 <=? cr_dpPa r) = true ->
               (cr_u r =? Math_sqrt (2 * cr_dpPa r / rho)) = true)
              /\ ((cr_dpPa r <? 0) = true -> cr_u r = 0))).
Proof.
  intros Hcs. cbv zeta.
  destruct (results_In _ _ _ Hcs) as (st & Hst & Hrun).
  exists st. split; [exact Hst|]. split; [exact Hrun|].
  apply computeStation_Some in Hrun. cbv zeta in Hrun.
  destruct Hrun as (_ & _ & _ & _ & _ & _ & Hrows & _). rewrite Hrows.
  assert (Hunit : forall dp,
             (if settings_unitIsKPa g then kPa2Pa dp else dp)
             = match g_pUnits g with kpa => dp * 1000 | pa => dp end).
  { intros dp. unfold settings_unitIsKPa. now destruct (g_pUnits g). }
  split.
  - intros row Hrow Fr Fd.
    exists (computeRow (settings_rho g) (settings_unitIsKPa g)
              {| rmm := parseFloat (row_r row); dpIn := parseFloat (row_dp row) |}).
    split; [apply station_rows_origin; eauto|].
    cbn [computeRow cr_r cr_dpPa rmm dpIn]. split; [reflexivity | apply Hunit].
  - intros r Hr. apply station_rows_origin in Hr.
    destruct Hr as (row & Hrow & Fr & Fd & ->).
    cbn [computeRow cr_r cr_dpPa cr_u rmm dpIn]. split.
    + exists row. repeat split; auto.
    + intros Hf Hp. split.
      * intros Hd. apply sqrt_max_nonneg. now apply pitot_nonneg.
      * intros Hd. apply sqrt_max_neg. now apply pitot_neg.
Qed.

(** C2: in a processed station, whose rows are sorted ascending by radius so
    that the first two are the innermost, Uc is the first row's velocity
    when its radius is exactly 0; otherwise it is the linear interpolation
    at r = 0 when |r1^2 - r2^2| < 1e-12, and u1 - a r1^2 with
    a = (u1 - u2) / (r1^2 - r2^2) when not. *)
Theorem C2_centerline rho D k st cs :
  computeStation rho D k st = Some cs ->
  exists row1 row2 rest,
    cs_rows cs = row1 :: row2 :: rest
    /\ Forall (radius_le row1) (row2 :: rest)
    /\ Forall (radius_le row2) rest
    /\ let r1 := cr_r row1 in
       let u1 := cr_u row1 in
       let r2 := cr_r row2 in
       let u2 := cr_u row2 in
       cs_Uc cs =
         if r1 =? 0 then u1
         else if Math_abs (r1 * r1 - r2 * r2) <? 1e-12
              then u1 + (u2 - u1) * (0 - r1) / (r2 - r1)
              else u1 - (u1 - u2) / (r1 * r1 - r2 * r2) * (r1 * r1).
Proof.
  intros H. apply computeStation_Some in H. cbv zeta in H.
  destruct H as (_ & Hlen & _ & _ & _ & _ & Hrows & HUc & _).
  pose proof (station_rows_length rho k st) as Hl.
  pose proof (station_rows_sorted rho k st) as Hs.
  rewrite Hrows, HUc.
  destruct (station_rows rho k st) as [|row1 [|row2 rest]]; simpl in Hl; try lia.
  exists row1, row2, rest.
  apply StronglySorted_inv in Hs. destruct Hs as [Hs H1].
  apply StronglySorted_inv in Hs. destruct Hs as [_ H2].
  repeat split; auto.
  cbn [map]. now rewrite centerline_two.
Qed.

(** C3, with the guard on Uc and the finite-logarithm filter made explicit:
    in a processed station whose Uc is not <= 0, the
    half-velocity radius solver scans consecutive pairs of the rows with
    u > 0 and a finite ln u, as points (r^2, ln u), for the first pair with
    ln(u_i) >= ln(Uc/2) and ln(u_(i+1)) <= ln(Uc/2), interpolates linearly in
    r^2 and returns the square root; when there is no such pair it scans
    consecutive (r, u) pairs with the same rule and interpolates linearly in
    r; when neither scan finds a pair the result is NaN.  When Uc <= 0 the
    solver returns NaN at once.  The station's r½ is the solver's result
    when that is finite and NaN otherwise, and the no-crossing warning is in
    the trace exactly when it is not finite. *)
Theorem C3_half_radius_scans rho D k st cs :
  computeStation rho D k st = Some cs ->
  let rows := cs_rows cs in
  let Uc := cs_Uc cs in
  let solved := interpolateRhalf Math_log (map cr_r rows) (map cr_u rows) Uc in
  solved = (if Uc <=? 0 then nan
            else rhalf_by_scans Math_log (finite_log_velocity Math_log) rows Uc)
  /\ (first_crossing snd (Math_log (Uc / 2))
        (log_points Math_log (finite_log_velocity Math_log) rows) = None ->
      first_crossing cr_u (Uc / 2) rows = None ->
      solved = nan)
  /\ cs_rHalf cs = (if isFinite solved then solved else nan)
  /\ (In No_crossing (warnings (cs_trace cs)) <-> isFinite solved = false).
Proof.
  intros H. pose proof (station_warnings Math_log Math_exp _ _ _ _ _ H) as Hw.
  apply computeStation_Some in H. cbv zeta in H, Hw.
  destruct H as (_ & _ & _ & _ & _ & _ & Hrows & HUc & HrH & _).
  cbv zeta. rewrite <- Hrows in HUc, HrH. rewrite <- HUc in HrH.
  set (solved := interpolateRhalf Math_log _ _ _) in *.
  assert (E : solved = if cs_Uc cs <=? 0 then nan
                       else rhalf_by_scans Math_log (finite_log_velocity Math_log)
                              (cs_rows cs) (cs_Uc cs))
    by apply interpolateRhalf_rows.
  repeat split.
  - exact E.
  - intros H1 H2. rewrite E. destruct (cs_Uc cs <=? 0); [reflexivity|].
    unfold rhalf_by_scans. now rewrite H1, H2.
  - exact HrH.
  - destruct Hw as (ws & Hws & ->). intros Hin.
    destruct (isFinite solved); [|reflexivity]. exfalso.
    cbn [app] in Hin. apply in_app_or in Hin. destruct Hin as [Hin|Hin].
    + rewrite Forall_forall in Hws. exact (Hws _ Hin).
    + destruct (tail_applies _ _); cbn in Hin; [tauto|].
      destruct Hin as [Hin|[]]. discriminate.
  - destruct Hw as (ws & Hws & ->). intros ->.
    apply in_or_app. right. now left.
Qed.

(** C4: in a processed station, mdot and I are the trapezoid totals
    2 pi sum (f_i + f_(i+1)) / 2 * dr over consecutive sorted rows, with
    f = rho u r and g = rho u^2 r, plus, exactly when Uc and r½ are finite
    and r½ > 0, the tail corrections (pi rho Uc / B) exp(-B r_n^2) and
    (pi rho Uc^2 / (2 B)) exp(-2 B r_n^2), where B = ln 2 / r½^2 and r_n is
    the last (largest) radius; otherwise they are the trapezoid totals
    alone and the tail-skipped warning is appended to the trace. *)
Theorem C4_flux_totals rho D k st cs :
  computeStation rho D k st = Some cs ->
  let rows := cs_rows cs in
  let Uc := cs_Uc cs in
  let rHalf := cs_rHalf cs in
  let B := Math_log 2 / (rHalf * rHalf) in
  let r_n := last (map cr_r rows) nan in
  let mdot_trapz := 2 * Math_PI * trapezoid (mass_integrand (cs_rho cs)) rows in
  let I_trapz := 2 * Math_PI * trapezoid (momentum_integrand (cs_rho cs)) rows in
  Forall (fun r => (cr_r r <=? r_n) = true) rows /\
  (tail_applies Uc rHalf = true ->
     cs_mdot cs = mdot_trapz + (Math_PI * cs_rho cs * Uc / B) * Math_exp (- B * r_n * r_n)
     /\ cs_I cs = I_trapz
                  + (Math_PI * cs_rho cs * Uc * Uc / (2 * B)) * Math_exp (-2 * B * r_n * r_n)
     /\ ~ In Tail_skipped (warnings (cs_trace cs)))
  /\ (tail_applies Uc rHalf = false ->
      cs_mdot cs = mdot_trapz /\ cs_I cs = I_trapz
      /\ exists ws, warnings (cs_trace cs) = ws ++ [Tail_skipped]).
Proof.
  intros H. pose proof (station_warnings Math_log Math_exp _ _ _ _ _ H) as Hw.
  apply computeStation_Some in H. cbv zeta in H, Hw.
  destruct H as (_ & _ & _ & _ & Hrho & _ & Hrows & HUc & HrH & Hm & HI & _).
  rewrite <- Hrows in HUc, HrH, Hm, HI. rewrite <- HUc in HrH, Hm, HI.
  rewrite <- HrH in Hm, HI.
  cbv zeta. rewrite Hrho. split; [|split].
  - rewrite Hrows. apply sorted_last_max.
    + apply station_rows_sorted.
    + apply station_rows_radius.
  - intros Ht. rewrite Ht in Hm, HI. repeat split; auto.
    destruct Hw as (ws & Hws & ->). rewrite Ht, app_nil_r. intros Hin.
    apply in_app_or in Hin. destruct Hin as [Hin|Hin].
    + rewrite Forall_forall in Hws. exact (Hws _ Hin).
    + destruct (isFinite _); cbn in Hin; [tauto|].
      destruct Hin as [Hin|[]]. discriminate.
  - intros Ht. rewrite Ht in Hm, HI. repeat split; auto.
    destruct Hw as (ws & Hws & ->). rewrite Ht, app_assoc. eauto.
Qed.

(** C5: in a processed station, when r½ is finite and positive the collapse
    sequence has one point (xr, ur) = (r / r½, u / Uc) per sorted row, in
    row order, and rmse = sqrt (mean over those points of
    (ur - exp(- ln 2 * xr^2))^2); when r½ is NaN or not positive the
    collapse sequence is empty and rmse is NaN. *)
Theorem C5_collapse_rmse rho D k st cs :
  computeStation rho D k st = Some cs ->
  let rows := cs_rows cs in
  let Uc := cs_Uc cs in
  let rHalf := cs_rHalf cs in
  (isFinite rHalf = true -> (0 <? rHalf) = true ->
     cs_collapse cs = map (collapse_point Uc rHalf) rows
     /\ List.length (cs_collapse cs) = List.length rows
     /\ cs_rmse cs = rmse_of Math_log Math_exp (cs_collapse cs))
  /\ (is_nan rHalf = true \/ (0 <? rHalf) = false ->
      cs_collapse cs = [] /\ cs_rmse cs = nan).
Proof.
  intros H. apply computeStation_Some in H. cbv zeta in H.
  destruct H as (_ & _ & _ & _ & _ & _ & Hrows & HUc & HrH & _ & _ & _ & Hc & Hr).
  rewrite <- Hrows in HUc, HrH, Hc, Hr. rewrite <- HUc in HrH, Hc, Hr.
  rewrite <- HrH in Hc, Hr.
  cbv zeta. split.
  - intros Hf Hp. rewrite Hf, Hp in Hc, Hr. cbn [andb] in Hc, Hr.
    rewrite Hc, Hr, length_map. auto.
  - intros Hno.
    assert (E : isFinite (cs_rHalf cs) && (0 <? cs_rHalf cs) = false).
    { destruct Hno as [Hn|Hn].
      - unfold isFinite, is_finite. rewrite Hn. reflexivity.
      - rewrite Hn. apply andb_false_r. }
    rewrite E in Hc, Hr. auto.
Qed.

(** C6: for every sequence of stations, the results of computeAll are the
    computed stations of the usable inputs, in input order, where a station
    is dropped exactly when its x/D does not parse to a finite number or
    fewer than 2 of its rows have a radius and a pressure that both parse to
    finite numbers; the rows of every returned station are its computed
    rows rearranged and sorted ascending by radius; with no usable station
    the results are empty; and the returned globals are the input
    settings. *)
Theorem C6_batch_contract stations g :
  let res := computeAll stations g in
  let compute :=
    computeStation (settings_rho g) (settings_D g) (settings_unitIsKPa g) in
  Forall2
    (fun st cs =>
       compute st = Some cs /\ cs_id cs = st_id st
       /\ Permutation
            (map (computeRow (settings_rho g) (settings_unitIsKPa g)) (parseRows (st_rows st)))
            (cs_rows cs))
    (filter usable stations) (results res)
  /\ (forall st, usable st = false <-> compute st = None)
  /\ (forall cs, In cs (results res) -> StronglySorted radius_le (cs_rows cs))
  /\ (filter usable stations = [] -> results res = [])
  /\ globals res = g.
Proof.
  cbv zeta.
  assert (HF : Forall2
                 (fun st cs =>
                    computeStation (settings_rho g) (settings_D g) (settings_unitIsKPa g) st
                    = Some cs)
                 (filter usable stations) (results (computeAll stations g))).
  { apply mapNotNull_filter. intros st. apply computeStation_None. }
  repeat split.
  - eapply Forall2_impl; [|exact HF]. cbv beta. intros st cs H. split; [exact H|].
    apply computeStation_Some in H. cbv zeta in H.
    destruct H as (_ & _ & Hid & _ & _ & _ & Hrows & _).
    split; [exact Hid|]. rewrite Hrows. apply sort_perm.
  - intros H. now apply computeStation_None.
  - intros H. now apply computeStation_None in H.
  - intros cs Hcs. destruct (results_In _ _ _ Hcs) as (st & _ & Hst).
    apply computeStation_Some in Hst. cbv zeta in Hst.
    destruct Hst as (_ & _ & _ & _ & _ & _ & -> & _).
    apply station_rows_sorted.
  - intros E. rewrite E in HF. now inversion HF.
Qed.

(** C7, in binary64, for every row and every density.  (1) When the density
    is finite and either the pressure and the density have opposite signs
    (a negative pressure under a positive density, or a positive pressure
    under a negative density) or the pressure is zero and the density is
    not, the velocities derived in 'kpa' mode and in 'pa' mode are both
    exactly 0.  (2) When every result of both derivations (the pressure in
    pascals, its double, the quotient by the density and the velocity) is a
    normal number, the 'kpa' velocity and sqrt(1000) times the 'pa'
    velocity, taken as real numbers, are each at most 1 + 2^-47 times the
    other.  (3) Under the same condition the velocity of each mode is
    within the same factor of the pitot relation sqrt(2 * dp_Pa / rho)
    evaluated over the real numbers. *)
Theorem C7_unit_modes rho p :
  let u_kpa := cr_u (computeRow rho true p) in
  let u_pa := cr_u (computeRow rho false p) in
  (isFinite rho = true ->
   ((dpIn p <? 0) = true /\ (0 <? rho) = true)
   \/ ((0 <? dpIn p) = true /\ (rho <? 0) = true)
   \/ (is_zero (dpIn p) = true /\ is_zero rho = false) ->
   u_kpa = 0 /\ u_pa = 0)
  /\ (all_normal rho true p = true -> all_normal rho false p = true ->
      agree (/ 2 ^ 47) (real u_kpa) (R_sqrt.sqrt 1000 * real u_pa))
  /\ (all_normal rho true p = true ->
      agree (/ 2 ^ 47) (real u_kpa)
        (R_sqrt.sqrt (2 * (1000 * real (dpIn p)) / real rho)))
  /\ (all_normal rho false p = true ->
      agree (/ 2 ^ 47) (real u_pa) (R_sqrt.sqrt (2 * real (dpIn p) / real rho))).
Proof.
  cbv zeta. split; [|split; [|split]].
  - intros Hf [[Hd Hr]|[[Hd Hr]|[Hd Hr]]].
    + assert (Hz : is_zero rho = false) by (apply ltb_not_zero; now left).
      split; apply (velocity_opposite_signs rho _ p true); auto using ltb_zero_sign.
      all: now apply ltb_zero_pos_sign.
    + assert (Hz : is_zero rho = false) by (apply ltb_not_zero; now right).
      split; apply (velocity_opposite_signs rho _ p false); auto using ltb_zero_pos_sign.
      all: now apply ltb_zero_sign.
    + split; now apply velocity_zero_pressure.
  - apply unit_modes_agree.
  - apply (velocity_agree rho true p).
  - apply (velocity_agree rho false p).
Qed.

Lemma settings_rho_truthy g :
  is_nan (settings_rho g) = false /\ is_zero (settings_rho g) = false.
Proof.
  unfold settings_rho, or_else.
  destruct (truthy (parseFloat (g_rho g))) eqn:E.
  - unfold truthy in E. apply negb_true_iff, orb_false_iff in E. exact E.
  - split; reflexivity.
Qed.

Lemma mm2m_nonneg x : (0 <=? x) = true -> (0 <=? mm2m x) = true.
Proof.
  intros H. unfold mm2m. rewrite leb_zero_spec in *. rewrite div_spec.
  change (Prim2SF 1000) with (S754_finite false 8796093022208000 (-43)).
  destruct (Prim2SF x) as [s|[]| |[] m e]; try discriminate; try reflexivity.
  pose proof (SF.SFdiv_sign prec emax (S754_finite false m e)
                (S754_finite false 8796093022208000 (-43)) false false eq_refl eq_refl) as HX.
  fold SF64div in HX. cbn [is_zero_sf is_inf_sf andb orb xorb] in HX.
  destruct (SF64div _ _) as [s|[]| |[] m1 e1]; simpl in HX; try discriminate; reflexivity.
Qed.

Lemma sign_true_nonpos x :
  sign x = Some true -> (x <=? 0) = true /\ (0 <? x) = false.
Proof.
  unfold sign. rewrite leb_spec, ltb_spec. change (Prim2SF 0) with (S754_zero false).
  destruct (Prim2SF x) as [[]|[]| |[] m e]; simpl; intros H; try discriminate;
    split; reflexivity.
Qed.

Lemma mm2m_nonpos x :
  (x <? 0) = true -> (mm2m x <=? 0) = true /\ (0 <? mm2m x) = false.
Proof.
  intros H. pose proof (ltb_zero_sign _ H) as Hs.
  destruct finite_1000 as (F & Z & S).
  destruct (div_finite_sign x 1000 true Hs F Z) as (sy & Hy & Hq).
  rewrite S in Hy. injection Hy as <-. now apply sign_true_nonpos.
Qed.

(** C8, for the radius as parsed and a finite density: every station of
    the results is the outcome of one of the input stations; each valid
    input row of that station gives a computed row, and each computed row
    comes from a valid input row, with radius equal to the parsed radius
    divided by 1000.  This radius is >= 0 whenever the parsed radius is
    >= 0, and is <= 0 and not positive whenever the parsed radius is
    negative, so the sign of the radius is never checked.  Provided the
    density in use is finite, the velocity of every computed row is >= 0
    and not NaN. *)
Theorem C8_row_invariant stations g cs :
  In cs (results (computeAll stations g)) ->
  exists st,
    In st stations
    /\ computeStation (settings_rho g) (settings_D g) (settings_unitIsKPa g) st = Some cs
    /\ (forall row,
          In row (st_rows st) ->
          isFinite (parseFloat (row_r row)) = true ->
          isFinite (parseFloat (row_dp row)) = true ->
          exists r, In r (cs_rows cs) /\ cr_r r = parseFloat (row_r row) / 1000)
    /\ (forall r,
          In r (cs_rows cs) ->
          (exists row,
              In row (st_rows st)
              /\ isFinite (parseFloat (row_r row)) = true
              /\ isFinite (parseFloat (row_dp row)) = true
              /\ cr_r r = parseFloat (row_r row) / 1000
              /\ ((0 <=? parseFloat (row_r row)) = true -> (0 <=? cr_r r) = true)
              /\ ((parseFloat (row_r row) <? 0) = true ->
                  (cr_r r <=? 0) = true /\ (0 <? cr_r r) = false))
          /\ (isFinite (settings_rho g) = true ->
              (0 <=? cr_u r) = true /\ is_nan (cr_u r) = false)).
Proof.
  intros Hcs.
  destruct (results_In _ _ _ Hcs) as (st & Hst & Hrun).
  exists st. split; [exact Hst|]. split; [exact Hrun|].
  apply computeStation_Some in Hrun. cbv zeta in Hrun.
  destruct Hrun as (_ & _ & _ & _ & _ & _ & Hrows & _). rewrite Hrows.
  split.
  - intros row Hrow Fr Fd.
    exists (computeRow (settings_rho g) (settings_unitIsKPa g)
              {| rmm := parseFloat (row_r row); dpIn := parseFloat (row_dp row) |}).
    split; [apply station_rows_origin; eauto | reflexivity].
  - intros r Hr. apply station_rows_origin in Hr.
    destruct Hr as (row & Hrow & Fr & Fd & ->).
    cbn [computeRow cr_r cr_u rmm dpIn]. split.
    + exists row. split; [exact Hrow|]. split; [exact Fr|]. split; [exact Fd|].
      split; [reflexivity|]. split; [apply mm2m_nonneg | apply mm2m_nonpos].
    + intros Hf. destruct (settings_rho_truthy g) as [_ Hz].
      set (dp := parseFloat (row_dp row)) in *.
      assert (Hd : exists sd, sign (if settings_unitIsKPa g then kPa2Pa dp else dp)
                              = Some sd).
      { destruct (finite_sign _ Fd) as [s Hs].
        destruct (settings_unitIsKPa g); [|eauto].
        destruct finite_1000 as (F & Z & _).
        destruct (mul_finite_sign dp 1000 s Hs F Z) as (sy & _ & Hm & _).
        unfold kPa2Pa. eauto. }
      destruct Hd as [sd Hd].
      destruct (pitot_sign _ _ sd Hd Hf Hz) as (sr & _ & Hq).
      pose proof (sqrt_max_not_nan _ (sign_not_nan _ _ Hq)) as Hu.
      split; [exact Hu|]. exact (proj2 (leb_not_nan _ _ Hu)).
Qed.

Lemma cm2m_not_nan x : truthy x = true -> is_nan (cm2m x) = false.
Proof.
  intros H. unfold truthy in H. apply negb_true_iff, orb_false_iff in H.
  destruct H as [Hn _]. destruct (not_nan_sign x Hn) as [s Hs].
  assert (F : isFinite 100 = true /\ is_zero 100 = false) by (split; reflexivity).
  destruct F as [F Z].
  destruct (div_finite_sign x 100 s Hs F Z) as (sy & _ & Hq).
  exact (sign_not_nan _ _ Hq).
Qed.

(** C9, with the fallback taken on NaN and zero only: for every settings
    input, the density in use is the
    parsed settings.rho unless that is NaN or zero, in which case it is the
    default 1.204; the diameter in use is the parsed settings.Dcm, or the
    default 2.54 when that is NaN or zero, divided by 100.  A value that
    parses to a negative or infinite number is used as it is.  The density
    in use is never NaN and never zero, the diameter in use is never NaN,
    and a finite positive settings.rho or settings.Dcm is always used as
    typed.  The functions are total: no settings text raises an error. *)
Theorem C9_settings_defaults g :
  let rho_in := parseFloat (g_rho g) in
  let Dcm_in := parseFloat (g_Dcm g) in
  settings_rho g = (if is_nan rho_in || is_zero rho_in then 1.204 else rho_in)
  /\ settings_D g = cm2m (if is_nan Dcm_in || is_zero Dcm_in then 2.54 else Dcm_in)
  /\ is_nan (settings_rho g) = false
  /\ is_zero (settings_rho g) = false
  /\ is_nan (settings_D g) = false
  /\ ((0 <? rho_in) = true -> settings_rho g = rho_in)
  /\ ((0 <? Dcm_in) = true -> settings_D g = cm2m Dcm_in).
Proof.
  cbv zeta.
  assert (Hpos : forall x, (0 <? x) = true -> is_nan x || is_zero x = false).
  { intros x H. rewrite is_nan_spec, is_zero_spec. rewrite ltb_zero_spec in H.
    destruct (Prim2SF x) as [s|[]| |[] m e]; try discriminate; reflexivity. }
  unfold settings_rho, settings_D, or_else, truthy.
  repeat split.
  - destruct (is_nan _ || is_zero _); reflexivity.
  - destruct (is_nan _ || is_zero _); reflexivity.
  - apply (settings_rho_truthy g).
  - apply (settings_rho_truthy g).
  - apply cm2m_not_nan. unfold truthy.
    destruct (is_nan (parseFloat (g_Dcm g)) || is_zero (parseFloat (g_Dcm g))) eqn:E;
      cbn [negb]; [reflexivity|]. now rewrite E.
  - intros H. now rewrite (Hpos _ H).
  - intros H. now rewrite (Hpos _ H).
Qed.

(** C10: in a processed station whose centerline velocity Uc is <= 0, the
    half-velocity radius solver returns NaN whatever the rows are, so r½ is
    NaN with the no-crossing warning, the collapse sequence is empty, rmse
    is NaN, and mdot and I are the trapezoid totals without tail
    correction (with the tail-skipped warning). *)
Theorem C10_nonpositive_centerline rho D k st cs :
  computeStation rho D k st = Some cs ->
  (cs_Uc cs <=? 0) = true ->
  (forall r u, interpolateRhalf Math_log r u (cs_Uc cs) = nan)
  /\ cs_rHalf cs = nan
  /\ In No_crossing (warnings (cs_trace cs))
  /\ cs_collapse cs = []
  /\ cs_rmse cs = nan
  /\ cs_mdot cs = 2 * Math_PI * trapezoid (mass_integrand (cs_rho cs)) (cs_rows cs)
  /\ cs_I cs = 2 * Math_PI * trapezoid (momentum_integrand (cs_rho cs)) (cs_rows cs)
  /\ In Tail_skipped (warnings (cs_trace cs)).
Proof.
  intros H HUc.
  assert (Hsolve : forall r u, interpolateRhalf Math_log r u (cs_Uc cs) = nan).
  { intros r u. unfold interpolateRhalf. now rewrite HUc. }
  pose proof (station_warnings Math_log Math_exp _ _ _ _ _ H) as Hw.
  apply computeStation_Some in H. cbv zeta in H, Hw.
  destruct H as (_ & _ & _ & _ & Hrho & _ & Hrows & HU & HrH & Hm & HI & _ & Hc & Hr).
  rewrite <- Hrows in HU, HrH, Hm, HI, Hc, Hr.
  rewrite <- HU in HrH, Hm, HI, Hc, Hr.
  rewrite <- HrH in Hm, HI, Hc, Hr.
  rewrite Hsolve in HrH, Hw. change (isFinite nan) with false in HrH, Hw.
  cbv iota in HrH.
  assert (Ht : tail_applies (cs_Uc cs) (cs_rHalf cs) = false).
  { unfold tail_applies. rewrite HrH. change (isFinite nan) with false.
    now rewrite andb_false_r. }
  rewrite Ht in Hm, HI, Hw.
  rewrite HrH in Hc, Hr. change (isFinite nan) with false in Hc, Hr.
  cbn [andb] in Hc, Hr. rewrite Hrho.
  destruct Hw as (ws & _ & Hw).
  repeat split; auto.
  - rewrite Hw. apply in_or_app. right. now left.
  - rewrite Hw. apply in_or_app. right. right. now left.
Qed.

End Properties.

(** ** The properties on the worked inputs *)

(** The sample station is processed; its input row ("10", "0.124") comes
    out with the radius 10 / 1000 and the pressure 0.124 * 1000, and its
    innermost computed row obeys the pitot relation. *)
Lemma C1_witness :
  In sample_computed (results (computeAll Host.log Host.exp [sample_station] sample_settings))
  /\ (exists r, In r (cs_rows sample_computed)
                /\ cr_r r = parseFloat "10" / 1000
                /\ cr_dpPa r = parseFloat "0.124" * 1000)
  /\ (cr_u sample_row =? Math_sqrt (2 * cr_dpPa sample_row / settings_rho sample_settings))
     = true.
Proof.
  assert (H1 : In sample_computed
                 (results (computeAll Host.log Host.exp [sample_station] sample_settings)))
    by (vm_compute; left; reflexivity).
  assert (H2 : In sample_row (cs_rows sample_computed)) by (vm_compute; left; reflexivity).
  assert (H3 : isFinite (settings_rho sample_settings) = true) by (vm_compute; reflexivity).
  assert (H4 : (0 <? settings_rho sample_settings) = true) by (vm_compute; reflexivity).
  pose proof (C1_velocity_formula Host.log Host.exp [sample_station] sample_settings
                sample_computed H1) as H.
  cbv zeta in H. destruct H as (st & Hin & _ & Hfwd & Hback).
  destruct Hin as [<-|[]].
  refine (conj H1 (conj _ _)).
  - apply (Hfwd (row "10" "0.124")); [left; reflexivity | |]; vm_compute; reflexivity.
  - destruct (Hback sample_row H2) as (_ & Hu).
    destruct (Hu H3 H4) as (Hn & _). apply Hn. vm_compute. reflexivity.
Defined.

(** With the density text "-2" a row of negative pressure gets a non-zero
    velocity. *)
Lemma C1_counterexample :
  In negative_computed
    (results (computeAll Host.log Host.exp [negative_station] negative_settings))
  /\ In negative_row (cs_rows negative_computed)
  /\ (cr_dpPa negative_row <? 0) = true
  /\ (cr_u negative_row =? 0) = false.
Proof. vm_compute. repeat split; auto. Qed.

(** The sample station has a row at r = 0, whose velocity is Uc. *)
Lemma C2_witness :
  sample_run = Some sample_computed
  /\ exists row1 row2 rest,
       cs_rows sample_computed = row1 :: row2 :: rest
       /\ Forall (radius_le row1) (row2 :: rest)
       /\ Forall (radius_le row2) rest
       /\ cs_Uc sample_computed = cr_u row1.
Proof.
  assert (Hs : sample_run = Some sample_computed) by (vm_compute; reflexivity).
  split; [exact Hs|].
  destruct (C2_centerline Host.log Host.exp _ _ _ _ _ Hs)
    as (row1 & row2 & rest & E & H1 & H2 & HU).
  exists row1, row2, rest.
  refine (conj E (conj H1 (conj H2 _))).
  cbv zeta in HU. rewrite HU.
  assert (Hz : (cr_r row1 =? 0) = true).
  { change (cs_rows sample_computed) with (sample_row :: tl (cs_rows sample_computed)) in E.
    injection E as <- _. vm_compute. reflexivity. }
  now rewrite Hz.
Defined.

(** A station whose centerline row reads no pressure: the rows (1 mm, 5 m/s)
    and (2 mm, 0 m/s) bracket Uc/2 = 0 and interpolate to 2 mm, yet r½ is
    NaN. *)
Lemma C3_counterexample :
  In still_computed
    (results (computeAll Host.log Host.exp [still_center_station] pascal_settings))
  /\ first_crossing snd (Host.log (cs_Uc still_computed / 2))
       (log_points Host.log positive_velocity (cs_rows still_computed)) = None
  /\ first_crossing cr_u (cs_Uc still_computed / 2) (cs_rows still_computed)
     = Some ({| cr_r := 0.001; cr_dpPa := 25; cr_u := 5 |},
             {| cr_r := 0.002; cr_dpPa := 0; cr_u := 0 |})
  /\ rhalf_by_scans Host.log positive_velocity (cs_rows still_computed)
       (cs_Uc still_computed) = 0.002
  /\ cs_rHalf still_computed = nan.
Proof. vm_compute. repeat split; auto. Qed.

(** On the sample station the scans resolve r½ and log no warning. *)
Lemma C3_witness :
  sample_run = Some sample_computed
  /\ cs_rHalf sample_computed
     = rhalf_by_scans Host.log (finite_log_velocity Host.log) (cs_rows sample_computed)
         (cs_Uc sample_computed)
  /\ ~ In No_crossing (warnings (cs_trace sample_computed)).
Proof.
  assert (Hs : sample_run = Some sample_computed) by (vm_compute; reflexivity).
  split; [exact Hs|].
  destruct (C3_half_radius_scans Host.log Host.exp _ _ _ _ _ Hs)
    as (E & _ & HrH & Hw).
  cbv zeta in E, HrH, Hw.
  assert (Hf : isFinite (interpolateRhalf Host.log (map cr_r (cs_rows sample_computed))
                           (map cr_u (cs_rows sample_computed)) (cs_Uc sample_computed))
               = true) by (vm_compute; reflexivity).
  split.
  - rewrite HrH, Hf, E. vm_compute. reflexivity.
  - intros Hin. apply Hw in Hin. congruence.
Defined.

(** On the sample station the tail correction applies and raises mdot
    above its trapezoid total. *)
Lemma C4_witness :
  sample_run = Some sample_computed
  /\ tail_applies (cs_Uc sample_computed) (cs_rHalf sample_computed) = true
  /\ ~ In Tail_skipped (warnings (cs_trace sample_computed))
  /\ (2 * Math_PI * trapezoid (mass_integrand (cs_rho sample_computed))
                      (cs_rows sample_computed)
      <? cs_mdot sample_computed) = true.
Proof.
  assert (Ht : tail_applies (cs_Uc sample_computed) (cs_rHalf sample_computed) = true)
    by (vm_compute; reflexivity).
  assert (Hs : sample_run = Some sample_computed) by (vm_compute; reflexivity).
  destruct (C4_flux_totals Host.log Host.exp _ _ _ _ _ Hs)
    as (_ & Hyes & _).
  cbv zeta in Hyes. destruct (Hyes Ht) as (Hm & _ & Hw).
  refine (conj Hs (conj Ht (conj Hw _))).
  rewrite Hm. vm_compute. reflexivity.
Defined.

(** The sample station collapses to six points. *)
Lemma C5_witness :
  sample_run = Some sample_computed
  /\ List.length (cs_collapse sample_computed) = 6%nat
  /\ cs_rmse sample_computed = rmse_of Host.log Host.exp (cs_collapse sample_computed).
Proof.
  assert (Hs : sample_run = Some sample_computed) by (vm_compute; reflexivity).
  destruct (C5_collapse_rmse Host.log Host.exp _ _ _ _ _ Hs)
    as (Hyes & _).
  cbv zeta in Hyes.
  assert (Hf : isFinite (cs_rHalf sample_computed) = true) by (vm_compute; reflexivity).
  assert (Hp : (0 <? cs_rHalf sample_computed) = true) by (vm_compute; reflexivity).
  destruct (Hyes Hf Hp) as (_ & Hl & Hr).
  refine (conj Hs (conj _ Hr)). rewrite Hl. vm_compute. reflexivity.
Defined.

(** A dropped station leaves the order of the others, and the rows of the
    sample station come out sorted. *)
Lemma C6_witness :
  map cs_id
    (results (computeAll Host.log Host.exp [one_row_station; sample_station] sample_settings))
  = ["s1"%string]
  /\ StronglySorted radius_le (cs_rows sample_computed).
Proof.
  destruct (C6_batch_contract Host.log Host.exp [one_row_station; sample_station]
              sample_settings) as (_ & _ & Hs & _).
  cbv zeta in Hs.
  refine (conj _ (Hs sample_computed _)).
  - vm_compute. reflexivity.
  - vm_compute. left. reflexivity.
Defined.

(** A negative pressure under the default density gives the velocity 0 in
    both modes; the pressure 3 under the density 1 gives velocities that
    agree with the factor sqrt(1000) within 2^-47. *)
Lemma C7_witness :
  let p := {| rmm := 5; dpIn := -0.5 |} in
  let q := {| rmm := 0; dpIn := 3 |} in
  (cr_u (computeRow 1.204 true p) = 0 /\ cr_u (computeRow 1.204 false p) = 0)
  /\ all_normal 1 true q = true
  /\ all_normal 1 false q = true
  /\ agree (/ 2 ^ 47) (real (cr_u (computeRow 1 true q)))
       (R_sqrt.sqrt 1000 * real (cr_u (computeRow 1 false q))).
Proof.
  cbv zeta.
  assert (Hk : all_normal 1 true {| rmm := 0; dpIn := 3 |} = true) by (vm_compute; reflexivity).
  assert (Hp : all_normal 1 false {| rmm := 0; dpIn := 3 |} = true) by (vm_compute; reflexivity).
  refine (conj _ (conj Hk (conj Hp _))).
  - apply (proj1 (C7_unit_modes 1.204 {| rmm := 5; dpIn := -0.5 |})).
    + vm_compute. reflexivity.
    + left. split; vm_compute; reflexivity.
  - exact (proj1 (proj2 (C7_unit_modes 1 {| rmm := 0; dpIn := 3 |})) Hk Hp).
Defined.

(** Pressure 3 and density 1: sqrt(6000) against sqrt(1000) * sqrt(6) differ
    in the last place. *)
Lemma C7_counterexample :
  let p := {| rmm := 0; dpIn := 3 |} in
  cr_u (computeRow 1 true p) = 77.459666924148337
  /\ Math_sqrt 1000 * cr_u (computeRow 1 false p) = 77.459666924148323
  /\ (cr_u (computeRow 1 true p) =? Math_sqrt 1000 * cr_u (computeRow 1 false p)) = false.
Proof. vm_compute. repeat split. Qed.

(** Below the normal range the factor is lost: with the density 1.204 and
    the least positive pressure, the quotient of the 'pa' derivation is
    rounded to a subnormal number, and the 'kpa' velocity falls short of
    sqrt(1000) times the 'pa' velocity by nine per cent. *)
Lemma unit_modes_below_normal :
  let p := {| rmm := 0; dpIn := 5e-324 |} in
  all_normal 1.204 false p = false
  /\ cr_u (computeRow 1.204 true p) = 9.0589350242857499e-161
  /\ Math_sqrt 1000 * cr_u (computeRow 1.204 false p) = 9.9404793228621183e-161
  /\ ~ agree (/ 2 ^ 47) (real (cr_u (computeRow 1.204 true p)))
        (R_sqrt.sqrt 1000 * real (cr_u (computeRow 1.204 false p))).
Proof.
  cbv zeta. split; [vm_compute; reflexivity|].
  split; [vm_compute; reflexivity|]. split; [vm_compute; reflexivity|].
  intros [_ H]. revert H. unfold real.
  change (Prim2SF (cr_u (computeRow 1.204 true {| rmm := 0; dpIn := 5e-324 |})))
    with (S754_finite false 5735808093376928 (-584)).
  change (Prim2SF (cr_u (computeRow 1.204 false {| rmm := 0; dpIn := 5e-324 |})))
    with (S754_finite false 6369051672525773 (-589)).
  cbn [SF2R cond_Zopp]. intros H.
  replace (-584)%Z with (5 + -589)%Z in H by reflexivity.
  rewrite Rounding.bpow_add in H.
  pose proof (Rounding.bpow_pos (-589)) as PB.
  set (B := powerRZ 2 (-589)) in *.
  assert (E5 : powerRZ 2 5 = 32%R) by (simpl; lra).
  rewrite E5 in H.
  pose proof sqrt_1000_lower as HS.
  pose proof bound_small as He.
  assert (H1 : (31 * (6369051672525773 * B) <= R_sqrt.sqrt 1000 * (6369051672525773 * B))%R).
  { apply Rmult_le_compat_r; [|exact HS]. apply Rmult_le_pos; lra. }
  assert (H2 : ((1 + / 2 ^ 47) * (5735808093376928 * (32 * B))
                <= (1 + / 1000) * (5735808093376928 * (32 * B)))%R).
  { apply Rmult_le_compat_r; [|lra]. apply Rmult_le_pos; lra. }
  lra.
Qed.

(** Above it as well: the pressure 1e306 overflows in 'kpa' mode only. *)
Lemma unit_modes_overflow :
  let p := {| rmm := 0; dpIn := 1e306 |} in
  all_normal 1 true p = false
  /\ cr_u (computeRow 1 true p) = infinity
  /\ cr_u (computeRow 1 false p) = 1.414213562373095e+153.
Proof. vm_compute. repeat split. Qed.

(** Under the density -2 the pressure -1 gives the velocity 1 in 'pa' mode
    and sqrt(1000) in 'kpa' mode: neither is 0. *)
Lemma unit_modes_negative_density :
  let p := {| rmm := 0; dpIn := -1 |} in
  cr_u (computeRow (-2) true p) = 31.622776601683793
  /\ cr_u (computeRow (-2) false p) = 1.
Proof. vm_compute. repeat split. Qed.

(** The radius text "-5" gives the radius -0.005 m. *)
Lemma C8_counterexample :
  In two_sided_computed
    (results (computeAll Host.log Host.exp [two_sided_station] sample_settings))
  /\ In two_sided_row (cs_rows two_sided_computed)
  /\ (cr_r two_sided_row <? 0) = true.
Proof. vm_compute. repeat split; auto. Qed.

(** The radius text "-5e-324" parses to a negative number and gives the
    radius -0, which is not below zero. *)
Lemma radius_negative_zero :
  (parseFloat "-5e-324" <? 0) = true
  /\ parseFloat "-5e-324" / 1000 = -0
  /\ (parseFloat "-5e-324" / 1000 <? 0) = false.
Proof. vm_compute. repeat split. Qed.

(** The sample station: its input row ("5", "0.244") comes out with the
    radius 5 / 1000, and its innermost computed row has a radius and a
    velocity that are not negative. *)
Lemma C8_witness :
  In sample_computed (results (computeAll Host.log Host.exp [sample_station] sample_settings))
  /\ (exists r, In r (cs_rows sample_computed) /\ cr_r r = parseFloat "5" / 1000)
  /\ (0 <=? cr_r sample_row) = true
  /\ (0 <=? cr_u sample_row) = true
  /\ is_nan (cr_u sample_row) = false.
Proof.
  assert (H1 : In sample_computed
                 (results (computeAll Host.log Host.exp [sample_station] sample_settings)))
    by (vm_compute; left; reflexivity).
  assert (H2 : In sample_row (cs_rows sample_computed)) by (vm_compute; left; reflexivity).
  assert (H3 : isFinite (settings_rho sample_settings) = true) by (vm_compute; reflexivity).
  destruct (C8_row_invariant Host.log Host.exp [sample_station] sample_settings
              sample_computed H1) as (st & Hin & _ & Hfwd & Hback).
  destruct Hin as [<-|[]].
  destruct (Hback sample_row H2) as ((rw & Hrw & _ & _ & _ & Hnn & _) & Hu).
  refine (conj H1 (conj _ (conj _ (Hu H3)))).
  - apply (Hfwd (row "5" "0.244")); [right; right; left; reflexivity | |];
      vm_compute; reflexivity.
  - apply Hnn.
    repeat (destruct Hrw as [<-|Hrw]; [vm_compute; reflexivity|]). destruct Hrw.
Defined.

(** The density text "-2" is used as it is: neither positive nor replaced
    by the default. *)
Lemma C9_counterexample :
  settings_rho negative_settings = -2
  /\ (0 <? settings_rho negative_settings) = false
  /\ (settings_rho negative_settings =? 1.204) = false.
Proof. vm_compute. repeat split. Qed.

(** The default settings are used as typed. *)
Lemma C9_witness :
  settings_rho sample_settings = 1.204 /\ settings_D sample_settings = cm2m 2.54.
Proof.
  destruct (C9_settings_defaults sample_settings) as (_ & _ & _ & _ & _ & Hr & HD).
  cbv zeta in Hr, HD.
  assert (H1 : (0 <? parseFloat (g_rho sample_settings)) = true) by (vm_compute; reflexivity).
  assert (H2 : (0 <? parseFloat (g_Dcm sample_settings)) = true) by (vm_compute; reflexivity).
  rewrite (Hr H1), (HD H2). split; vm_compute; reflexivity.
Defined.

(** The still-center station has Uc = 0. *)
Lemma C10_witness :
  still_run = Some still_computed
  /\ (cs_Uc still_computed <=? 0) = true
  /\ cs_rHalf still_computed = nan
  /\ cs_collapse still_computed = []
  /\ In No_crossing (warnings (cs_trace still_computed)).
Proof.
  assert (HU : (cs_Uc still_computed <=? 0) = true) by (vm_compute; reflexivity).
  assert (Hs : still_run = Some still_computed) by (vm_compute; reflexivity).
  destruct (C10_nonpositive_centerline Host.log Host.exp _ _ _ _ _ Hs HU)
    as (_ & H1 & H2 & H3 & _).
  exact (conj Hs (conj HU (conj H1 (conj H3 H2)))).
Defined.

(** ** Further properties of the analysis *)

Section MoreProperties.
Variables Math_log Math_exp : number -> number.

Local Abbreviation computeAll := (computeAll Math_log Math_exp).
Local Abbreviation computeStation := (computeStation Math_log Math_exp).

Lemma checkRows_exact rows :
  forall trace,
    warnings (checkRows rows trace) = warnings trace ++ profile_warnings rows.
Proof.
  unfold profile_warnings.
  induction rows as [|prev [|cur rest] IH]; intros trace.
  - cbn. now rewrite app_nil_r.
  - cbn. now rewrite app_nil_r.
  - rewrite checkRows_step, consecutive_cons, IH. cbv zeta.
    cbn [flat_map fst snd]. unfold pair_warnings.
    destruct (cr_r cur =? cr_r prev); destruct (cr_u prev <? cr_u cur);
      cbn [pushWarn warnings app]; rewrite <- ?app_assoc; reflexivity.
Qed.

Lemma profile_warnings_profile rows w :
  In w (profile_warnings rows) -> profile_warning w.
Proof.
  unfold profile_warnings. rewrite in_flat_map. intros (pc & _ & Hin).
  unfold pair_warnings in Hin. apply in_app_or in Hin.
  destruct Hin as [Hin|Hin];
    [destruct (cr_r (snd pc) =? cr_r (fst pc)) | destruct (cr_u (fst pc) <? cr_u (snd pc))];
    cbn in Hin; try tauto; destruct Hin as [<-|[]]; exact I.
Qed.

Lemma profile_warnings_length rows :
  (List.length (profile_warnings rows) <= 2 * (List.length rows - 1))%nat.
Proof.
  unfold profile_warnings.
  induction rows as [|prev [|cur rest] IH]; [cbn; lia | cbn; lia |].
  rewrite consecutive_cons. cbn [flat_map]. rewrite length_app.
  assert (List.length (pair_warnings prev cur) <= 2)%nat.
  { unfold pair_warnings. rewrite length_app.
    destruct (cr_r cur =? cr_r prev); destruct (cr_u prev <? cr_u cur); cbn; lia. }
  cbn [fst snd]. cbn [List.length] in *. lia.
Qed.

Lemma station_trace rho D k st cs :
  computeStation rho D k st = Some cs ->
  let rows := cs_rows cs in
  let solved :=
    interpolateRhalf Math_log (map cr_r rows) (map cr_u rows) (cs_Uc cs) in
  warnings (cs_trace cs)
  = profile_warnings rows
    ++ (if isFinite solved then [] else [No_crossing])
    ++ (if tail_applies (cs_Uc cs) (cs_rHalf cs) then [] else [Tail_skipped]).
Proof.
  intros H. apply computeStation_Some in H. cbv zeta in H.
  destruct H as (_ & Hlen & _ & _ & _ & _ & Hrows & HUc & HrH & _ & _ & Htr & _).
  cbv zeta. rewrite Hrows, HUc, HrH, Htr.
  pose proof (station_rows_length rho k st) as Hl.
  set (rows := station_rows rho k st) in *.
  destruct rows as [|row1 [|row2 rest]] eqn:E; simpl in Hl; try lia.
  cbn [map]. rewrite centerline_two. cbn [fst snd].
  set (Uc := if cr_r row1 =? 0 then _ else _).
  set (v := interpolateRhalf _ _ _ _).
  assert (Hw : warnings (if tail_applies Uc (if isFinite v then v else nan)
                         then if isFinite v
                              then checkRows (row1 :: row2 :: rest) mkTrace
                              else pushWarn (checkRows (row1 :: row2 :: rest) mkTrace) No_crossing
                         else pushWarn
                                (if isFinite v
                                 then checkRows (row1 :: row2 :: rest) mkTrace
                                 else pushWarn (checkRows (row1 :: row2 :: rest) mkTrace)
                                        No_crossing) Tail_skipped)
               = profile_warnings (row1 :: row2 :: rest)
                 ++ (if isFinite v then [] else [No_crossing])
                 ++ (if tail_applies Uc (if isFinite v then v else nan)
                     then [] else [Tail_skipped])).
  { destruct (isFinite v); destruct (tail_applies Uc _);
      cbn [pushWarn warnings]; rewrite checkRows_exact; cbn [mkTrace warnings app];
      rewrite ?app_nil_r, <- ?app_assoc; reflexivity. }
  exact Hw.
Qed.

(** X1: the warnings of a processed station are, in this order: for each
    pair of neighbouring sorted rows, a duplicate-radius warning when the
    two radii are equal and then a non-monotonic warning when the velocity
    increases; then the no-crossing warning when the solver's result is not
    finite; then the tail-skipped warning when the tail correction does not
    apply.  In particular the cannot-extrapolate warning never occurs, and a
    station of n rows carries at most 2 (n - 1) + 2 warnings. *)
Theorem X1_station_warning_list rho D k st cs :
  computeStation rho D k st = Some cs ->
  let rows := cs_rows cs in
  let solved :=
    interpolateRhalf Math_log (map cr_r rows) (map cr_u rows) (cs_Uc cs) in
  warnings (cs_trace cs)
  = profile_warnings rows
    ++ (if isFinite solved then [] else [No_crossing])
    ++ (if tail_applies (cs_Uc cs) (cs_rHalf cs) then [] else [Tail_skipped])
  /\ ~ In Cannot_extrapolate_Uc (warnings (cs_trace cs))
  /\ (List.length (warnings (cs_trace cs)) <= 2 * (List.length rows - 1) + 2)%nat.
Proof.
  intros H. pose proof (station_trace _ _ _ _ _ H) as Hw. cbv zeta in *.
  split; [exact Hw|]. rewrite Hw. split.
  - intros Hin. apply in_app_or in Hin. destruct Hin as [Hin|Hin].
    + apply profile_warnings_profile in Hin. exact Hin.
    + apply in_app_or in Hin.
      destruct Hin as [Hin|Hin];
        [destruct (isFinite _) | destruct (tail_applies _ _)];
        cbn in Hin; intuition discriminate.
  - rewrite !length_app. pose proof (profile_warnings_length (cs_rows cs)).
    destruct (isFinite _); destruct (tail_applies _ _); cbn [List.length]; lia.
Qed.

Lemma eqb_value x y :
  is_nan x = false -> is_nan y = false -> (x =? y) = (value x =? value y)%Z.
Proof.
  intros Hx Hy. rewrite eqb_spec. unfold SFeqb. rewrite (compare_value x y Hx Hy).
  destruct (Z.eqb_spec (value x) (value y)) as [E|E].
  - rewrite E, Z.compare_refl. reflexivity.
  - destruct (value x ?= value y)%Z eqn:C; try reflexivity.
    apply Z.compare_eq in C. contradiction.
Qed.

Lemma In_duplicate r rows :
  In (Duplicate_r r) (profile_warnings rows)
  <-> exists pc, In pc (consecutive rows)
                 /\ (cr_r (snd pc) =? cr_r (fst pc)) = true /\ r = cr_r (snd pc).
Proof.
  unfold profile_warnings. rewrite in_flat_map. split.
  - intros (pc & Hpc & Hin). exists pc. split; [exact Hpc|].
    unfold pair_warnings in Hin. apply in_app_or in Hin. destruct Hin as [Hin|Hin].
    + destruct (cr_r (snd pc) =? cr_r (fst pc)); cbn in Hin; [|tauto].
      destruct Hin as [Hin|[]]. injection Hin as <-. auto.
    + destruct (cr_u (fst pc) <? cr_u (snd pc)); cbn in Hin; intuition discriminate.
  - intros (pc & Hpc & He & ->). exists pc. split; [exact Hpc|].
    unfold pair_warnings. rewrite He. now left.
Qed.

Lemma In_non_monotonic r a b rows :
  In (Non_monotonic r a b) (profile_warnings rows)
  <-> exists pc, In pc (consecutive rows)
                 /\ (cr_u (fst pc) <? cr_u (snd pc)) = true
                 /\ r = cr_r (snd pc) /\ a = cr_u (fst pc) /\ b = cr_u (snd pc).
Proof.
  unfold profile_warnings. rewrite in_flat_map. split.
  - intros (pc & Hpc & Hin). exists pc. split; [exact Hpc|].
    unfold pair_warnings in Hin. apply in_app_or in Hin. destruct Hin as [Hin|Hin].
    + destruct (cr_r (snd pc) =? cr_r (fst pc)); cbn in Hin; intuition discriminate.
    + destruct (cr_u (fst pc) <? cr_u (snd pc)); cbn in Hin; [|tauto].
      destruct Hin as [Hin|[]]. injection Hin as <- <- <-. auto.
  - intros (pc & Hpc & He & -> & -> & ->). exists pc. split; [exact Hpc|].
    unfold pair_warnings. rewrite He. apply in_or_app. right. now left.
Qed.

(** In a list sorted by radius, the radii ascend strictly exactly when no two
    neighbours have equal radii. *)
Lemma strictly_sorted_neighbours rows :
  StronglySorted radius_le rows ->
  Forall (fun row => is_nan (cr_r row) = false) rows ->
  (StronglySorted radius_lt rows
   <-> Forall (fun pc => (cr_r (snd pc) =? cr_r (fst pc)) = false) (consecutive rows)).
Proof.
  induction rows as [|a [|b rest] IH]; intros Hs Hn.
  - split; constructor.
  - split; intros _; [constructor | constructor; constructor].
  - apply StronglySorted_inv in Hs. destruct Hs as [Hs Ha].
    pose proof (Forall_inv Hn) as Na. pose proof (Forall_inv_tail Hn) as Hn'.
    pose proof (Forall_inv Hn') as Nb. cbv beta in Na, Nb.
    specialize (IH Hs Hn'). rewrite consecutive_cons. split.
    + intros Hlt. apply StronglySorted_inv in Hlt. destruct Hlt as [Hlt Hal].
      constructor; [|now apply IH].
      cbn [fst snd]. apply Forall_inv in Hal. unfold radius_lt in Hal.
      rewrite (ltb_value _ _ Na Nb) in Hal. rewrite (eqb_value _ _ Nb Na).
      apply Z.ltb_lt in Hal. apply Z.eqb_neq. lia.
    + intros Hne. pose proof (Forall_inv Hne) as Hab. cbn [fst snd] in Hab.
      apply Forall_inv_tail in Hne. apply IH in Hne.
      constructor; [exact Hne|].
      rewrite (eqb_value _ _ Nb Na) in Hab. apply Z.eqb_neq in Hab.
      rewrite Forall_forall in *. intros c Hc.
      pose proof (Ha b (or_introl eq_refl)) as Hab2.
      specialize (Hn c (or_intror Hc)).
      unfold radius_le, radius_lt in *.
      assert (Hbc : (value (cr_r b) <= value (cr_r c))%Z).
      { destruct Hc as [<-|Hc]; [lia|].
        apply StronglySorted_inv in Hs. destruct Hs as [_ Hb].
        rewrite Forall_forall in Hb. specialize (Hb c Hc). unfold radius_le in Hb.
        rewrite (leb_value _ _ Nb Hn) in Hb. now apply Z.leb_le. }
      rewrite (leb_value _ _ Na Nb) in Hab2. apply Z.leb_le in Hab2.
      rewrite (ltb_value _ _ Na Hn). apply Z.ltb_lt. lia.
Qed.

(** A processed station has no duplicate-radius warning exactly when its
    radii ascend strictly. *)
Lemma duplicate_free_iff rho D k st cs :
  computeStation rho D k st = Some cs ->
  (forall r, ~ In (Duplicate_r r) (warnings (cs_trace cs)))
  <-> StronglySorted radius_lt (cs_rows cs).
Proof.
  intros H. pose proof (station_trace _ _ _ _ _ H) as Hw. cbv zeta in Hw.
  apply computeStation_Some in H. cbv zeta in H.
  destruct H as (_ & _ & _ & _ & _ & _ & Hrows & _).
  pose proof (strictly_sorted_neighbours (cs_rows cs)) as Hstrict.
  rewrite Hrows in Hstrict at 1 2.
  specialize (Hstrict (station_rows_sorted rho k st) (station_rows_radius rho k st)).
  rewrite Hstrict. rewrite Forall_forall. split.
  - intros Hno pc Hpc.
    destruct (cr_r (snd pc) =? cr_r (fst pc)) eqn:E; [|reflexivity].
    exfalso. apply (Hno (cr_r (snd pc))). rewrite Hw. apply in_or_app. left.
    apply In_duplicate. eauto.
  - intros Hall r Hin. rewrite Hw in Hin. apply in_app_or in Hin.
    destruct Hin as [Hin|Hin].
    + apply In_duplicate in Hin.
      destruct Hin as (pc & Hpc & He & _). rewrite (Hall pc Hpc) in He. discriminate.
    + apply in_app_or in Hin.
      destruct Hin as [Hin|Hin];
        [destruct (isFinite _) | destruct (tail_applies _ _)];
        cbn in Hin; intuition discriminate.
Qed.

(** X2: the profile checks have no false positives and miss nothing.  The
    trace of a processed station has no duplicate-radius warning exactly
    when the radii of its rows ascend strictly (no two rows share a radius),
    and no non-monotonic warning exactly when the velocity never increases
    from a row to the next. *)
Theorem X2_profile_warnings_exact rho D k st cs :
  computeStation rho D k st = Some cs ->
  ((forall r, ~ In (Duplicate_r r) (warnings (cs_trace cs)))
   <-> StronglySorted radius_lt (cs_rows cs))
  /\ ((forall r a b, ~ In (Non_monotonic r a b) (warnings (cs_trace cs)))
      <-> Forall (fun pc => (cr_u (fst pc) <? cr_u (snd pc)) = false)
            (consecutive (cs_rows cs))).
Proof.
  intros H. split; [exact (duplicate_free_iff _ _ _ _ _ H)|].
  pose proof (station_trace _ _ _ _ _ H) as Hw. cbv zeta in Hw.
  rewrite Forall_forall. split.
  - intros Hno pc Hpc.
    destruct (cr_u (fst pc) <? cr_u (snd pc)) eqn:E; [|reflexivity].
    exfalso. apply (Hno (cr_r (snd pc)) (cr_u (fst pc)) (cr_u (snd pc))).
    rewrite Hw. apply in_or_app. left. apply In_non_monotonic. exists pc. auto.
  - intros Hall r a b Hin. rewrite Hw in Hin. apply in_app_or in Hin.
    destruct Hin as [Hin|Hin].
    + apply In_non_monotonic in Hin.
      destruct Hin as (pc & Hpc & He & _). rewrite (Hall pc Hpc) in He. discriminate.
    + apply in_app_or in Hin.
      destruct Hin as [Hin|Hin];
        [destruct (isFinite _) | destruct (tail_applies _ _)];
        cbn in Hin; intuition discriminate.
Qed.

(** X3: the half-velocity radius of a processed station is a finite number
    or NaN, never an infinity; it is NaN exactly when the trace carries the
    no-crossing warning; the tail-skipped warning is present exactly when
    the tail correction does not apply; and whenever r½ is NaN, whatever the
    reason, the tail is skipped, the collapse sequence is empty, rmse is NaN
    and mdot and I are the bare trapezoid totals. *)
Theorem X3_unresolved_half_radius rho D k st cs :
  computeStation rho D k st = Some cs ->
  (isFinite (cs_rHalf cs) = true \/ cs_rHalf cs = nan)
  /\ (In No_crossing (warnings (cs_trace cs)) <-> cs_rHalf cs = nan)
  /\ (In Tail_skipped (warnings (cs_trace cs))
      <-> tail_applies (cs_Uc cs) (cs_rHalf cs) = false)
  /\ (cs_rHalf cs = nan ->
      In Tail_skipped (warnings (cs_trace cs))
      /\ cs_collapse cs = []
      /\ cs_rmse cs = nan
      /\ cs_mdot cs = 2 * Math_PI * trapezoid (mass_integrand (cs_rho cs)) (cs_rows cs)
      /\ cs_I cs = 2 * Math_PI * trapezoid (momentum_integrand (cs_rho cs)) (cs_rows cs)).
Proof.
  intros H. pose proof (station_trace _ _ _ _ _ H) as Hw.
  apply computeStation_Some in H. cbv zeta in H, Hw.
  destruct H as (_ & _ & _ & _ & Hrho & _ & Hrows & HU & HrH & Hm & HI & _ & Hc & Hr).
  rewrite <- Hrows in HU, HrH, Hm, HI, Hc, Hr.
  rewrite <- HU in HrH, Hm, HI, Hc, Hr.
  rewrite <- HrH in Hm, HI, Hc, Hr.
  set (v := interpolateRhalf _ _ _ _) in *.
  assert (Hnan : cs_rHalf cs = nan <-> isFinite v = false).
  { rewrite HrH. destruct (isFinite v) eqn:Hv.
    - split; [|discriminate]. intros E. rewrite E in Hv. discriminate.
    - tauto. }
  assert (Hmid : forall w, In w (warnings (cs_trace cs)) -> ~ profile_warning w ->
                 In w ((if isFinite v then [] else [No_crossing])
                       ++ (if tail_applies (cs_Uc cs) (cs_rHalf cs)
                           then [] else [Tail_skipped]))).
  { intros w Hin Hp. rewrite Hw in Hin. apply in_app_or in Hin.
    destruct Hin as [Hin|Hin]; [|exact Hin].
    now apply profile_warnings_profile in Hin. }
  assert (Hskip : In Tail_skipped (warnings (cs_trace cs))
                  <-> tail_applies (cs_Uc cs) (cs_rHalf cs) = false).
  { split.
    - intros Hin. apply Hmid in Hin; [|exact (fun f => f)].
      destruct (tail_applies _ _); [|reflexivity].
      rewrite app_nil_r in Hin. destruct (isFinite v); cbn in Hin; intuition discriminate.
    - intros E. rewrite Hw, E. apply in_or_app. right. apply in_or_app. right. now left. }
  split; [|split; [|split; [exact Hskip|]]].
  - rewrite HrH. destruct (isFinite v) eqn:Hv; [left; exact Hv | right; reflexivity].
  - rewrite Hnan. split.
    + intros Hin. apply Hmid in Hin; [|exact (fun f => f)].
      destruct (isFinite v); [|reflexivity].
      destruct (tail_applies _ _); cbn in Hin; intuition discriminate.
    + intros E. rewrite Hw, E. apply in_or_app. right. now left.
  - intros E.
    assert (Ht : tail_applies (cs_Uc cs) (cs_rHalf cs) = false).
    { unfold tail_applies. rewrite E. change (isFinite nan) with false.
      now rewrite andb_false_r. }
    rewrite Ht in Hm, HI. rewrite E in Hc, Hr.
    change (isFinite nan) with false in Hc, Hr. cbn [andb] in Hc, Hr.
    rewrite Hrho. split; [now apply Hskip|]. auto.
Qed.

(** Inserting an element keeps the elements of any one key in their
    order. *)
Lemma filter_insert {A : Type} (key : A -> number) (v : number) (x : A) l :
  filter (fun a => key a =? v) (insert (fun a b => key a - key b) x l)
  = filter (fun a => key a =? v) (x :: l).
Proof.
  induction l as [|y l IH]; [reflexivity|].
  cbn [insert]. rewrite sub_pos.
  destruct (key y <? key x) eqn:Hlt; [|reflexivity].
  cbn [filter] in *. rewrite IH.
  destruct (key x =? v) eqn:Ex; [|reflexivity].
  destruct (key y =? v) eqn:Ey; [|reflexivity].
  exfalso.
  rewrite eqb_spec in Ex, Ey. rewrite ltb_spec in Hlt.
  unfold SFeqb, SFltb in *.
  destruct (Prim2SF (key x)) as [sx| sx| |sx mx ex],
           (Prim2SF (key y)) as [sy| sy| |sy my ey],
           (Prim2SF v) as [sv| sv| |sv mv ev];
    cbn in Ex, Ey, Hlt; try discriminate;
    try (destruct sx, sy, sv; discriminate).
  destruct sx, sy, sv; try discriminate;
    destruct (ex ?= ev)%Z eqn:C1; try discriminate;
    destruct (ey ?= ev)%Z eqn:C2; try discriminate;
    apply Z.compare_eq in C1, C2; subst;
    rewrite Z.compare_refl in Hlt;
    destruct (Pos.compare_cont Eq mx mv) eqn:P1; try discriminate;
    destruct (Pos.compare_cont Eq my mv) eqn:P2; try discriminate;
    apply Pos.compare_eq in P1, P2; subst;
    rewrite Pos.compare_cont_refl in Hlt; discriminate.
Qed.

Lemma filter_sort {A : Type} (key : A -> number) (v : number) l :
  filter (fun a => key a =? v) (sort (fun a b => key a - key b) l)
  = filter (fun a => key a =? v) l.
Proof.
  induction l as [|x l IH]; [reflexivity|].
  cbn [sort fold_right]. fold (sort (fun a b => key a - key b) l).
  rewrite filter_insert. cbn [filter]. now rewrite IH.
Qed.

(** X4: sorting the rows by radius is stable: for every radius, the rows
    of a processed station that have this radius are the valid input rows
    with this radius, in their input order. *)
Theorem X4_sort_is_stable rho D k st cs (v : number) :
  computeStation rho D k st = Some cs ->
  filter (fun row => cr_r row =? v) (cs_rows cs)
  = filter (fun row => cr_r row =? v)
      (map (computeRow rho k) (parseRows (st_rows st))).
Proof.
  intros H. apply computeStation_Some in H. cbv zeta in H.
  destruct H as (_ & _ & _ & _ & _ & _ & -> & _).
  apply (filter_sort cr_r).
Qed.

(** *** Which rows matter, and in which order *)

(** The result for a station depends on its rows only through the ordered
    computed rows. *)
Lemma computeStation_rows rho D k a b :
  st_id a = st_id b -> st_xd a = st_xd b ->
  st_variac a = st_variac b -> st_port1 a = st_port1 b ->
  List.length (parseRows (st_rows a)) = List.length (parseRows (st_rows b)) ->
  station_rows rho k a = station_rows rho k b ->
  computeStation rho D k a = computeStation rho D k b.
Proof.
  unfold computeStation, station_rows. intros -> -> -> -> -> ->. reflexivity.
Qed.

Lemma parseRows_app a b : parseRows (a ++ b) = parseRows a ++ parseRows b.
Proof. unfold parseRows. now rewrite map_app, filter_app. Qed.

Lemma parseRows_valid rows : parseRows (filter valid_row rows) = parseRows rows.
Proof.
  unfold parseRows. induction rows as [|row rows IH]; [reflexivity|].
  cbn [filter map]. unfold valid_row at 1.
  destruct (isFinite (parseFloat (row_r row)) && isFinite (parseFloat (row_dp row))) eqn:E;
    cbn [filter map rmm dpIn]; rewrite E, IH; reflexivity.
Qed.

Lemma parseRows_invalid row : valid_row row = false -> parseRows [row] = [].
Proof. unfold parseRows, valid_row. cbn. now intros ->. Qed.

Lemma set_rows_parse rho D k st rows :
  parseRows rows = parseRows (st_rows st) ->
  computeStation rho D k (set_rows st rows) = computeStation rho D k st.
Proof.
  intros E. apply computeStation_rows; try reflexivity.
  - cbn [set_rows st_rows]. now rewrite E.
  - unfold station_rows. cbn [set_rows st_rows]. now rewrite E.
Qed.

Lemma filteri_from_past {A : Type} (l : list A) :
  forall m n, (n < m)%nat ->
    filteri_from (fun _ index => negb (Nat.eqb index n)) m l = l.
Proof.
  induction l as [|x l IH]; intros m n Hm; [reflexivity|].
  cbn [filteri_from]. replace (Nat.eqb m n) with false
    by (symmetry; apply Nat.eqb_neq; lia).
  cbn [negb]. f_equal. apply IH. lia.
Qed.

Lemma filteri_from_drop {A : Type} (l : list A) :
  forall n i, filteri_from (fun _ index => negb (Nat.eqb index (i + n))) i l
              = firstn n l ++ skipn (S n) l.
Proof.
  induction l as [|x l IH]; intros n i.
  - now destruct n.
  - cbn [filteri_from]. destruct n as [|n].
    + rewrite Nat.add_0_r, Nat.eqb_refl. cbn [negb firstn skipn app].
      apply filteri_from_past. lia.
    + replace (Nat.eqb i (i + S n)) with false by (symmetry; apply Nat.eqb_neq; lia).
      cbn [negb firstn skipn app]. f_equal.
      replace (i + S n)%nat with (S i + n)%nat by lia. apply IH.
Qed.

Lemma removeRow_rows rowIndex st :
  st_rows (removeRow rowIndex st)
  = firstn rowIndex (st_rows st) ++ skipn (S rowIndex) (st_rows st).
Proof. cbn. unfold filteri. apply (filteri_from_drop (st_rows st) rowIndex 0). Qed.

(** X5: rows that do not count are inert.  A station gives the same result
    (dropped, or the same computed station) after a blank row is added,
    after any row whose radius or pressure is not a finite number is
    removed, and when all such rows are left out at once; and removing the
    row just added gives the station back. *)
Theorem X5_blank_rows_are_inert rho D k st id :
  computeStation rho D k (addRow id st) = computeStation rho D k st
  /\ computeStation rho D k (set_rows st (filter valid_row (st_rows st)))
     = computeStation rho D k st
  /\ (forall rowIndex row,
        nth_error (st_rows st) rowIndex = Some row -> valid_row row = false ->
        computeStation rho D k (removeRow rowIndex st) = computeStation rho D k st)
  /\ removeRow (List.length (st_rows st)) (addRow id st) = st.
Proof.
  split; [|split; [|split]].
  - apply set_rows_parse. rewrite parseRows_app.
    rewrite (parseRows_invalid {| row_id := id; row_r := ""; row_dp := "" |});
      [apply app_nil_r | reflexivity].
  - apply set_rows_parse, parseRows_valid.
  - intros rowIndex row Hn Hv.
    rewrite <- (set_rows_parse rho D k st (st_rows (removeRow rowIndex st))).
    + reflexivity.
    + rewrite removeRow_rows.
      destruct (nth_error_split _ _ Hn) as (l1 & l2 & E & Hl). rewrite E.
      subst rowIndex. rewrite firstn_app, skipn_app, firstn_all.
      rewrite Nat.sub_diag.
      replace (S (List.length l1) - List.length l1)%nat with 1%nat by lia.
      rewrite (skipn_all2 l1) by lia. cbn [firstn skipn app].
      rewrite app_nil_r, !parseRows_app.
      change (row :: l2) with ([row] ++ l2).
      now rewrite parseRows_app, (parseRows_invalid row Hv).
  - destruct st as [i x v p rows]. unfold removeRow, addRow, set_rows.
    cbn [st_id st_xd st_variac st_port1 st_rows]. f_equal.
    unfold filteri. rewrite (filteri_from_drop _ (List.length rows) 0).
    rewrite firstn_app, Nat.sub_diag, firstn_all. cbn [firstn].
    rewrite skipn_all2 by (rewrite length_app; cbn; lia).
    now rewrite !app_nil_r.
Qed.

Lemma Permutation_filter {A : Type} (keep : A -> bool) (l l' : list A) :
  Permutation l l' -> Permutation (filter keep l) (filter keep l').
Proof.
  induction 1 as [|x l l' _ IH|x y l|l l' l'' _ IH1 _ IH2]; cbn [filter].
  - constructor.
  - destruct (keep x); [now constructor | exact IH].
  - destruct (keep x); destruct (keep y);
      try apply Permutation_refl. apply perm_swap.
  - eapply perm_trans; eassumption.
Qed.

(** Two arrangements of the same rows, one strictly ascending by radius and
    one ascending, are the same list. *)
Lemma sorted_perm_eq (l : list ComputedRow) :
  forall l', Permutation l l' ->
    Forall (fun row => is_nan (cr_r row) = false) l ->
    StronglySorted radius_lt l -> StronglySorted radius_le l' -> l = l'.
Proof.
  induction l as [|a l IH]; intros l' Hp Hn Hlt Hle.
  - apply Permutation_nil in Hp. now subst.
  - destruct l' as [|b l'].
    { apply Permutation_sym, Permutation_nil in Hp. discriminate. }
    apply StronglySorted_inv in Hlt. destruct Hlt as [Hlt Ha].
    apply StronglySorted_inv in Hle. destruct Hle as [Hle Hb].
    pose proof (Forall_inv Hn) as Na. pose proof (Forall_inv_tail Hn) as Hn'.
    cbv beta in Na.
    assert (E : a = b).
    { assert (Ia : In a (b :: l')) by (apply (Permutation_in a Hp); now left).
      assert (Ib : In b (a :: l))
        by (apply (Permutation_in b (Permutation_sym Hp)); now left).
      destruct Ia as [->|Ia]; [reflexivity|].
      destruct Ib as [->|Ib]; [reflexivity|].
      exfalso. rewrite Forall_forall in Ha, Hb, Hn'.
      specialize (Ha b Ib). specialize (Hb a Ia). specialize (Hn' b Ib).
      unfold radius_lt, radius_le in *.
      rewrite (ltb_value _ _ Na Hn') in Ha. rewrite (leb_value _ _ Hn' Na) in Hb.
      apply Z.ltb_lt in Ha. apply Z.leb_le in Hb. lia. }
    subst b. f_equal. apply IH; auto. now apply Permutation_cons_inv in Hp.
Qed.

(** X6: the order in which the rows of a station are entered does not
    matter, as long as no two valid rows share a radius: if a station is
    processed without a duplicate-radius warning, every rearrangement of its
    rows gives exactly the same computed station. *)
Theorem X6_row_order_is_irrelevant rho D k st cs rows :
  computeStation rho D k st = Some cs ->
  (forall r, ~ In (Duplicate_r r) (warnings (cs_trace cs))) ->
  Permutation (st_rows st) rows ->
  computeStation rho D k (set_rows st rows) = Some cs.
Proof.
  intros H Hno Hp. rewrite <- H.
  apply (duplicate_free_iff _ _ _ _ _ H) in Hno.
  apply computeStation_Some in H. cbv zeta in H.
  destruct H as (_ & _ & _ & _ & _ & _ & Hrows & _). rewrite Hrows in Hno.
  assert (Hpp : Permutation (parseRows (st_rows st)) (parseRows rows)).
  { unfold parseRows. now apply Permutation_filter, Permutation_map. }
  apply computeStation_rows; try reflexivity.
  - cbn [set_rows st_rows]. symmetry. now apply Permutation_length.
  - symmetry. apply sorted_perm_eq.
    + unfold station_rows. cbn [set_rows st_rows].
      eapply perm_trans; [apply Permutation_sym, sort_perm|].
      eapply perm_trans; [|apply sort_perm].
      now apply Permutation_map.
    + apply station_rows_radius.
    + exact Hno.
    + apply station_rows_sorted.
Qed.

(** *** Editing the list of stations *)

Lemma mapNotNull_app {A B : Type} (f : A -> option B) l l' :
  mapNotNull f (l ++ l') = mapNotNull f l ++ mapNotNull f l'.
Proof.
  induction l as [|x l IH]; [reflexivity|].
  cbn [app mapNotNull]. rewrite IH. now destruct (f x).
Qed.

Lemma mapNotNull_keep {A B : Type} (f : A -> option B)
  (keep : A -> bool) (keep' : B -> bool) l :
  (forall x y, f x = Some y -> keep' y = keep x) ->
  mapNotNull f (filter keep l) = filter keep' (mapNotNull f l).
Proof.
  intros H. induction l as [|x l IH]; [reflexivity|].
  cbn [filter mapNotNull]. destruct (f x) as [y|] eqn:E.
  - cbn [filter]. rewrite (H x y E).
    destruct (keep x); cbn [mapNotNull]; rewrite ?E, IH; reflexivity.
  - destruct (keep x); cbn [mapNotNull]; rewrite ?E, IH; reflexivity.
Qed.

Lemma computeStation_id rho D k st cs :
  computeStation rho D k st = Some cs -> cs_id cs = st_id st.
Proof.
  intros H. apply computeStation_Some in H. cbv zeta in H. tauto.
Qed.

Lemma results_eq stations g :
  results (computeAll stations g)
  = mapNotNull (computeStation (settings_rho g) (settings_D g) (settings_unitIsKPa g))
      stations.
Proof. reflexivity. Qed.

(** X7: the stations are processed independently of each other.  The
    results of a list of stations put after another are the results of the
    first followed by those of the second; a station just added by the
    panel contributes nothing, whatever x/D it was given; and removing the
    stations of one identifier removes exactly the results with this
    identifier and changes no other. *)
Theorem X7_station_list_edits (String_ : number -> string) stations more g
  (id row1 row2 : string) (xdVal : option number) :
  results (computeAll (stations ++ more) g)
  = results (computeAll stations g) ++ results (computeAll more g)
  /\ results (computeAll (addStation String_ id row1 row2 xdVal stations) g)
     = results (computeAll stations g)
  /\ results (computeAll (removeStation id stations) g)
     = filter (fun cs => negb (String.eqb (cs_id cs) id))
         (results (computeAll stations g)).
Proof.
  rewrite !results_eq.
  split; [apply mapNotNull_app|split].
  - unfold addStation. cbv zeta. rewrite mapNotNull_app. cbn [mapNotNull].
    match goal with
    | |- context [computeStation ?r ?d ?u ?s] =>
        replace (computeStation r d u s) with (@None ComputedStation)
    end; [apply app_nil_r|].
    symmetry. apply computeStation_None. unfold usable. cbn [st_rows].
    replace (List.length (filter valid_row _)) with 0%nat by reflexivity.
    apply andb_false_r.
  - unfold removeStation. apply mapNotNull_keep.
    intros st cs H. now rewrite (computeStation_id _ _ _ _ _ H).
Qed.

(** X8: editing a station changes no other station's result: when the
    station of identifier [id] is replaced by one that keeps this
    identifier (as every edit of the panel does), the results with another
    identifier are what they were. *)
Theorem X8_update_is_local stations g (id : string) updatedStation :
  st_id updatedStation = id ->
  filter (fun cs => negb (String.eqb (cs_id cs) id))
    (results (computeAll (updateStation id updatedStation stations) g))
  = filter (fun cs => negb (String.eqb (cs_id cs) id))
      (results (computeAll stations g)).
Proof.
  intros Hid. rewrite !results_eq.
  set (f := computeStation _ _ _).
  unfold updateStation.
  induction stations as [|s stations IH]; [reflexivity|].
  cbn [map mapNotNull].
  destruct (String.eqb (st_id s) id) eqn:E.
  - assert (Hs : forall st, st_id st = id ->
                   forall l, filter (fun cs => negb (String.eqb (cs_id cs) id))
                               (match f st with Some y => y :: l | None => l end)
                             = filter (fun cs => negb (String.eqb (cs_id cs) id)) l).
    { intros st Hst l. destruct (f st) as [y|] eqn:F; [|reflexivity].
      cbn [filter]. rewrite (computeStation_id _ _ _ _ _ F), Hst, String.eqb_refl.
      reflexivity. }
    apply String.eqb_eq in E.
    rewrite (Hs updatedStation Hid), (Hs s E). exact IH.
  - destruct (f s) as [y|]; [|exact IH]. cbn [filter].
    destruct (negb (String.eqb (cs_id y) id)); [now rewrite IH | exact IH].
Qed.

(** X9: the compute button.  The alert is raised exactly when no station
    is usable, and then the displayed results stay what they were; otherwise
    the display is replaced by the results of all the stations, which are
    not empty. *)
Theorem X9_compute_button stations g shown :
  let click := handleCompute Math_log Math_exp stations g shown in
  (snd click = true <-> Forall (fun st => usable st = false) stations)
  /\ (snd click = true -> fst click = shown)
  /\ (snd click = false ->
      fst click = Some (computeAll stations g)
      /\ results (computeAll stations g) <> []).
Proof.
  cbv zeta. unfold handleCompute.
  assert (Hu : filter usable stations = []
               <-> Forall (fun st => usable st = false) stations).
  { rewrite Forall_forall. split.
    - intros E st Hst. destruct (usable st) eqn:U; [|reflexivity].
      assert (Hin : In st (filter usable stations)) by (apply filter_In; auto).
      rewrite E in Hin. destruct Hin.
    - intros Hall. induction stations as [|s l IH]; [reflexivity|].
      cbn [filter]. rewrite (Hall s (or_introl eq_refl)).
      apply IH. intros st Hst. apply Hall. now right. }
  assert (HF : Forall2
                 (fun st cs =>
                    computeStation (settings_rho g) (settings_D g) (settings_unitIsKPa g) st
                    = Some cs)
                 (filter usable stations) (results (computeAll stations g))).
  { apply mapNotNull_filter. intros st. apply computeStation_None. }
  destruct (results (computeAll stations g)) as [|cs l] eqn:R; cbn [List.length Nat.eqb fst snd].
  - split; [|split; [reflexivity | discriminate]].
    split; [|reflexivity]. intros _. apply Hu. now inversion HF.
  - split; [|split; [discriminate|]].
    + split; [discriminate|]. intros Hall. apply Hu in Hall. rewrite Hall in HF.
      inversion HF.
    + intros _. split; [reflexivity | discriminate].
Qed.

(** *** The output panel *)

Lemma sort_map {A B : Type} (f : A -> B) (cmp : A -> A -> number) (cmp' : B -> B -> number) l :
  (forall a b, cmp' (f a) (f b) = cmp a b) ->
  sort cmp' (map f l) = map f (sort cmp l).
Proof.
  intros H. induction l as [|x l IH]; [reflexivity|].
  cbn [map sort fold_right]. fold (sort cmp' (map f l)). fold (sort cmp l).
  rewrite IH. generalize (sort cmp l). intros s.
  induction s as [|y s IHs]; [reflexivity|].
  cbn [map insert]. rewrite H. destruct (0 <? cmp x y); [|reflexivity].
  cbn [map]. now rewrite IHs.
Qed.

(** In a list ordered by an integer key, the first element has the least
    key and the last the greatest. *)
Lemma sorted_key_ends {A : Type} (key : A -> Z) (d : A) l :
  StronglySorted (fun a b => (key a <= key b)%Z) l ->
  Forall (fun x => (key (nth 0 l d) <= key x)%Z
                   /\ (key x <= key (nth (List.length l - 1) l d))%Z) l.
Proof.
  induction l as [|a [|b rest] IH]; intros Hs.
  - constructor.
  - constructor; [|constructor]. cbn. lia.
  - apply StronglySorted_inv in Hs. destruct Hs as [Hs Ha].
    specialize (IH Hs).
    replace (nth (List.length (a :: b :: rest) - 1) (a :: b :: rest) d)
      with (nth (List.length (b :: rest) - 1) (b :: rest) d)
      by (cbn [List.length]; rewrite !Nat.sub_succ, !Nat.sub_0_r; reflexivity).
    change (nth 0 (a :: b :: rest) d) with a.
    change (nth 0 (b :: rest) d) with b in IH.
    pose proof (Forall_inv IH) as [_ Hb]. pose proof (Forall_inv Ha) as Hab.
    cbv beta in Hab.
    constructor; [lia|].
    rewrite Forall_forall in *. intros x Hx.
    specialize (IH x Hx). specialize (Ha x Hx). cbv beta in Ha. lia.
Qed.

Lemma results_xd stations g :
  Forall (fun cs => is_nan (cs_xd cs) = false) (results (computeAll stations g)).
Proof.
  rewrite Forall_forall. intros cs Hcs.
  destruct (results_In Math_log Math_exp _ _ _ Hcs) as (st & _ & Hst).
  apply computeStation_Some in Hst. cbv zeta in Hst.
  destruct Hst as (Hxd & _ & _ & -> & _).
  unfold isFinite, is_finite in Hxd.
  destruct (is_nan (parseFloat (st_xd st))); [discriminate | reflexivity].
Qed.

Lemma results_sorted stations g :
  StronglySorted (fun a b => (value (cs_xd a) <= value (cs_xd b))%Z)
    (sort (fun a b => cs_xd a - cs_xd b) (results (computeAll stations g))).
Proof.
  apply (sort_key_sorted (fun a b => cs_xd a - cs_xd b)
           (fun cs => value (cs_xd cs)) (fun cs => is_nan (cs_xd cs) = false)).
  - intros a b Pa Pb. rewrite sub_pos. apply (ltb_value _ _ Pb Pa).
  - apply results_xd.
Qed.

Lemma results_length stations g :
  List.length (results (computeAll stations g))
  = List.length (filter usable stations).
Proof.
  symmetry. eapply Forall2_length.
  apply (mapNotNull_filter
           (computeStation (settings_rho g) (settings_D g) (settings_unitIsKPa g)) usable).
  intros st. apply computeStation_None.
Qed.

(** X10: the three headline percentages.  They are shown exactly when
    two or more stations are usable, and nothing is shown before the first
    computation; they compare a station of greatest x/D (the numerator's
    side) with a station of least x/D (the baseline), each a processed
    station of the batch, wherever these stand in the input. *)
Theorem X10_headline_percentages stations g :
  let res := computeAll stations g in
  kpiData None = None
  /\ (kpiData (Some res) = None <-> (List.length (filter usable stations) < 2)%nat)
  /\ (forall kpi, kpiData (Some res) = Some kpi ->
      exists first last_,
        In first (results res) /\ In last_ (results res)
        /\ Forall (fun cs => xd_le first cs /\ xd_le cs last_) (results res)
        /\ dUc kpi = pct (cs_Uc last_) (cs_Uc first)
        /\ dmd kpi = pct (cs_mdot last_) (cs_mdot first)
        /\ dI kpi = pct (cs_I last_) (cs_I first)).
Proof.
  cbv zeta. split; [reflexivity|]. unfold kpiData.
  rewrite results_length.
  destruct (List.length (filter usable stations) <? 2)%nat eqn:L.
  - apply Nat.ltb_lt in L. split; [tauto | discriminate].
  - apply Nat.ltb_ge in L. split.
    { split; [discriminate | lia]. }
    intros kpi E. injection E as <-. cbv zeta.
    set (sorted := sort _ _).
    pose proof (results_sorted stations g) as Hs. fold sorted in Hs.
    pose proof (sorted_key_ends (fun cs => value (cs_xd cs)) no_station sorted Hs) as He.
    assert (Hlen : List.length sorted = List.length (filter usable stations)).
    { unfold sorted. rewrite sort_length. apply results_length. }
    exists (nth 0 sorted no_station), (nth (List.length sorted - 1) sorted no_station).
    pose proof (results_xd stations g) as Hn. rewrite Forall_forall in Hn, He.
    assert (I0 : In (nth 0 sorted no_station) (results (computeAll stations g))).
    { apply (sort_In (fun a b => cs_xd a - cs_xd b)). apply nth_In.
      change (0 < List.length sorted)%nat. lia. }
    assert (I1 : In (nth (List.length sorted - 1) sorted no_station)
                   (results (computeAll stations g))).
    { apply (sort_In (fun a b => cs_xd a - cs_xd b)). apply nth_In.
      change (List.length sorted - 1 < List.length sorted)%nat. lia. }
    split; [exact I0|]. split; [exact I1|].
    split; [|cbn [dUc dmd dI]; auto].
    rewrite Forall_forall. intros cs Hcs.
    assert (Hcs' : In cs sorted) by (now apply (sort_In (fun a b => cs_xd a - cs_xd b))).
    destruct (He cs Hcs') as [H0 H1]. unfold xd_le.
    rewrite (leb_value _ _ (Hn _ I0) (Hn _ Hcs)), (leb_value _ _ (Hn _ Hcs) (Hn _ I1)).
    split; now apply Z.leb_le.
Qed.

(** X11: the trend plots.  Their points are the results' points in
    ascending order of x/D, the points of any one x/D staying in the order
    of the results; they are the points of the results sorted by x/D; there
    is one point per usable station; and the headline percentages compare
    the last point of the trend with the first. *)
Theorem X11_trend_points stations g :
  let res := computeAll stations g in
  let points := trendData res in
  points = map trendPoint (sort (fun a b => cs_xd a - cs_xd b) (results res))
  /\ Permutation (map trendPoint (results res)) points
  /\ StronglySorted trend_le points
  /\ (forall v, filter (fun p => tp_xd p =? v) points
                = filter (fun p => tp_xd p =? v) (map trendPoint (results res)))
  /\ List.length points = List.length (filter usable stations)
  /\ (forall kpi, kpiData (Some res) = Some kpi ->
      forall d,
        let first := nth 0 points d in
        let last_ := nth (List.length points - 1) points d in
        dUc kpi = pct (tp_Uc last_) (tp_Uc first)
        /\ dmd kpi = pct (tp_mdot last_) (tp_mdot first)
        /\ dI kpi = pct (tp_I last_) (tp_I first)).
Proof.
  cbv zeta.
  assert (E : trendData (computeAll stations g)
              = map trendPoint (sort (fun a b => cs_xd a - cs_xd b)
                                  (results (computeAll stations g)))).
  { unfold trendData. apply sort_map. reflexivity. }
  split; [exact E|]. split; [apply sort_perm|]. split; [|split; [|split]].
  - rewrite E. pose proof (results_sorted stations g) as Hs.
    pose proof (sort_Forall (fun a b => cs_xd a - cs_xd b) _ _ (results_xd stations g)) as Hn.
    revert Hs Hn. generalize (sort (fun a b => cs_xd a - cs_xd b)
                                (results (computeAll stations g))).
    intros l Hs Hn. induction Hs as [|a l Hs IH Ha]; [constructor|].
    pose proof (Forall_inv Hn) as Na. pose proof (Forall_inv_tail Hn) as Hn'.
    cbn [map]. constructor; [now apply IH|].
    rewrite Forall_map. rewrite Forall_forall in *. intros b Hb.
    unfold trend_le. cbn [trendPoint tp_xd].
    rewrite (leb_value _ _ Na (Hn' b Hb)). apply Z.leb_le. now apply Ha.
  - intros v. apply (filter_sort tp_xd).
  - unfold trendData. rewrite sort_length, length_map. apply results_length.
  - intros kpi Hk d. cbv zeta. rewrite E. unfold kpiData in Hk.
    destruct (List.length (results (computeAll stations g)) <? 2)%nat eqn:L;
      [discriminate|].
    apply Nat.ltb_ge in L. injection Hk as <-. cbv zeta. cbn [dUc dmd dI].
    set (sorted := sort _ _) in *.
    assert (Hlen : (0 < List.length sorted)%nat).
    { unfold sorted. rewrite sort_length. lia. }
    rewrite length_map.
    rewrite !(nth_indep (map trendPoint sorted) d (trendPoint no_station))
      by (rewrite length_map; lia).
    rewrite !map_nth. cbn [trendPoint tp_Uc tp_mdot tp_I]. auto.
Qed.

(** *** A repeated innermost radius *)

(** Equal numbers other than zero are the same binary64 value. *)
Lemma eqb_nonzero_eq x y : (y =? x) = true -> (x =? 0) = false -> y = x.
Proof.
  rewrite !eqb_spec. change (Prim2SF 0) with (S754_zero false). unfold SFeqb.
  intros E Z. apply Prim2SF_inj. revert E Z.
  destruct (Prim2SF x) as [[]|[]| |[] mx ex], (Prim2SF y) as [[]|[]| |[] my ey];
    cbn [SFcompare]; intros E Z; try discriminate; try reflexivity;
    destruct (ey ?= ex)%Z eqn:C; try discriminate;
    apply Z.compare_eq in C;
    destruct (Pos.compare_cont Eq my mx) eqn:P; try discriminate;
    apply Pos.compare_eq in P; subst; reflexivity.
Qed.

Lemma sub_self x : is_zero (x - x) = true \/ is_nan (x - x) = true.
Proof.
  rewrite is_zero_spec, is_nan_spec, sub_spec. unfold SF64sub.
  destruct (Prim2SF x) as [s|s| |s m e]; cbn [SFsub].
  - left. destruct s; reflexivity.
  - right. destruct s; reflexivity.
  - right. reflexivity.
  - left. cbv zeta.
    match goal with
    | |- context [binary_normalize _ _ ?m _ _] =>
        replace m with 0%Z by (symmetry; apply Z.sub_diag)
    end.
    reflexivity.
Qed.

Lemma div_by_zero x y :
  is_zero y = true \/ is_nan y = true -> isFinite (x / y) = false.
Proof.
  rewrite is_zero_spec, is_nan_spec, isFinite_spec, div_spec.
  destruct (Prim2SF x) as [sx|sx| |sx mx ex], (Prim2SF y) as [sy|sy| |sy my ey];
    intros [H|H]; cbn in H; try discriminate; reflexivity.
Qed.

Lemma mul_nonfinite x y : isFinite x = false -> isFinite (x * y) = false.
Proof.
  rewrite !isFinite_spec, mul_spec.
  destruct (Prim2SF x) as [sx|sx| |sx mx ex], (Prim2SF y) as [sy|sy| |sy my ey];
    intros H; try discriminate; reflexivity.
Qed.

Lemma sub_nonfinite x y : isFinite y = false -> isFinite (x - y) = false.
Proof.
  rewrite !isFinite_spec, sub_spec.
  destruct (Prim2SF x) as [sx|sx| |sx mx ex], (Prim2SF y) as [sy|[]| |sy my ey];
    intros H; try discriminate; try reflexivity; destruct sx; reflexivity.
Qed.

Lemma add_nonfinite x y : isFinite y = false -> isFinite (x + y) = false.
Proof.
  rewrite !isFinite_spec, add_spec.
  destruct (Prim2SF x) as [sx|sx| |sx mx ex], (Prim2SF y) as [sy|[]| |sy my ey];
    intros H; try discriminate; try reflexivity; destruct sx; reflexivity.
Qed.

(** X12: a repeated innermost radius off the axis defeats the centerline
    estimate.  When the two innermost rows of a processed station have the
    same non-zero radius, the extrapolation to the axis divides by the zero
    difference of the radii: Uc is not a finite number (it is an infinity or
    NaN), whatever the velocities are; the trace carries the
    duplicate-radius warning for this radius and the tail correction is
    skipped. *)
Theorem X12_repeated_innermost_radius rho D k st cs row1 row2 rest :
  computeStation rho D k st = Some cs ->
  cs_rows cs = row1 :: row2 :: rest ->
  (cr_r row2 =? cr_r row1) = true ->
  (cr_r row1 =? 0) = false ->
  isFinite (cs_Uc cs) = false
  /\ In (Duplicate_r (cr_r row2)) (warnings (cs_trace cs))
  /\ In Tail_skipped (warnings (cs_trace cs)).
Proof.
  intros H E He Hz. pose proof (station_trace _ _ _ _ _ H) as Hw. cbv zeta in Hw.
  apply computeStation_Some in H. cbv zeta in H.
  destruct H as (_ & _ & _ & _ & _ & _ & Hrows & HUc & _).
  rewrite <- Hrows, E in HUc. cbn [map] in HUc.
  rewrite centerline_two in HUc. cbn [fst] in HUc. rewrite Hz in HUc.
  assert (Hr : cr_r row2 = cr_r row1) by (now apply eqb_nonzero_eq).
  rewrite Hr in HUc.
  assert (HU : isFinite (cs_Uc cs) = false).
  { rewrite HUc. destruct (Math_abs _ <? 1e-12).
    - apply add_nonfinite, div_by_zero, sub_self.
    - apply sub_nonfinite, mul_nonfinite, div_by_zero, sub_self. }
  split; [exact HU|]. rewrite Hw. split.
  - apply in_or_app. left. apply In_duplicate. exists (row1, row2).
    rewrite E. cbn [fst snd]. split; [now left | auto].
  - apply in_or_app. right. apply in_or_app. right.
    unfold tail_applies. rewrite HU. now left.
Qed.

(** *** The report and the plots *)

Lemma computeStation_D rho D k st cs :
  computeStation rho D k st = Some cs -> cs_D cs = D.
Proof.
  unfold computeStation.
  destruct (negb (isFinite (parseFloat (st_xd st)))); [discriminate|].
  destruct (List.length (parseRows (st_rows st)) <? 2)%nat; [discriminate|].
  cbv zeta. destruct (centerline _ _ _) as [Uc tr2].
  destruct (negb _); destruct (_ && _ && _ && _);
    intros H; injection H as <-; reflexivity.
Qed.

Lemma cm2m_zero x : is_zero x = true -> is_zero (cm2m x) = true.
Proof.
  unfold cm2m. rewrite !is_zero_spec, div_spec.
  destruct (Prim2SF x) as [s|s| |s m e]; try discriminate.
  intros _. destruct s; vm_compute; reflexivity.
Qed.

Lemma cm2m_nan x : is_nan x = true -> is_nan (cm2m x) = true.
Proof.
  unfold cm2m. rewrite !is_nan_spec, div_spec.
  destruct (Prim2SF x) as [s|s| |s m e]; try discriminate. reflexivity.
Qed.

(** X13: every station of a batch carries the batch's density, diameter
    and unit mode.  The diameter printed by the report, which converts the
    diameter text without the default, equals the diameter the stations
    carry when that text parses to a number other than 0 and NaN; otherwise
    the stations carry 2.54 cm while the report's value is NaN or zero. *)
Theorem X13_reported_diameter stations g :
  let res := computeAll stations g in
  (forall cs, In cs (results res) ->
     cs_D cs = settings_D g /\ cs_rho cs = settings_rho g
     /\ cs_unitIsKPa cs = settings_unitIsKPa g)
  /\ (truthy (parseFloat (g_Dcm g)) = true -> report_D res = settings_D g)
  /\ (truthy (parseFloat (g_Dcm g)) = false ->
      settings_D g = cm2m 2.54
      /\ (is_nan (report_D res) = true \/ is_zero (report_D res) = true)).
Proof.
  cbv zeta. unfold report_D, settings_D, or_else. cbn [globals].
  split; [|split].
  - intros cs Hcs. destruct (results_In Math_log Math_exp _ _ _ Hcs) as (st & _ & Hst).
    split; [exact (computeStation_D _ _ _ _ _ Hst)|].
    apply computeStation_Some in Hst. cbv zeta in Hst.
    destruct Hst as (_ & _ & _ & _ & Hrho & Hk & _). auto.
  - intros ->. reflexivity.
  - intros H. rewrite H. split; [reflexivity|].
    unfold truthy in H. apply negb_false_iff, orb_true_iff in H.
    destruct H as [H|H]; [left; now apply cm2m_nan | right; now apply cm2m_zero].
Qed.

Lemma is_zero_value v : is_zero v = true -> value v = 0%Z.
Proof.
  rewrite is_zero_spec. unfold value.
  destruct (Prim2SF v); try discriminate. reflexivity.
Qed.

(** What a set stores for a number: the number, with [-0] as [+0]. *)
Lemma stored_value v :
  is_nan v = false ->
  is_nan (if is_zero v then 0 else v) = false
  /\ value (if is_zero v then 0 else v) = value v.
Proof.
  intros Hn. destruct (is_zero v) eqn:Hz.
  - split; [reflexivity|]. now rewrite (is_zero_value v Hz).
  - auto.
Qed.

Lemma Set_add_spec members v :
  Forall (fun x => is_nan x = false) members ->
  NoDup (map value members) ->
  is_nan v = false ->
  Forall (fun x => is_nan x = false) (Set_add members v)
  /\ NoDup (map value (Set_add members v))
  /\ (forall z, In z (map value (Set_add members v))
                <-> In z (map value members) \/ z = value v).
Proof.
  intros Hm Hd Hv. unfold Set_add. cbv zeta.
  destruct (stored_value v Hv) as [Hs Hval].
  set (v' := if is_zero v then 0 else v) in *.
  change (value v' = value v) in Hval.
  destruct (existsb (same_value_zero v') members) eqn:E.
  - split; [exact Hm|]. split; [exact Hd|].
    intros z. split; [tauto|]. intros [H| ->]; [exact H|].
    apply existsb_exists in E. destruct E as (x & Hx & Hsv).
    unfold same_value_zero in Hsv. rewrite Hs in Hsv. cbn [andb] in Hsv.
    rewrite orb_false_r in Hsv.
    rewrite Forall_forall in Hm.
    rewrite (eqb_value _ _ Hs (Hm x Hx)) in Hsv. apply Z.eqb_eq in Hsv.
    rewrite <- Hval, Hsv. now apply in_map.
  - assert (Hnot : ~ In (value v) (map value members)).
    { intros Hin. apply in_map_iff in Hin. destruct Hin as (x & Hx & Hin).
      assert (Hsv : same_value_zero v' x = true).
      { unfold same_value_zero. rewrite Forall_forall in Hm.
        rewrite (eqb_value _ _ Hs (Hm x Hin)), Hval, Hx, Z.eqb_refl. reflexivity. }
      assert (Hex : existsb (same_value_zero v') members = true)
        by (apply existsb_exists; eauto).
      congruence. }
    split; [|split].
    + apply Forall_app. split; [exact Hm | now constructor].
    + rewrite map_app. apply NoDup_app; [exact Hd | |].
      * cbn [map]. constructor; [tauto | constructor].
      * intros a Ha [<-|[]]. now rewrite Hval in Ha.
    + intros z. rewrite map_app, in_app_iff. cbn [map In]. rewrite Hval.
      split; [intros [H|[H|[]]]; auto | intros [H|H]; auto].
Qed.

Lemma Set_fold_spec l :
  forall members,
    Forall (fun x => is_nan x = false) members ->
    NoDup (map value members) ->
    Forall (fun x => is_nan x = false) l ->
    Forall (fun x => is_nan x = false) (fold_left Set_add l members)
    /\ NoDup (map value (fold_left Set_add l members))
    /\ (forall z, In z (map value (fold_left Set_add l members))
                  <-> In z (map value members) \/ In z (map value l)).
Proof.
  induction l as [|v l IH]; intros members Hm Hd Hl.
  - cbn [fold_left map In]. split; [exact Hm|]. split; [exact Hd|]. tauto.
  - cbn [fold_left].
    pose proof (Forall_inv Hl) as Hv. pose proof (Forall_inv_tail Hl) as Hl'.
    destruct (Set_add_spec members v Hm Hd Hv) as (Hm' & Hd' & Hin').
    destruct (IH _ Hm' Hd' Hl') as (H1 & H2 & H3).
    split; [exact H1|]. split; [exact H2|].
    intros z. rewrite H3, Hin'. cbn [map In]. split.
    + intros [[H|H]|H]; auto.
    + intros [H|[H|H]]; auto.
Qed.

(** Ascending keys without repetition ascend strictly. *)
Lemma sorted_nodup_strict {A : Type} (key : A -> Z) l :
  StronglySorted (fun a b => (key a <= key b)%Z) l ->
  NoDup (map key l) ->
  StronglySorted (fun a b => (key a < key b)%Z) l.
Proof.
  induction l as [|a l IH]; intros Hs Hd; [constructor|].
  apply StronglySorted_inv in Hs. destruct Hs as [Hs Ha].
  cbn [map] in Hd. apply NoDup_cons_iff in Hd. destruct Hd as [Hna Hd].
  constructor; [now apply IH|].
  rewrite Forall_forall in *. intros x Hx. specialize (Ha x Hx).
  assert (key a <> key x) by (intros E; apply Hna; rewrite E; now apply in_map).
  lia.
Qed.

Lemma results_radii stations g :
  Forall (fun x => is_nan x = false)
    (flat_map (fun s => map cr_r (cs_rows s)) (results (computeAll stations g))).
Proof.
  rewrite Forall_forall. intros x Hx. apply in_flat_map in Hx.
  destruct Hx as (cs & Hcs & Hx). apply in_map_iff in Hx. destruct Hx as (row & <- & Hrow).
  destruct (results_In Math_log Math_exp _ _ _ Hcs) as (st & _ & Hst).
  apply computeStation_Some in Hst. cbv zeta in Hst.
  destruct Hst as (_ & _ & _ & _ & _ & _ & Hrows & _). rewrite Hrows in Hrow.
  pose proof (station_rows_radius (settings_rho g) (settings_unitIsKPa g) st) as Hn.
  rewrite Forall_forall in Hn. now apply Hn.
Qed.

(** X14: the radii of the profile plot.  They ascend strictly, so no
    radius is plotted twice (the two zeros count as one radius); every row
    of every processed station has its radius among them; and each of them
    is the radius of some row. *)
Theorem X14_profile_radii stations g :
  let res := computeAll stations g in
  StronglySorted (fun a b => (a <? b) = true) (allR res)
  /\ (forall cs row, In cs (results res) -> In row (cs_rows cs) ->
      exists rVal, In rVal (allR res) /\ (cr_r row =? rVal) = true)
  /\ (forall rVal, In rVal (allR res) ->
      exists cs row, In cs (results res) /\ In row (cs_rows cs)
                     /\ (cr_r row =? rVal) = true).
Proof.
  cbv zeta. unfold allR.
  set (radii := flat_map _ _).
  pose proof (results_radii stations g) as Hn. fold radii in Hn.
  destruct (Set_fold_spec radii [] (Forall_nil _) (NoDup_nil _) Hn) as (Hm & Hd & Hin).
  fold (Set_of radii) in Hm, Hd, Hin.
  set (cmp := fun a b : number => a - b).
  pose proof (sort_Forall cmp _ _ Hm) as Hsn.
  assert (Hmem : forall z, In z (map value (sort cmp (Set_of radii)))
                           <-> In z (map value radii)).
  { intros z. split; intros H.
    - assert (H' : In z (map value (Set_of radii))).
      { eapply Permutation_in; [|exact H].
        apply Permutation_map, Permutation_sym, sort_perm. }
      apply Hin in H'. destruct H' as [[]|H']. exact H'.
    - assert (H' : In z (map value (Set_of radii))) by (apply Hin; now right).
      eapply Permutation_in; [|exact H']. apply Permutation_map, sort_perm. }
  split; [|split].
  - assert (Hs : StronglySorted (fun a b => (value a <= value b)%Z)
                   (sort cmp (Set_of radii))).
    { apply (sort_key_sorted cmp value (fun x => is_nan x = false)); [|exact Hm].
      intros a b Pa Pb. unfold cmp. rewrite sub_pos. apply (ltb_value _ _ Pb Pa). }
    assert (Hd' : NoDup (map value (sort cmp (Set_of radii)))).
    { eapply Permutation_NoDup; [|exact Hd]. apply Permutation_map, sort_perm. }
    pose proof (sorted_nodup_strict value _ Hs Hd') as Hlt.
    apply (StronglySorted_impl (fun a b => (value a < value b)%Z)
             (fun a b => (a <? b) = true) (fun x => is_nan x = false)); auto.
    intros a b Pa Pb Hab. rewrite (ltb_value _ _ Pa Pb). now apply Z.ltb_lt.
  - intros cs row Hcs Hrow.
    assert (Hr : In (cr_r row) radii).
    { apply in_flat_map. exists cs. split; [exact Hcs | now apply in_map]. }
    assert (Hv : In (value (cr_r row)) (map value (sort cmp (Set_of radii))))
      by (apply Hmem; now apply in_map).
    apply in_map_iff in Hv. destruct Hv as (rVal & Hv & HrVal).
    exists rVal. split; [exact HrVal|].
    rewrite Forall_forall in Hn, Hsn.
    rewrite (eqb_value _ _ (Hn _ Hr) (Hsn _ HrVal)), Hv. apply Z.eqb_refl.
  - intros rVal HrVal.
    assert (Hv : In (value rVal) (map value radii)) by (apply Hmem; now apply in_map).
    apply in_map_iff in Hv. destruct Hv as (x & Hv & Hx).
    pose proof Hx as Hx'. apply in_flat_map in Hx'. destruct Hx' as (cs & Hcs & Hx').
    apply in_map_iff in Hx'. destruct Hx' as (row & <- & Hrow).
    exists cs, row. split; [exact Hcs|]. split; [exact Hrow|].
    rewrite Forall_forall in Hn, Hsn.
    rewrite (eqb_value _ _ (Hn _ Hx) (Hsn _ HrVal)), Hv. apply Z.eqb_refl.
Qed.

Lemma get_set_property {V : Type} (k k' : string) (v : V) o :
  get_property k (set_property k' v o)
  = if String.eqb k' k then Some v else get_property k o.
Proof.
  induction o as [|[k0 w] o IH]; cbn [set_property get_property].
  - reflexivity.
  - destruct (String.eqb k0 k') eqn:E0; cbn [get_property].
    + apply String.eqb_eq in E0. subst k0. now destruct (String.eqb k' k).
    + rewrite IH. destruct (String.eqb k0 k) eqn:E1; [|reflexivity].
      apply String.eqb_eq in E1. subst k0.
      rewrite String.eqb_sym in E0. now rewrite E0.
Qed.

Lemma find_app {A : Type} (p : A -> bool) l l' :
  find p (l ++ l') = match find p l with Some x => Some x | None => find p l' end.
Proof.
  induction l as [|x l IH]; [reflexivity|].
  cbn [app find]. now destruct (p x).
Qed.

(** After a run of assignments, a property holds what the last assignment
    to it stored. *)
Lemma get_fold_property {A V : Type} (key : A -> string) (val : A -> V) (k : string) l :
  forall o,
    get_property k (fold_left (fun o x => set_property (key x) (val x) o) l o)
    = match find (fun x => String.eqb (key x) k) (rev l) with
      | Some x => Some (val x)
      | None => get_property k o
      end.
Proof.
  induction l as [|x l IH]; intros o; [reflexivity|].
  cbn [fold_left rev]. rewrite IH, find_app.
  destruct (find _ (rev l)); [reflexivity|].
  cbn [find]. rewrite get_set_property. now destruct (String.eqb (key x) k).
Qed.

Lemma find_never {A : Type} (p : A -> bool) l :
  (forall x, p x = false) -> find p l = None.
Proof.
  intros H. induction l as [|x l IH]; [reflexivity|]. cbn [find]. now rewrite H.
Qed.

Lemma NoDup_map_eq {A B : Type} (f : A -> B) l a b :
  NoDup (map f l) -> In a l -> In b l -> f a = f b -> a = b.
Proof.
  induction l as [|x l IH]; [intros _ []|].
  cbn [map]. intros Hd Ha Hb E. apply NoDup_cons_iff in Hd. destruct Hd as [Hx Hd].
  destruct Ha as [->|Ha], Hb as [->|Hb]; auto.
  - exfalso. apply Hx. rewrite E. now apply in_map.
  - exfalso. apply Hx. rewrite <- E. now apply in_map.
Qed.

(** X15: the points of the profile plot.  There is one point per plotted
    radius, and it holds this radius.  Under the property of a station the
    point holds the velocity of one station only: the last station of the
    results whose x/D prints the same, and of this station the first row
    that has the radius (nothing when it has none).  So when two stations
    share an x/D the earlier one is not plotted; when all the x/D print
    differently every station is plotted with its own velocities. *)
Theorem X15_profile_points (String_ : number -> string) (res : ComputedResults) :
  let key := station_key String_ in
  List.length (profileData String_ res) = List.length (allR res)
  /\ Forall2
       (fun rVal point =>
          get_property "r" point = Some (Some rVal)
          /\ forall cs, In cs (results res) ->
               exists shown,
                 find (fun st => String.eqb (key st) (key cs)) (rev (results res))
                 = Some shown
                 /\ In shown (results res)
                 /\ key shown = key cs
                 /\ (NoDup (map key (results res)) -> shown = cs)
                 /\ get_property (key cs) point = Some (velocity_at shown rVal))
       (allR res) (profileData String_ res).
Proof.
  cbv zeta. unfold profileData. split; [apply length_map|].
  induction (allR res) as [|rVal radii IH]; cbn [map]; constructor; [|exact IH].
  unfold profilePoint. split.
  - rewrite (get_fold_property (station_key String_) (fun st => velocity_at st rVal)).
    replace (find _ (rev (results res))) with (@None ComputedStation); [reflexivity|].
    symmetry. apply find_never. intros st. reflexivity.
  - intros cs Hcs.
    rewrite (get_fold_property (station_key String_) (fun st => velocity_at st rVal)).
    destruct (find _ (rev (results res))) as [shown|] eqn:F.
    + exists shown. apply find_some in F. destruct F as [Hin E].
      assert (Hin' : In shown (results res)) by (now apply in_rev).
      clear Hin. rename Hin' into Hin. apply String.eqb_eq in E.
      split; [reflexivity|]. split; [exact Hin|]. split; [exact E|].
      split; [|reflexivity].
      intros Hd. exact (NoDup_map_eq _ _ _ _ Hd Hin Hcs E).
    + exfalso. assert (Hcs' : In cs (rev (results res))) by (now apply in_rev in Hcs).
      pose proof (find_none _ _ F cs Hcs') as E. cbv beta in E.
      rewrite String.eqb_refl in E. discriminate.
Qed.

(** *** Pasting two columns *)

Lemma graphic_width c s : graphic c = true -> white_space_width (c :: s) = 0%nat.
Proof.
  intros H.
  destruct c as [[] [] [] [] [] [] [] []]; vm_compute in H; try discriminate H;
    reflexivity.
Qed.

Lemma graphic_not_newline c : graphic c = true -> (byte c =? 10)%nat = false.
Proof.
  unfold graphic. intros H. apply andb_prop in H. destruct H as [H _].
  apply Nat.leb_le in H. apply Nat.eqb_neq. lia.
Qed.

Lemma split_lines_line l rest :
  Forall (fun c => (byte c =? 10)%nat = false) l ->
  split_lines (l ++ ascii_of_nat 10 :: rest) = l :: split_lines rest.
Proof.
  induction 1 as [|c l Hc _ IH]; [reflexivity|].
  cbn [app split_lines]. rewrite Hc, IH. reflexivity.
Qed.

Lemma split_spaces_nonempty fuel s : split_spaces fuel s <> [].
Proof.
  destruct fuel as [|fuel]; [discriminate|].
  destruct s as [|c s]; [discriminate|]. cbn [split_spaces].
  destruct (white_space_width (c :: s)); [|discriminate].
  destruct (split_spaces fuel s); discriminate.
Qed.

Lemma split_spaces_empty fuel : split_spaces fuel [] = [[]].
Proof. now destruct fuel. Qed.

(** A run of printable characters goes to the front of the first piece. *)
Lemma split_spaces_token tok :
  forallb graphic tok = true ->
  forall fuel rest,
    (List.length (tok ++ rest) <= fuel)%nat ->
    split_spaces fuel (tok ++ rest)
    = match split_spaces (fuel - List.length tok) rest with
      | piece :: pieces => (tok ++ piece) :: pieces
      | [] => [tok]
      end.
Proof.
  induction tok as [|c tok IH]; intros Hg fuel rest Hf.
  - cbn [app List.length]. rewrite Nat.sub_0_r.
    pose proof (split_spaces_nonempty fuel rest).
    destruct (split_spaces fuel rest); [contradiction | reflexivity].
  - cbn [forallb] in Hg. apply andb_prop in Hg. destruct Hg as [Hc Hg].
    destruct fuel as [|fuel]; [cbn in Hf; lia|].
    cbn [app List.length] in Hf |- *. cbn [split_spaces].
    rewrite (graphic_width c _ Hc).
    rewrite (IH Hg fuel rest) by lia. rewrite Nat.sub_succ.
    pose proof (split_spaces_nonempty (fuel - List.length tok) rest).
    destruct (split_spaces (fuel - List.length tok) rest); [contradiction | reflexivity].
Qed.

Lemma trim_start_token n s :
  s <> [] -> forallb graphic s = true -> trim_start n s = s.
Proof.
  intros Hs Hg. destruct s as [|c s]; [contradiction|].
  cbn [forallb] in Hg. apply andb_prop in Hg. destruct Hg as [Hc _].
  destruct n as [|n]; [reflexivity|]. cbn [trim_start].
  now rewrite (graphic_width c s Hc).
Qed.

(** Two cells with a tab between split into the two cells. *)
Lemma split_spaces_cells r dp :
  cell r -> cell dp ->
  split_spaces (List.length (r ++ ascii_of_nat 9 :: dp)) (r ++ ascii_of_nat 9 :: dp)
  = [r; dp].
Proof.
  intros [Hr Gr] [Hd Gd].
  rewrite (split_spaces_token r Gr) by lia.
  rewrite length_app, Nat.add_comm, Nat.add_sub. cbn [List.length split_spaces].
  change (white_space_width (ascii_of_nat 9 :: dp)) with 1%nat.
  change (trim_start (S (List.length dp)) (ascii_of_nat 9 :: dp))
    with (trim_start (List.length dp) dp).
  rewrite (trim_start_token _ dp Hd Gd).
  rewrite <- (app_nil_r dp) at 2.
  rewrite (split_spaces_token dp Gd) by (rewrite app_nil_r; lia).
  rewrite split_spaces_empty, !app_nil_r. reflexivity.
Qed.

Lemma not_blank_cell r rest : cell r -> not_blank (r ++ rest) = true.
Proof.
  intros [Hr Gr]. destruct r as [|c r]; [contradiction|].
  cbn [forallb] in Gr. apply andb_prop in Gr. destruct Gr as [Hc _].
  unfold not_blank. cbn [app List.length trim_start].
  now rewrite (graphic_width c _ Hc).
Qed.

Lemma map_mapi_from {A B C : Type} (f : A -> nat -> B) (g : B -> C) (h : A -> C) l :
  (forall x i, g (f x i) = h x) ->
  forall i, map g (mapi_from f i l) = map h l.
Proof.
  intros H. induction l as [|x l IH]; intros i; [reflexivity|].
  cbn [mapi_from map]. now rewrite H, IH.
Qed.

Lemma mapi_from_length {A B : Type} (f : A -> nat -> B) l :
  forall i, List.length (mapi_from f i l) = List.length l.
Proof.
  induction l as [|x l IH]; intros i; [reflexivity|].
  cbn [mapi_from List.length]. now rewrite IH.
Qed.

(** X16: pasting into a station card.  The paste changes the rows only.
    When the text has no line with a character that is not white space,
    the station is left as it is; otherwise the rows are replaced, not
    extended, by one row per such line.  A line that begins with white
    space gives a row with an empty radius, which does not count; and a
    line of a single cell gives a row with an empty pressure, which does
    not count either. *)
Theorem X16_paste_replaces_rows (ids : nat -> string) (pasteData : string) st :
  let pasted := handlePaste ids pasteData st in
  let lines := filter not_blank (split_lines (list_ascii_of_string pasteData)) in
  set_rows pasted (st_rows st) = st
  /\ (lines = [] -> pasted = st)
  /\ (lines <> [] -> List.length (st_rows pasted) = List.length lines)
  /\ (forall id line, white_space_width line <> 0%nat ->
        row_r (pasted_row id line) = ""%string
        /\ valid_row (pasted_row id line) = false)
  /\ (forall id line, cell line ->
        row_r (pasted_row id line) = string_of_list_ascii line
        /\ row_dp (pasted_row id line) = ""%string
        /\ valid_row (pasted_row id line) = false).
Proof.
  cbv zeta. unfold handlePaste.
  set (lines := filter not_blank _).
  split; [|split; [|split; [|split]]].
  - destruct (0 <? _)%nat; destruct st; reflexivity.
  - intros ->. reflexivity.
  - intros Hl. unfold mapi. rewrite mapi_from_length.
    destruct lines as [|line lines]; [contradiction|].
    cbn [List.length Nat.ltb Nat.leb set_rows st_rows]. rewrite mapi_from_length.
    reflexivity.
  - intros id line Hw.
    assert (E : row_r (pasted_row id line) = ""%string).
    { unfold pasted_row. cbv zeta. cbn [row_r].
      destruct line as [|c line]; [reflexivity|]. cbn [List.length split_spaces].
      destruct (white_space_width (c :: line)); [contradiction | reflexivity]. }
    split; [exact E|]. unfold valid_row. rewrite E. reflexivity.
  - intros id line Hc.
    assert (E : split_spaces (List.length line) line = [line]).
    { destruct Hc as [_ Hg]. rewrite <- (app_nil_r line) at 2.
      rewrite (split_spaces_token line Hg) by (rewrite app_nil_r; lia).
      now rewrite split_spaces_empty, app_nil_r. }
    unfold pasted_row. cbv zeta. rewrite E. cbn [row_r row_dp nth].
    split; [reflexivity|]. split; [reflexivity|].
    unfold valid_row. cbn [row_r row_dp].
    change (isFinite (parseFloat "")) with false. apply andb_false_r.
Qed.

(** X17: pasting a table of two columns gives the table back.  For a
    non-empty table whose cells are runs of printable ASCII characters
    (numbers as a spreadsheet writes them), written one line per row with a
    tab between the two cells, the pasted station has exactly these rows,
    in this order: the first column as radii and the second as pressures,
    whatever rows the station had before. *)
Theorem X17_paste_round_trip (ids : nat -> string) st
  (table : list (list ascii * list ascii)) :
  table <> [] ->
  Forall (fun cells => cell (fst cells) /\ cell (snd cells)) table ->
  map (fun row => (row_r row, row_dp row))
    (st_rows (handlePaste ids (string_of_list_ascii (flat_map table_line table)) st))
  = map (fun cells => (string_of_list_ascii (fst cells), string_of_list_ascii (snd cells)))
      table.
Proof.
  intros Hne Hcells. unfold handlePaste.
  rewrite list_ascii_of_string_of_list_ascii.
  assert (Hlines : filter not_blank (split_lines (flat_map table_line table))
                   = map (fun cells => fst cells ++ ascii_of_nat 9 :: snd cells) table).
  { clear Hne. induction Hcells as [|[r dp] table [Hr Hd] _ IH]; [reflexivity|].
    cbn [flat_map map fst snd] in *. unfold table_line at 1. cbn [fst snd].
    replace ((r ++ ascii_of_nat 9 :: dp ++ [ascii_of_nat 10]) ++ flat_map table_line table)
      with ((r ++ ascii_of_nat 9 :: dp) ++ ascii_of_nat 10 :: flat_map table_line table)
      by (rewrite <- !app_assoc; cbn [app]; rewrite <- app_assoc; reflexivity).
    rewrite split_lines_line.
    - cbn [filter]. rewrite (not_blank_cell r _ Hr), IH. reflexivity.
    - apply Forall_app. split; [|constructor; [reflexivity|]].
      + rewrite Forall_forall. intros c Hc. apply graphic_not_newline.
        destruct Hr as [_ Hg]. rewrite forallb_forall in Hg. now apply Hg.
      + rewrite Forall_forall. intros c Hc. apply graphic_not_newline.
        destruct Hd as [_ Hg]. rewrite forallb_forall in Hg. now apply Hg. }
  rewrite Hlines. cbv zeta. unfold mapi. rewrite mapi_from_length, length_map.
  destruct table as [|cells table]; [contradiction|].
  cbn [List.length Nat.ltb Nat.leb set_rows st_rows].
  rewrite (map_mapi_from _ _
             (fun line => (string_of_list_ascii (nth 0 (split_spaces (List.length line) line) []),
                           string_of_list_ascii (nth 1 (split_spaces (List.length line) line) []))))
    by reflexivity.
  rewrite map_map. apply map_ext_in. intros [r dp] Hin. cbn [fst snd].
  rewrite Forall_forall in Hcells. destruct (Hcells _ Hin) as [Hr Hd]. cbn [fst snd] in Hr, Hd.
  rewrite (split_spaces_cells r dp Hr Hd). reflexivity.
Qed.

(** *** Inputs that are only carried along *)

Ltac station_cases :=
  unfold computeStation;
  cbn [handleStationChange st_id st_xd st_variac st_port1 st_rows];
  destruct (negb (isFinite (parseFloat _))); [reflexivity|];
  destruct (List.length (parseRows _) <? 2)%nat; [reflexivity|];
  cbv zeta; destruct (centerline _ _ _) as [Uc tr2];
  destruct (negb _); destruct (_ && _ && _ && _); reflexivity.

Lemma computeStation_with_D rho D D' k st :
  computeStation rho D' k st = option_map (with_D D') (computeStation rho D k st).
Proof.
  unfold computeStation.
  destruct (negb (isFinite (parseFloat (st_xd st)))); [reflexivity|].
  destruct (List.length (parseRows _) <? 2)%nat; [reflexivity|].
  cbv zeta. destruct (centerline _ _ _) as [Uc tr2].
  destruct (negb _); destruct (_ && _ && _ && _); reflexivity.
Qed.

Lemma mapNotNull_map {A B : Type} (f f' : A -> option B) (h : B -> B) l :
  (forall x, f' x = option_map h (f x)) ->
  mapNotNull f' l = map h (mapNotNull f l).
Proof.
  intros H. induction l as [|x l IH]; [reflexivity|].
  cbn [mapNotNull]. rewrite H. destruct (f x); cbn [option_map map]; now rewrite IH.
Qed.

(** X18: the voltage and the port pressure of a station are carried along
    and influence nothing: editing one of them changes, of the computed
    station, this one recorded value only, and never whether the station is
    usable.  The same holds for x/D as long as it stays a finite number:
    the position of a station does not enter its profile, its integrals or
    its warnings. *)
Theorem X18_carried_station_inputs rho D k st (v : string) :
  computeStation rho D k (handleStationChange (Set_variac v) st)
  = option_map (with_variac (parseFloat v)) (computeStation rho D k st)
  /\ computeStation rho D k (handleStationChange (Set_port1 v) st)
     = option_map (with_port1 (parseFloat v)) (computeStation rho D k st)
  /\ (isFinite (parseFloat (st_xd st)) = true -> isFinite (parseFloat v) = true ->
      computeStation rho D k (handleStationChange (Set_xd v) st)
      = option_map (with_xd (parseFloat v)) (computeStation rho D k st)).
Proof.
  split; [station_cases|]. split; [station_cases|].
  intros H1 H2. unfold computeStation.
  cbn [handleStationChange st_id st_xd st_variac st_port1 st_rows].
  rewrite H1, H2. cbn [negb].
  destruct (List.length (parseRows _) <? 2)%nat; [reflexivity|].
  cbv zeta. destruct (centerline _ _ _) as [Uc tr2].
  destruct (negb _); destruct (_ && _ && _ && _); reflexivity.
Qed.

(** X19: of the global settings, only the density and the unit mode enter
    the numbers.  Editing the contraction ratio or the appendix switch
    changes no result; editing the diameter changes, in every computed
    station, the recorded diameter only. *)
Theorem X19_carried_settings stations g :
  (forall v, results (computeAll stations (handleGlobalChange (Set_contraction v) g))
             = results (computeAll stations g))
  /\ (forall b, results (computeAll stations (handleGlobalChange (Set_showSteps b) g))
                = results (computeAll stations g))
  /\ (forall v, results (computeAll stations (handleGlobalChange (Set_Dcm v) g))
                = map (with_D (cm2m (or_else (parseFloat v) 2.54)))
                    (results (computeAll stations g))).
Proof.
  split; [reflexivity|]. split; [reflexivity|].
  intros v. rewrite !results_eq.
  apply mapNotNull_map. intros st. apply computeStation_with_D.
Qed.

End MoreProperties.

(** ** The further properties on the worked inputs *)

(** The sample station is processed without any warning. *)
Lemma X1_witness :
  sample_run = Some sample_computed
  /\ warnings (cs_trace sample_computed) = []
  /\ ~ In Cannot_extrapolate_Uc (warnings (cs_trace sample_computed)).
Proof.
  assert (Hs : sample_run = Some sample_computed) by (vm_compute; reflexivity).
  destruct (X1_station_warning_list Host.log Host.exp _ _ _ _ _ Hs) as (Hw & Hc & _).
  refine (conj Hs (conj _ Hc)).
  cbv zeta in Hw. rewrite Hw. vm_compute. reflexivity.
Defined.

(** The radii of the sample station ascend strictly. *)
Lemma X2_witness :
  sample_run = Some sample_computed
  /\ StronglySorted radius_lt (cs_rows sample_computed).
Proof.
  assert (Hs : sample_run = Some sample_computed) by (vm_compute; reflexivity).
  destruct (X2_profile_warnings_exact Host.log Host.exp _ _ _ _ _ Hs) as (Hd & _).
  refine (conj Hs (proj1 Hd _)).
  intros r Hin. vm_compute in Hin. exact Hin.
Defined.

(** The still-center station has no half-velocity radius: its collapse is
    empty and the tail is skipped. *)
Lemma X3_witness :
  still_run = Some still_computed
  /\ cs_rHalf still_computed = nan
  /\ In Tail_skipped (warnings (cs_trace still_computed))
  /\ cs_collapse still_computed = [].
Proof.
  assert (Hs : still_run = Some still_computed) by (vm_compute; reflexivity).
  destruct (X3_unresolved_half_radius Host.log Host.exp _ _ _ _ _ Hs) as (_ & Hn & _ & Hc).
  assert (Hin : In No_crossing (warnings (cs_trace still_computed)))
    by (vm_compute; auto).
  pose proof (proj1 Hn Hin) as E.
  destruct (Hc E) as (Ht & Hcol & _).
  exact (conj Hs (conj E (conj Ht Hcol))).
Defined.

(** The two rows of radius 5 mm of the repeated station stay in input
    order: the row of pressure 0.2 first. *)
Lemma X4_witness :
  repeated_run = Some repeated_computed
  /\ map cr_dpPa (filter (fun row => cr_r row =? 0.005) (cs_rows repeated_computed))
     = [200; 100].
Proof.
  assert (Hs : repeated_run = Some repeated_computed) by (vm_compute; reflexivity).
  refine (conj Hs _).
  rewrite (X4_sort_is_stable Host.log Host.exp _ _ _ _ _ 0.005 Hs).
  vm_compute. reflexivity.
Defined.

(** The sample station with its rows entered in reverse order. *)
Lemma X6_witness :
  sample_run = Some sample_computed
  /\ computeStation Host.log Host.exp (settings_rho sample_settings)
       (settings_D sample_settings) (settings_unitIsKPa sample_settings)
       (set_rows sample_station (rev (st_rows sample_station)))
     = Some sample_computed.
Proof.
  assert (Hs : sample_run = Some sample_computed) by (vm_compute; reflexivity).
  refine (conj Hs _).
  apply (X6_row_order_is_irrelevant Host.log Host.exp _ _ _ _ _ _ Hs).
  - intros r Hin. vm_compute in Hin. exact Hin.
  - apply Permutation_rev.
Defined.

(** Replacing the still-center station by one with an added blank row
    leaves the sample station's result in place. *)
Lemma X8_witness :
  st_id (addRow "r9" still_center_station) = "s2"%string
  /\ filter (fun cs => negb (String.eqb (cs_id cs) "s2"))
       (results (computeAll Host.log Host.exp
                   (updateStation "s2" (addRow "r9" still_center_station)
                      [sample_station; still_center_station]) sample_settings))
     = [sample_computed].
Proof.
  assert (Hid : st_id (addRow "r9" still_center_station) = "s2"%string) by reflexivity.
  refine (conj Hid _).
  rewrite (X8_update_is_local Host.log Host.exp
             [sample_station; still_center_station] sample_settings "s2" _ Hid).
  vm_compute. reflexivity.
Defined.

(** The repeated station: both innermost rows at 5 mm, and Uc is not
    finite. *)
Lemma X12_witness :
  repeated_run = Some repeated_computed
  /\ isFinite (cs_Uc repeated_computed) = false
  /\ In Tail_skipped (warnings (cs_trace repeated_computed)).
Proof.
  assert (Hs : repeated_run = Some repeated_computed) by (vm_compute; reflexivity).
  assert (He : cs_rows repeated_computed
               = {| cr_r := 0.005; cr_dpPa := 200; cr_u := cr_u (hd no_row (cs_rows repeated_computed)) |}
                 :: hd no_row (tl (cs_rows repeated_computed))
                 :: tl (tl (cs_rows repeated_computed)))
    by (vm_compute; reflexivity).
  assert (H1 : (cr_r (hd no_row (tl (cs_rows repeated_computed))) =? 0.005) = true)
    by (vm_compute; reflexivity).
  assert (H2 : (0.005 =? 0) = false) by (vm_compute; reflexivity).
  destruct (X12_repeated_innermost_radius Host.log Host.exp _ _ _ _ _ _ _ _ Hs He H1 H2)
    as (HU & _ & Ht).
  exact (conj Hs (conj HU Ht)).
Defined.

(** Pasting the sample table into a station replaces its rows by the
    three rows of the table. *)
Lemma X17_witness :
  sample_table <> []
  /\ map (fun row => (row_r row, row_dp row))
       (st_rows (handlePaste (fun _ => "id"%string)
                   (string_of_list_ascii (flat_map table_line sample_table))
                   one_row_station))
     = [("0", "0.278"); ("5", "0.244"); ("10", "0.124")]%string.
Proof.
  assert (H1 : sample_table <> []) by discriminate.
  assert (H2 : Forall (fun cells => cell (fst cells) /\ cell (snd cells)) sample_table).
  { repeat constructor; try discriminate. }
  refine (conj H1 _).
  rewrite (X17_paste_round_trip (fun _ => "id"%string) one_row_station sample_table H1 H2).
  reflexivity.
Defined.
